(** * Scalar multiplication schedules of edwards25519 (scalarmult.go)

    A shallow embedding of the five multiplication entry points
    [ScalarBaseMult], [ScalarMult], [MultiScalarMult],
    [VarTimeDoubleScalarBaseMult] and [VarTimeMultiScalarMult], together
    with the theorems that settle the specification's claims about them.

    The schedules are written against the point layer they consume (group
    law in its coordinate representations, lookup tables, the generator
    tables), which lives in other files of the package.  That layer is the
    class [PointOps]; what the specification assumes of it is the class
    [PointSpec].

    Receivers and arguments are Go pointers: they are locations of a store
    that the schedules read and write in place, so that a receiver may
    alias an argument.  A location always holds a value (no pointer is
    nil).  The two explicit panics of the file are outcomes of a call.
    Every call into the point layer leaves an event in a trace, which is
    what an observer of the running time and of the memory accesses sees.
    The temporaries of a call ([tmp1], [tmp2], [multiple], the tables and
    the digit arrays) are local to it and are values of the embedding.

    Contents: the embedding (scalars and digits, the point layer, the
    store, the five schedules), the specification's assumptions on the
    layer and a reference layer over the integers, the judgements used in
    the proofs; then the lemmas on digits, on group multiples and on each
    schedule; then the claims, and further properties of the schedules:
    their results in place and in sequence, when they return, and what
    the variable-time ones emit. *)

From Stdlib Require Import ZArith Lia List Bool.
From stdpp Require Import base list functions.
Import ListNotations.
Local Open Scope Z_scope.

(** ** Scalars and their signed digits *)

(** The prime order of the group: scalars are integers below it. *)
Definition l_order : Z := 2 ^ 252 + 27742317777372353535851937790883648493.

Definition valid_scalar (x : Z) : Prop := 0 <= x < l_order.

(** Digits are [int8] values: negation wraps around at 8 bits. *)
Definition int8_wrap (z : Z) : Z := (z + 128) mod 256 - 128.

Definition int8_neg (d : Z) : Z := int8_wrap (- d).

(** [digits[i]] on a fixed-size digit array. *)
Definition digit (ds : list Z) (i : nat) : Z := nth i ds 0.

(** The value of a little-endian digit sequence in a given base. *)
Definition eval_digits (base : Z) (ds : list Z) : Z :=
  fold_right (fun d acc => d + base * acc) 0 ds.

(** Modelled from the spec: the base-16 digits of a scalar, in [0,15],
    least significant first ([signedRadix16] reads them off the 32 bytes of
    the scalar's encoding, which the scalar file of the package defines). *)
Definition base16_digits (x : Z) : list Z :=
  map (fun i => (x / 16 ^ Z.of_nat i) mod 16) (seq 0 64).

(** Modelled from the spec: the carry pass of [signedRadix16].  Section
    4.1: from the least significant digit upward, if a digit exceeds 8,
    subtract 16 from it and add 1 to the next digit.  The last digit only
    receives a carry. *)
Fixpoint recenter (carry : Z) (ds : list Z) : list Z :=
  match ds with
  | [] => []
  | d :: rest =>
      match rest with
      | [] => [d + carry]
      | _ :: _ =>
          if 8 <? d + carry
          then (d + carry - 16) :: recenter 1 rest
          else (d + carry) :: recenter 0 rest
      end
  end.

(** Modelled from the spec: [signedRadix16], a method of [Scalar] that the
    scalar file of the package defines.  Section 4.1: the 64 signed
    radix-16 digits of the scalar. *)
Definition signedRadix16 (x : Z) : list Z := recenter 0 (base16_digits x).

(** Modelled from the spec: the centered residue of [nonAdjacentForm].
    Section 4.1: the low [w] bits, minus [2^w] when they are at least
    [2^(w-1)]. *)
Definition centered_residue (w k : Z) : Z :=
  let r := k mod 2 ^ w in
  if 2 ^ (w - 1) <=? r then r - 2 ^ w else r.

(** Modelled from the spec: the scan of [nonAdjacentForm].  Section 4.1:
    scan the bit positions from low to high; where the remaining value is
    odd, record its centered residue and apply the borrow or carry to the
    remaining high bits; otherwise record zero and advance one bit.  Once
    a residue is removed the next [w-1] bits of the remaining value are
    zero, so the scan records zeros there. *)
Fixpoint naf_scan (w : Z) (n : nat) (k : Z) : list Z :=
  match n with
  | O => []
  | S n' =>
      if Z.odd k
      then let d := centered_residue w k in d :: naf_scan w n' ((k - d) / 2)
      else 0 :: naf_scan w n' (k / 2)
  end.

(** Modelled from the spec: [nonAdjacentForm], a method of [Scalar] that
    the scalar file of the package defines.  Section 4.1: a signed digit at
    each of the 256 bit positions. *)
Definition nonAdjacentForm (x : Z) (w : Z) : list Z := naf_scan w 256 x.

(** ** Loop ranges *)

(** [for i := first; i < bound; i += step]. *)
Fixpoint count_up (fuel i bound step : nat) : list nat :=
  match fuel with
  | O => []
  | S fuel' =>
      if (i <? bound)%nat then i :: count_up fuel' (i + step) bound step else []
  end.

Definition range_by (first bound step : nat) : list nat :=
  count_up bound first bound step.

(** [for i := top; i >= 0; i--]. *)
Fixpoint downfrom (top : nat) : list nat :=
  top :: match top with
         | O => []
         | S i => downfrom i
         end.

(** ** The point layer *)

(** The types and operations of the point and table files of the package
    that the schedules call.  They are parameters: the field arithmetic,
    the group-law formulas and the table layouts are outside
    scalarmult.go. *)
Class PointOps := {
  Point : Type;              (* extended coordinates, the receiver type *)
  projP1xP1 : Type;          (* completed sum *)
  projP2 : Type;             (* projective *)
  projCached : Type;         (* cached for addition, general *)
  affineCached : Type;       (* cached for addition, affine *)
  projLookupTable : Type;    (* 1x..8x of a dynamic point *)
  affineLookupTable : Type;  (* 1x..8x of a fixed point *)
  nafLookupTable5 : Type;    (* odd multiples 1x..15x of a dynamic point *)
  nafLookupTable8 : Type;    (* odd multiples 1x..127x of a fixed point *)
  p3_identity : Point;
  p3_uninitialized : Point -> bool;
  p3_of_p1xp1 : projP1xP1 -> Point;
  p3_of_p2 : projP2 -> Point;
  p2_zero : projP2;
  p2_of_p3 : Point -> projP2;
  p2_of_p1xp1 : projP1xP1 -> projP2;
  p1xp1_add : Point -> projCached -> projP1xP1;
  p1xp1_sub : Point -> projCached -> projP1xP1;
  p1xp1_add_affine : Point -> affineCached -> projP1xP1;
  p1xp1_sub_affine : Point -> affineCached -> projP1xP1;
  p1xp1_double : projP2 -> projP1xP1;
  proj_table_of_p3 : Point -> projLookupTable;
  proj_table_select : projLookupTable -> Z -> projCached;
  affine_table_select : affineLookupTable -> Z -> affineCached;
  naf5_table_of_p3 : Point -> nafLookupTable5;
  naf5_table_select : nafLookupTable5 -> Z -> projCached;
  naf8_table_select : nafLookupTable8 -> Z -> affineCached;
  basepointTable : nat -> affineLookupTable;   (* [32]affineLookupTable *)
  basepointNafTable : nafLookupTable8
}.

(** ** Panics, leakage events, the store *)

Inductive panic : Type :=
| LengthMismatch       (* "called ... with different size inputs" *)
| UninitializedPoint.  (* "use of uninitialized Point" *)

(** What a call of the point layer lets an observer of timing and memory
    accesses see.  The constant-time selectors touch every table entry and
    show nothing of the digit; the variable-time selectors index by it. *)
Inductive event : Type :=
| EvSignedRadix16
| EvNonAdjacentForm (w : Z) (x : Z)
| EvTableFromP3
| EvNafTableFromP3
| EvSelectConstantTime
| EvSelectVariableTime (d : Z)
| EvSet
| EvAdd
| EvSub
| EvAddAffine
| EvSubAffine
| EvDouble
| EvP2Zero
| EvP2FromP3
| EvP2FromP1xP1
| EvP3FromP1xP1
| EvP3FromP2.

Definition loc : Type := nat.

Inductive outcome (A : Type) : Type :=
| Ok (a : A)
| Panic (e : panic).

Arguments Ok {A} a.
Arguments Panic {A} e.

Section Embedding.
Context {ops : PointOps}.

(** The store holds the [Point] and [Scalar] objects behind the pointers,
    and the trace of events emitted so far. *)
Record state : Type := State {
  st_points : loc -> Point;
  st_scalars : loc -> Z;
  st_trace : list event
}.

Definition M (A : Type) : Type := state -> outcome A * state.

Definition ret {A} (a : A) : M A := fun st => (Ok a, st).

Definition bind {A B} (m : M A) (k : A -> M B) : M B :=
  fun st =>
    match m st with
    | (Ok a, st') => k a st'
    | (Panic e, st') => (Panic e, st')
    end.

Definition throw {A} (e : panic) : M A := fun st => (Panic e, st).

Definition tick (e : event) : M unit :=
  fun st => (Ok tt, State (st_points st) (st_scalars st) (st_trace st ++ [e])).

Definition loadPoint (l : loc) : M Point := fun st => (Ok (st_points st l), st).

Definition storePoint (l : loc) (p : Point) : M unit :=
  fun st => (Ok tt, State (<[l := p]> (st_points st)) (st_scalars st) (st_trace st)).

Definition loadScalar (l : loc) : M Z := fun st => (Ok (st_scalars st l), st).
End Embedding.

Declare Scope prog_scope.
Delimit Scope prog_scope with prog.
Notation "x <- m ;; k" := (bind m (fun x => k))
  (at level 100, m at level 99, k at level 200, right associativity) : prog_scope.
Notation "m ;;; k" := (bind m (fun _ => k))
  (at level 100, k at level 200, right associativity) : prog_scope.

Section Schedules.
Context {ops : PointOps}.
Local Open Scope prog_scope.

Fixpoint foldM {A S} (body : A -> S -> M S) (l : list A) (s : S) : M S :=
  match l with
  | [] => ret s
  | a :: rest => s' <- body a s ;; foldM body rest s'
  end.

Definition for_each {A} (l : list A) (body : A -> M unit) : M unit :=
  foldM (fun a _ => body a) l tt.

Fixpoint mapM {A B} (f : A -> M B) (l : list A) : M (list B) :=
  match l with
  | [] => ret []
  | a :: rest => b <- f a ;; bs <- mapM f rest ;; ret (b :: bs)
  end.

(** *** Calls into the scalar and point layer *)

Definition Scalar_signedRadix16 (x : loc) : M (list Z) :=
  s <- loadScalar x ;;
  tick EvSignedRadix16 ;;;
  ret (signedRadix16 s).

Definition Scalar_nonAdjacentForm (x : loc) (w : Z) : M (list Z) :=
  s <- loadScalar x ;;
  tick (EvNonAdjacentForm w s) ;;;
  ret (nonAdjacentForm s w).

(** Modelled from the spec: [checkInitialized] is defined in the point
    file of the package.  Sections 3 and 7: a point that was never assigned
    a value is detected and rejected with the fatal error
    [UninitializedPoint]. *)
Fixpoint checkInitialized (points : list loc) : M unit :=
  match points with
  | [] => ret tt
  | p :: rest =>
      pv <- loadPoint p ;;
      if p3_uninitialized pv then throw UninitializedPoint
      else checkInitialized rest
  end.

(** [NewIdentityPoint()] allocates a fresh identity point that is only
    copied from: its value is all the schedules use. *)
Definition NewIdentityPoint : Point := p3_identity.

Definition Point_Set (v : loc) (u : Point) : M unit :=
  tick EvSet ;;; storePoint v u.

Definition Point_fromP1xP1 (v : loc) (p : projP1xP1) : M unit :=
  tick EvP3FromP1xP1 ;;; storePoint v (p3_of_p1xp1 p).

Definition Point_fromP2 (v : loc) (p : projP2) : M unit :=
  tick EvP3FromP2 ;;; storePoint v (p3_of_p2 p).

Definition projP2_Zero : M projP2 :=
  tick EvP2Zero ;;; ret p2_zero.

Definition projP2_FromP3 (v : loc) : M projP2 :=
  p <- loadPoint v ;; tick EvP2FromP3 ;;; ret (p2_of_p3 p).

Definition projP2_FromP1xP1 (p : projP1xP1) : M projP2 :=
  tick EvP2FromP1xP1 ;;; ret (p2_of_p1xp1 p).

Definition projP1xP1_Add (v : loc) (q : projCached) : M projP1xP1 :=
  p <- loadPoint v ;; tick EvAdd ;;; ret (p1xp1_add p q).

Definition projP1xP1_Sub (v : loc) (q : projCached) : M projP1xP1 :=
  p <- loadPoint v ;; tick EvSub ;;; ret (p1xp1_sub p q).

Definition projP1xP1_AddAffine (v : loc) (q : affineCached) : M projP1xP1 :=
  p <- loadPoint v ;; tick EvAddAffine ;;; ret (p1xp1_add_affine p q).

Definition projP1xP1_SubAffine (v : loc) (q : affineCached) : M projP1xP1 :=
  p <- loadPoint v ;; tick EvSubAffine ;;; ret (p1xp1_sub_affine p q).

Definition projP1xP1_Double (p : projP2) : M projP1xP1 :=
  tick EvDouble ;;; ret (p1xp1_double p).

Definition projLookupTable_FromP3 (q : loc) : M projLookupTable :=
  p <- loadPoint q ;; tick EvTableFromP3 ;;; ret (proj_table_of_p3 p).

Definition projLookupTable_SelectInto (t : projLookupTable) (x : Z) : M projCached :=
  tick EvSelectConstantTime ;;; ret (proj_table_select t x).

Definition affineLookupTable_SelectInto (t : affineLookupTable) (x : Z) : M affineCached :=
  tick EvSelectConstantTime ;;; ret (affine_table_select t x).

Definition nafLookupTable5_FromP3 (q : loc) : M nafLookupTable5 :=
  p <- loadPoint q ;; tick EvNafTableFromP3 ;;; ret (naf5_table_of_p3 p).

Definition nafLookupTable5_SelectInto (t : nafLookupTable5) (x : Z) : M projCached :=
  tick (EvSelectVariableTime x) ;;; ret (naf5_table_select t x).

Definition nafLookupTable8_SelectInto (t : nafLookupTable8) (x : Z) : M affineCached :=
  tick (EvSelectVariableTime x) ;;; ret (naf8_table_select t x).

(** [if len(scalars) != len(points) { panic(...) }] *)
Definition checkLengths (scalars points : list loc) : M unit :=
  if negb (length scalars =? length points)%nat then throw LengthMismatch
  else ret tt.
(** *** ScalarBaseMult (lines 11-56) *)

(** The body shared by the two accumulation loops (lines 32-34, 50-52). *)
Definition ScalarBaseMult_step (v : loc) (digits : list Z) (i : nat) : M unit :=
  multiple <- affineLookupTable_SelectInto (basepointTable (i / 2)) (digit digits i) ;;
  tmp1 <- projP1xP1_AddAffine v multiple ;;
  Point_fromP1xP1 v tmp1.

Definition ScalarBaseMult (v x : loc) : M loc :=
  digits <- Scalar_signedRadix16 x ;;
  (* Accumulate the odd components first *)
  Point_Set v NewIdentityPoint ;;;
  for_each (range_by 1 64 2) (ScalarBaseMult_step v digits) ;;;
  (* Multiply by 16 *)
  tmp2 <- projP2_FromP3 v ;;
  tmp1 <- projP1xP1_Double tmp2 ;;
  tmp2 <- projP2_FromP1xP1 tmp1 ;;
  tmp1 <- projP1xP1_Double tmp2 ;;
  tmp2 <- projP2_FromP1xP1 tmp1 ;;
  tmp1 <- projP1xP1_Double tmp2 ;;
  tmp2 <- projP2_FromP1xP1 tmp1 ;;
  tmp1 <- projP1xP1_Double tmp2 ;;
  Point_fromP1xP1 v tmp1 ;;;
  (* Accumulate the even components *)
  for_each (range_by 0 64 2) (ScalarBaseMult_step v digits) ;;;
  ret v.

(** *** ScalarMult (lines 61-99) *)

(** Lines 85-95: four doublings, then the digit's table entry is added. *)
Definition ScalarMult_step (v : loc) (table : projLookupTable) (digits : list Z)
    (i : nat) (tmp1 : projP1xP1) : M projP1xP1 :=
  tmp2 <- projP2_FromP1xP1 tmp1 ;;
  tmp1 <- projP1xP1_Double tmp2 ;;
  tmp2 <- projP2_FromP1xP1 tmp1 ;;
  tmp1 <- projP1xP1_Double tmp2 ;;
  tmp2 <- projP2_FromP1xP1 tmp1 ;;
  tmp1 <- projP1xP1_Double tmp2 ;;
  tmp2 <- projP2_FromP1xP1 tmp1 ;;
  tmp1 <- projP1xP1_Double tmp2 ;;
  Point_fromP1xP1 v tmp1 ;;;
  multiple <- projLookupTable_SelectInto table (digit digits i) ;;
  projP1xP1_Add v multiple.

Definition ScalarMult (v x q : loc) : M loc :=
  checkInitialized [q] ;;;
  table <- projLookupTable_FromP3 q ;;
  digits <- Scalar_signedRadix16 x ;;
  (* Unwrap first loop iteration to save computing 16*identity *)
  multiple <- projLookupTable_SelectInto table (digit digits 63) ;;
  Point_Set v NewIdentityPoint ;;;
  tmp1 <- projP1xP1_Add v multiple ;;
  tmp1 <- foldM (ScalarMult_step v table digits) (downfrom 62) tmp1 ;;
  Point_fromP1xP1 v tmp1 ;;;
  ret v.

(** *** MultiScalarMult (lines 104-153) *)

(** Lines 129-133 and 145-149: [for j := range tables], reading
    [tables[j]] and [digits[j]]; the two slices have the length of
    [points] and of [scalars], which the first check made equal. *)
Definition MultiScalarMult_add (v : loc) (i : nat)
    (term : projLookupTable * list Z) : M unit :=
  multiple <- projLookupTable_SelectInto (fst term) (digit (snd term) i) ;;
  tmp1 <- projP1xP1_Add v multiple ;;
  Point_fromP1xP1 v tmp1.

Definition MultiScalarMult_step (v : loc) (tables : list projLookupTable)
    (digits : list (list Z)) (i : nat) (tmp2 : projP2) : M projP2 :=
  tmp1 <- projP1xP1_Double tmp2 ;;
  tmp2 <- projP2_FromP1xP1 tmp1 ;;
  tmp1 <- projP1xP1_Double tmp2 ;;
  tmp2 <- projP2_FromP1xP1 tmp1 ;;
  tmp1 <- projP1xP1_Double tmp2 ;;
  tmp2 <- projP2_FromP1xP1 tmp1 ;;
  tmp1 <- projP1xP1_Double tmp2 ;;
  Point_fromP1xP1 v tmp1 ;;;
  for_each (zip tables digits) (MultiScalarMult_add v i) ;;;
  projP2_FromP3 v.

Definition MultiScalarMult (v : loc) (scalars points : list loc) : M loc :=
  checkLengths scalars points ;;;
  checkInitialized points ;;;
  (* Build lookup tables for each point *)
  tables <- mapM projLookupTable_FromP3 points ;;
  (* Compute signed radix-16 digits for each scalar *)
  digits <- mapM Scalar_signedRadix16 scalars ;;
  (* Unwrap first loop iteration to save computing 16*identity *)
  for_each (zip tables digits) (MultiScalarMult_add v 63) ;;;
  tmp2 <- projP2_FromP3 v ;;
  foldM (MultiScalarMult_step v tables digits) (downfrom 62) tmp2 ;;;
  ret v.

(** *** VarTimeDoubleScalarBaseMult (lines 159-229) *)

(** Lines 185-189: [for j := i; j >= 0; j--] stops at the first [j] with
    a nonzero coefficient.  The result is the position where it stops. *)
Fixpoint find_first_nonzero (aNaf bNaf : list Z) (j : nat) : option nat :=
  if negb (digit aNaf j =? 0) || negb (digit bNaf j =? 0) then Some j
  else match j with
       | O => None
       | S j' => find_first_nonzero aNaf bNaf j'
       end.

(** Lines 204-212. *)
Definition VarTime_update (v : loc) (table : nafLookupTable5) (d : Z)
    (tmp1 : projP1xP1) : M projP1xP1 :=
  if 0 <? d then
    Point_fromP1xP1 v tmp1 ;;;
    multA <- nafLookupTable5_SelectInto table d ;;
    projP1xP1_Add v multA
  else if d <? 0 then
    Point_fromP1xP1 v tmp1 ;;;
    multA <- nafLookupTable5_SelectInto table (int8_neg d) ;;
    projP1xP1_Sub v multA
  else ret tmp1.

(** Lines 214-222. *)
Definition VarTime_updateBase (v : loc) (d : Z) (tmp1 : projP1xP1) : M projP1xP1 :=
  if 0 <? d then
    Point_fromP1xP1 v tmp1 ;;;
    multB <- nafLookupTable8_SelectInto basepointNafTable d ;;
    projP1xP1_AddAffine v multB
  else if d <? 0 then
    Point_fromP1xP1 v tmp1 ;;;
    multB <- nafLookupTable8_SelectInto basepointNafTable (int8_neg d) ;;
    projP1xP1_SubAffine v multB
  else ret tmp1.

Definition VarTimeDoubleScalarBaseMult_step (v : loc) (aTable : nafLookupTable5)
    (aNaf bNaf : list Z) (i : nat) (tmp2 : projP2) : M projP2 :=
  tmp1 <- projP1xP1_Double tmp2 ;;
  (* Only update v if we have a nonzero coeff to add in. *)
  tmp1 <- VarTime_update v aTable (digit aNaf i) tmp1 ;;
  tmp1 <- VarTime_updateBase v (digit bNaf i) tmp1 ;;
  projP2_FromP1xP1 tmp1.

Definition VarTimeDoubleScalarBaseMult (v a A b : loc) : M loc :=
  checkInitialized [A] ;;;
  aTable <- nafLookupTable5_FromP3 A ;;
  aNaf <- Scalar_nonAdjacentForm a 5 ;;
  bNaf <- Scalar_nonAdjacentForm b 8 ;;
  (* Find the first nonzero coefficient. *)
  let i := 255%nat in
  let j := find_first_nonzero aNaf bNaf i in   (* only j moves; i stays *)
  tmp2 <- projP2_Zero ;;
  tmp2 <- foldM (VarTimeDoubleScalarBaseMult_step v aTable aNaf bNaf) (downfrom i) tmp2 ;;
  Point_fromP2 v tmp2 ;;;
  ret v.

(** *** VarTimeMultiScalarMult (lines 234-286) *)

(** Lines 269-279: [for j := range nafs], reading [nafs[j]] and
    [tables[j]]. *)
Definition VarTimeMultiScalarMult_add (v : loc) (i : nat)
    (term : list Z * nafLookupTable5) (tmp1 : projP1xP1) : M projP1xP1 :=
  VarTime_update v (snd term) (digit (fst term) i) tmp1.

Definition VarTimeMultiScalarMult_step (v : loc) (tables : list nafLookupTable5)
    (nafs : list (list Z)) (i : nat) (tmp2 : projP2) : M projP2 :=
  tmp1 <- projP1xP1_Double tmp2 ;;
  tmp1 <- foldM (VarTimeMultiScalarMult_add v i) (zip nafs tables) tmp1 ;;
  projP2_FromP1xP1 tmp1.

Definition VarTimeMultiScalarMult (v : loc) (scalars points : list loc) : M loc :=
  checkLengths scalars points ;;;
  checkInitialized points ;;;
  (* Build lookup tables for each point *)
  tables <- mapM nafLookupTable5_FromP3 points ;;
  (* Compute a NAF for each scalar *)
  nafs <- mapM (fun s => Scalar_nonAdjacentForm s 5) scalars ;;
  tmp2 <- projP2_Zero ;;
  tmp2 <- foldM (VarTimeMultiScalarMult_step v tables nafs) (downfrom 255) tmp2 ;;
  Point_fromP2 v tmp2 ;;;
  ret v.
End Schedules.

(** ** What the specification assumes of the point layer *)

(** The group the points belong to, written additively. *)
Class AbelianGroup (G : Type) := {
  gadd : G -> G -> G;
  gzero : G;
  gneg : G -> G;
  gadd_assoc : forall a b c, gadd a (gadd b c) = gadd (gadd a b) c;
  gadd_comm : forall a b, gadd a b = gadd b a;
  gadd_zero_l : forall a, gadd gzero a = a;
  gadd_neg_l : forall a, gadd (gneg a) a = gzero
}.

Section GroupOperations.
Context {G : Type} `{AbelianGroup G}.

Definition gsub (a b : G) : G := gadd a (gneg b).

Fixpoint nmul (n : nat) (g : G) : G :=
  match n with
  | O => gzero
  | S k => gadd g (nmul k g)
  end.

(** The point added to itself [z] times. *)
Definition zmul (z : Z) (g : G) : G :=
  match z with
  | Z0 => gzero
  | Zpos p => nmul (Pos.to_nat p) g
  | Zneg p => gneg (nmul (Pos.to_nat p) g)
  end.

(** The iterative sum of a sequence of group elements. *)
Definition gsum (l : list G) : G := fold_right gadd gzero l.
End GroupOperations.

(** Modelled from the spec: what sections 1, 3, 4.2 to 4.4 and 6 say of
    the point layer, whose code is outside scalarmult.go.  Each coordinate
    representation denotes a group element when it is valid; a valid point
    is never the uninitialized one; the operations of the layer follow the
    group law on valid inputs; the tables hold the multiples the
    specification describes. *)
Class PointSpec (ops : PointOps) := {
  G : Type;
  G_group :: AbelianGroup G;
  generator : G;
  P3_value : Point -> option G;
  P1xP1_value : projP1xP1 -> option G;
  P2_value : projP2 -> option G;
  Cached_value : projCached -> option G;
  Affine_value : affineCached -> option G;
  valid_is_initialized : forall p g,
    P3_value p = Some g -> p3_uninitialized p = false;
  identity_value : P3_value p3_identity = Some gzero;
  p3_of_p1xp1_value : forall c g,
    P1xP1_value c = Some g -> P3_value (p3_of_p1xp1 c) = Some g;
  p3_of_p2_value : forall c g,
    P2_value c = Some g -> P3_value (p3_of_p2 c) = Some g;
  p2_zero_value : P2_value p2_zero = Some gzero;
  p2_of_p3_value : forall p g,
    P3_value p = Some g -> P2_value (p2_of_p3 p) = Some g;
  p2_of_p1xp1_value : forall c g,
    P1xP1_value c = Some g -> P2_value (p2_of_p1xp1 c) = Some g;
  p1xp1_add_value : forall p q g h,
    P3_value p = Some g -> Cached_value q = Some h ->
    P1xP1_value (p1xp1_add p q) = Some (gadd g h);
  p1xp1_sub_value : forall p q g h,
    P3_value p = Some g -> Cached_value q = Some h ->
    P1xP1_value (p1xp1_sub p q) = Some (gsub g h);
  p1xp1_add_affine_value : forall p q g h,
    P3_value p = Some g -> Affine_value q = Some h ->
    P1xP1_value (p1xp1_add_affine p q) = Some (gadd g h);
  p1xp1_sub_affine_value : forall p q g h,
    P3_value p = Some g -> Affine_value q = Some h ->
    P1xP1_value (p1xp1_sub_affine p q) = Some (gsub g h);
  p1xp1_double_value : forall p g,
    P2_value p = Some g -> P1xP1_value (p1xp1_double p) = Some (gadd g g);
  (* 4.2: the entry at |digit|, negated for a negative digit; 0 selects
     the identity *)
  proj_table_value : forall p g d,
    P3_value p = Some g -> -8 <= d <= 8 ->
    Cached_value (proj_table_select (proj_table_of_p3 p) d) = Some (zmul d g);
  (* 4.4: entry i holds the generator scaled by 16^(2i) *)
  basepoint_table_value : forall i d,
    (i < 32)%nat -> -8 <= d <= 8 ->
    Affine_value (affine_table_select (basepointTable i) d)
    = Some (zmul (d * 16 ^ (2 * Z.of_nat i)) generator);
  (* 4.3: the odd multiples 1x, 3x, ..., 15x *)
  naf5_table_value : forall p g d,
    P3_value p = Some g -> Z.odd d = true -> 0 < d < 16 ->
    Cached_value (naf5_table_select (naf5_table_of_p3 p) d) = Some (zmul d g);
  (* 4.4: the generator's odd multiples up to 2^7-1 *)
  naf8_table_value : forall d,
    Z.odd d = true -> 0 < d < 128 ->
    Affine_value (naf8_table_select basepointNafTable d) = Some (zmul d generator)
}.

(** ** A reference layer

    The group of integers with the generator 1: a point is the integer it
    stands for, [None] is a value that was never assigned, and every
    operation of the layer is strict in it. *)
Module ZLayer.
Definition lift2 (f : Z -> Z -> Z) (a b : option Z) : option Z :=
  match a, b with
  | Some x, Some y => Some (f x y)
  | _, _ => None
  end.

Definition scale (t : option Z) (d : Z) : option Z :=
  match t with
  | Some x => Some (d * x)
  | None => None
  end.

Definition unassigned (p : option Z) : bool :=
  match p with
  | Some _ => false
  | None => true
  end.

Definition ops : PointOps := {|
  Point := option Z;
  projP1xP1 := option Z;
  projP2 := option Z;
  projCached := option Z;
  affineCached := option Z;
  projLookupTable := option Z;
  affineLookupTable := option Z;
  nafLookupTable5 := option Z;
  nafLookupTable8 := option Z;
  p3_identity := Some 0;
  p3_uninitialized := unassigned;
  p3_of_p1xp1 := fun c => c;
  p3_of_p2 := fun c => c;
  p2_zero := Some 0;
  p2_of_p3 := fun p => p;
  p2_of_p1xp1 := fun c => c;
  p1xp1_add := lift2 Z.add;
  p1xp1_sub := lift2 Z.sub;
  p1xp1_add_affine := lift2 Z.add;
  p1xp1_sub_affine := lift2 Z.sub;
  p1xp1_double := fun p => lift2 Z.add p p;
  proj_table_of_p3 := fun p => p;
  proj_table_select := scale;
  affine_table_select := scale;
  naf5_table_of_p3 := fun p => p;
  naf5_table_select := scale;
  naf8_table_select := scale;
  basepointTable := fun i => Some (16 ^ (2 * Z.of_nat i));
  basepointNafTable := Some 1
|}.

(** A store with the point [p] at every location and the scalar [n] at
    location [n]; in [store_with v r p] the location [v] holds [r]
    instead. *)
Definition store (p : @Point ops) : @state ops :=
  @State ops (fun _ => p) (fun l => Z.of_nat l) [].

Definition store_with (v : loc) (r p : @Point ops) : @state ops :=
  @State ops (<[v := r]> (fun _ => p)) (fun l => Z.of_nat l) [].
End ZLayer.

(** ** Judgements about programs *)

Definition event_eq_dec (a b : event) : {a = b} + {a <> b}.
Proof. decide equality; apply Z.eq_dec. Defined.

Section Judgements.
Context {ops : PointOps}.

(** [m] runs to completion from [st], and its result and final state
    satisfy [Q]. *)
Definition wp {A} (m : M A) (st : state) (Q : A -> state -> Prop) : Prop :=
  match m st with
  | (Ok a, st') => Q a st'
  | (Panic _, _) => False
  end.

(** Every panic of [m] is one of [P]. *)
Definition panics_only {A} (P : panic -> Prop) (m : M A) : Prop :=
  forall st e st', m st = (Panic e, st') -> P e.

(** [m] never panics and emits exactly the events [T], whatever the
    store holds. *)
Definition emits {A} (T : list event) (m : M A) : Prop :=
  forall st, exists a st', m st = (Ok a, st') /\ st_trace st' = st_trace st ++ T.

(** [m] writes no scalar and no point other than the one at [v]. *)
Definition frame (v : loc) (st st' : state) : Prop :=
  st_scalars st' = st_scalars st /\
  forall l, l <> v -> st_points st' l = st_points st l.

Definition writes_only {A} (v : loc) (m : M A) : Prop :=
  forall st, frame v st (snd (m st)).

(** Two stores that hold the same scalars at [S] and the same points at
    [X], and, when [b] is set, the same point at the receiver [v]. *)
Definition similar (v : loc) (X S : list loc) (b : bool) (st1 st2 : state) : Prop :=
  (forall l, In l S -> st_scalars st1 l = st_scalars st2 l) /\
  (forall l, In l X -> st_points st1 l = st_points st2 l) /\
  (b = true -> st_points st1 v = st_points st2 v).

(** Run from similar stores, [m] ends the same way, with the same result
    and similar stores. *)
Definition same_run {A} (v : loc) (X S : list loc) (b b' : bool) (m : M A) : Prop :=
  forall st1 st2, similar v X S b st1 st2 ->
    match m st1, m st2 with
    | (Ok a1, st1'), (Ok a2, st2') => a1 = a2 /\ similar v X S b' st1' st2'
    | (Panic e1, _), (Panic e2, _) => e1 = e2
    | _, _ => False
    end.

(** Two calls on the receiver [v] ended the same way and, when they
    returned, returned the same pointer and left the same point in the
    receiver. *)
Definition same_result (v : loc) (r1 r2 : outcome loc * state) : Prop :=
  match r1, r2 with
  | (Ok v1, st1), (Ok v2, st2) => v1 = v2 /\ st_points st1 v = st_points st2 v
  | (Panic e1, _), (Panic e2, _) => e1 = e2
  | _, _ => False
  end.

(** *** The schedules of the constant-time operations *)

Definition quadruple : list event :=
  [EvDouble; EvP2FromP1xP1; EvDouble; EvP2FromP1xP1;
   EvDouble; EvP2FromP1xP1; EvDouble].

Definition ScalarBaseMult_schedule : list event :=
  [EvSignedRadix16; EvSet]
  ++ concat (replicate 32 [EvSelectConstantTime; EvAddAffine; EvP3FromP1xP1])
  ++ [EvP2FromP3] ++ quadruple ++ [EvP3FromP1xP1]
  ++ concat (replicate 32 [EvSelectConstantTime; EvAddAffine; EvP3FromP1xP1]).

Definition ScalarMult_schedule : list event :=
  [EvTableFromP3; EvSignedRadix16; EvSelectConstantTime; EvSet; EvAdd]
  ++ concat (replicate 63
       ([EvP2FromP1xP1] ++ quadruple
        ++ [EvP3FromP1xP1; EvSelectConstantTime; EvAdd]))
  ++ [EvP3FromP1xP1].

Definition MultiScalarMult_adds (n : nat) : list event :=
  concat (replicate n [EvSelectConstantTime; EvAdd; EvP3FromP1xP1]).

Definition MultiScalarMult_schedule (n : nat) : list event :=
  replicate n EvTableFromP3 ++ replicate n EvSignedRadix16
  ++ MultiScalarMult_adds n ++ [EvP2FromP3]
  ++ concat (replicate 63
       (quadruple ++ [EvP3FromP1xP1] ++ MultiScalarMult_adds n ++ [EvP2FromP3])).

(** Events that show nothing of a scalar. *)
Definition scalar_independent (e : event) : bool :=
  match e with
  | EvSelectVariableTime _ | EvNonAdjacentForm _ _ => false
  | _ => true
  end.

Definition is_double (e : event) : bool :=
  match e with
  | EvDouble => true
  | _ => false
  end.

(** The number of point doublings in a trace. *)
Definition doublings (t : list event) : nat :=
  length (List.filter is_double t).

(** [m] never panics and performs exactly [n] point doublings. *)
Definition doubles {A} (n : nat) (m : M A) : Prop :=
  forall st, exists a st' T,
    m st = (Ok a, st') /\ st_trace st' = st_trace st ++ T /\ doublings T = n.

(** The events a call emitted. *)
Definition emitted {A} (st : state) (r : outcome A * state) : list event :=
  drop (length (st_trace st)) (st_trace (snd r)).
End Judgements.

(** ** Auxiliary definitions of the proofs *)

(** [n-1, ..., 0]: the positions a descending loop has left to visit. *)
Fixpoint below (n : nat) : list nat :=
  match n with
  | O => []
  | S k => k :: below k
  end.

(** The sum of [f k] for [k] from [a] to [a+n-1]. *)
Definition sum_over (f : nat -> Z) (a n : nat) : Z :=
  fold_right Z.add 0 (map f (seq a n)).

Section Denotation.
Context {ops : PointOps} {spec : PointSpec ops}.

(** The location [l] holds a valid representation of [g]. *)
Definition holds (st : state) (l : loc) (g : G) : Prop :=
  P3_value (st_points st l) = Some g.

(** The call returned its receiver [v], which now holds [g]. *)
Definition computes (r : outcome loc * state) (v : loc) (g : G) : Prop :=
  match r with
  | (Ok v', st') => v' = v /\ holds st' v g
  | (Panic _, _) => False
  end.

(** A term of a multi-scalar call: a reduced scalar, and a point with
    the group element it stands for. *)
Definition term_valid (t : Z * (Point * G)) : Prop :=
  valid_scalar (fst t) /\ P3_value (fst (snd t)) = Some (snd (snd t)).

(** The table and the digits the schedules build for a term. *)
Definition radix16_table (t : Z * (Point * G)) : projLookupTable * list Z :=
  (proj_table_of_p3 (fst (snd t)), signedRadix16 (fst t)).

Definition naf_table (t : Z * (Point * G)) : list Z * nafLookupTable5 :=
  (nonAdjacentForm (fst t) 5, naf5_table_of_p3 (fst (snd t))).

(** The sum of the multiples [x_i * g_i]. *)
Definition linear_combination (xs : list Z) (gs : list G) : G :=
  gsum (zip_with zmul xs gs).
End Denotation.

(** ** Judgements and schedules of the further properties *)

Section FurtherJudgements.
Context {ops : PointOps}.

(** [m] never panics, and what it returns satisfies [Q]. *)
Definition returns {A} (Q : A -> Prop) (m : M A) : Prop :=
  forall st, exists a st', m st = (Ok a, st') /\ Q a.

(** What lines 204-212 emit for the digit [d]: nothing for a zero digit,
    otherwise the receiver is written, the table is indexed by the
    digit's magnitude and the entry is added or subtracted. *)
Definition VarTime_update_events (d : Z) : list event :=
  if 0 <? d then [EvP3FromP1xP1; EvSelectVariableTime d; EvAdd]
  else if d <? 0 then [EvP3FromP1xP1; EvSelectVariableTime (int8_neg d); EvSub]
  else [].

(** The same for lines 214-222. *)
Definition VarTime_updateBase_events (d : Z) : list event :=
  if 0 <? d then [EvP3FromP1xP1; EvSelectVariableTime d; EvAddAffine]
  else if d <? 0 then [EvP3FromP1xP1; EvSelectVariableTime (int8_neg d); EvSubAffine]
  else [].

(** One iteration of the loop of lines 200-225 at position [i]. *)
Definition VarTimeDoubleScalarBaseMult_step_events (aNaf bNaf : list Z) (i : nat)
    : list event :=
  [EvDouble] ++ VarTime_update_events (digit aNaf i)
  ++ VarTime_updateBase_events (digit bNaf i) ++ [EvP2FromP1xP1].

(** The events of a call of [VarTimeDoubleScalarBaseMult] on the scalars
    [a] and [b]. *)
Definition VarTimeDoubleScalarBaseMult_schedule (a b : Z) : list event :=
  [EvNafTableFromP3; EvNonAdjacentForm 5 a; EvNonAdjacentForm 8 b; EvP2Zero]
  ++ concat (map (VarTimeDoubleScalarBaseMult_step_events
                    (nonAdjacentForm a 5) (nonAdjacentForm b 8))
                 (downfrom 255))
  ++ [EvP3FromP2].

(** One iteration of the loop of lines 266-282 at position [i]. *)
Definition VarTimeMultiScalarMult_step_events (nafs : list (list Z)) (i : nat)
    : list event :=
  [EvDouble] ++ concat (map (fun naf => VarTime_update_events (digit naf i)) nafs)
  ++ [EvP2FromP1xP1].

(** The events of a call of [VarTimeMultiScalarMult] on the scalars [xs]. *)
Definition VarTimeMultiScalarMult_schedule (xs : list Z) : list event :=
  replicate (length xs) EvNafTableFromP3 ++ map (EvNonAdjacentForm 5) xs ++ [EvP2Zero]
  ++ concat (map (VarTimeMultiScalarMult_step_events
                    (map (fun x => nonAdjacentForm x 5) xs))
                 (downfrom 255))
  ++ [EvP3FromP2].

Definition is_addition (e : event) : bool :=
  match e with
  | EvAdd | EvSub | EvAddAffine | EvSubAffine => true
  | _ => false
  end.

(** The number of point additions and subtractions in a trace. *)
Definition additions (t : list event) : nat :=
  length (List.filter is_addition t).

(** The index of a variable-time table lookup is odd and below [bound]. *)
Definition lookup_in_range (bound : Z) (e : event) : Prop :=
  match e with
  | EvSelectVariableTime d => Z.odd d = true /\ 0 < d < bound
  | _ => True
  end.
End FurtherJudgements.

(** The number of nonzero digits. *)
Definition nonzero_digits (ds : list Z) : nat :=
  length (List.filter (fun d => negb (d =? 0)) ds).

(** * Properties of the signed digits *)

Lemma eval_digits_cons base d ds :
  eval_digits base (d :: ds) = d + base * eval_digits base ds.
Proof. reflexivity. Qed.

Lemma base16_window_eval x a n :
  0 <= x ->
  eval_digits 16 (map (fun i => (x / 16 ^ Z.of_nat i) mod 16) (seq a n))
  = (x / 16 ^ Z.of_nat a) mod 16 ^ Z.of_nat n.
Proof.
  intros Hx. revert a. induction n as [|n IH]; intros a.
  - simpl. now rewrite Z.mod_1_r.
  - cbn [seq map]. rewrite eval_digits_cons, IH.
    replace (Z.of_nat (S a)) with (Z.of_nat a + 1) by lia.
    replace (Z.of_nat (S n)) with (1 + Z.of_nat n) by lia.
    rewrite !Z.pow_add_r, Z.pow_1_r by lia.
    rewrite <- Z.div_div by lia.
    set (y := x / 16 ^ Z.of_nat a).
    assert (0 < 16 ^ Z.of_nat n) by (apply Z.pow_pos_nonneg; lia).
    rewrite (Z.rem_mul_r y 16 (16 ^ Z.of_nat n)) by lia.
    reflexivity.
Qed.

Lemma base16_digits_eval x :
  0 <= x < 2 ^ 256 -> eval_digits 16 (base16_digits x) = x.
Proof.
  intros Hx. unfold base16_digits. rewrite base16_window_eval by lia.
  change (16 ^ Z.of_nat 0) with 1. rewrite Z.div_1_r.
  apply Z.mod_small. change (16 ^ Z.of_nat 64) with (2 ^ 256). lia.
Qed.

Lemma recenter_step c d d' rest :
  recenter c (d :: d' :: rest)
  = if 8 <? d + c
    then (d + c - 16) :: recenter 1 (d' :: rest)
    else (d + c) :: recenter 0 (d' :: rest).
Proof. reflexivity. Qed.

Lemma recenter_length c ds : length (recenter c ds) = length ds.
Proof.
  revert c. induction ds as [|d [|d' rest] IH]; intros c; try reflexivity.
  rewrite recenter_step. destruct (8 <? d + c); cbn [length]; f_equal; apply IH.
Qed.

Lemma recenter_eval c ds :
  ds <> [] -> eval_digits 16 (recenter c ds) = c + eval_digits 16 ds.
Proof.
  revert c. induction ds as [|d [|d' rest] IH]; intros c Hne.
  - congruence.
  - cbn. lia.
  - rewrite recenter_step. destruct (8 <? d + c);
      rewrite !eval_digits_cons, IH by discriminate;
      rewrite !eval_digits_cons; lia.
Qed.

Lemma recenter_range c ds :
  0 <= c <= 1 ->
  Forall (fun d => 0 <= d <= 15) ds ->
  List.last ds 0 <= 7 ->
  Forall (fun d => -8 <= d <= 8) (recenter c ds).
Proof.
  revert c. induction ds as [|d [|d' rest] IH]; intros c Hc Hds Hlast.
  - constructor.
  - cbn in *. inversion Hds; subst. repeat constructor; lia.
  - rewrite recenter_step. inversion Hds as [|? ? Hd Hrest]; subst.
    destruct (8 <? d + c) eqn:E.
    + apply Z.ltb_lt in E. constructor; [lia|]. apply IH; [lia|assumption|exact Hlast].
    + apply Z.ltb_ge in E. constructor; [lia|]. apply IH; [lia|assumption|exact Hlast].
Qed.

Lemma base16_digits_range x :
  Forall (fun d => 0 <= d <= 15) (base16_digits x).
Proof.
  unfold base16_digits. apply List.Forall_forall. intros d Hd.
  apply in_map_iff in Hd as (i & <- & _).
  pose proof (Z.mod_pos_bound (x / 16 ^ Z.of_nat i) 16). lia.
Qed.

Lemma base16_digits_last x :
  0 <= x < 2 ^ 255 -> List.last (base16_digits x) 0 <= 7.
Proof.
  intros Hx. unfold base16_digits.
  change (seq 0 64) with (seq 0 63 ++ [63%nat]).
  rewrite map_app. cbn [map]. rewrite last_last.
  change (16 ^ Z.of_nat 63) with (2 ^ 252).
  assert (0 <= x / 2 ^ 252 < 8).
  { split; [apply Z.div_pos; lia|]. apply Z.div_lt_upper_bound; lia. }
  rewrite Z.mod_small; lia.
Qed.

Lemma l_order_lt : l_order < 2 ^ 253.
Proof. reflexivity. Qed.

Lemma signedRadix16_length x : length (signedRadix16 x) = 64%nat.
Proof. unfold signedRadix16. now rewrite recenter_length. Qed.

Lemma signedRadix16_range x :
  valid_scalar x -> Forall (fun d => -8 <= d <= 8) (signedRadix16 x).
Proof.
  intros [H0 Hl]. pose proof l_order_lt.
  apply recenter_range; [lia|apply base16_digits_range|].
  apply base16_digits_last. lia.
Qed.

Lemma signedRadix16_eval x :
  valid_scalar x -> eval_digits 16 (signedRadix16 x) = x.
Proof.
  intros [H0 Hl]. pose proof l_order_lt. unfold signedRadix16.
  rewrite recenter_eval by discriminate.
  rewrite base16_digits_eval; lia.
Qed.

Lemma naf_scan_length w n k : length (naf_scan w n k) = n.
Proof.
  revert k. induction n as [|n IH]; intros k; [reflexivity|].
  cbn [naf_scan]. destruct (Z.odd k); cbn [length]; now rewrite IH.
Qed.

Lemma pow2_split w : 2 <= w -> 2 ^ w = 2 * 2 ^ (w - 1) /\ 2 ^ (w - 1) = 2 * 2 ^ (w - 2) /\ 0 < 2 ^ (w - 2).
Proof.
  intros Hw. split; [|split].
  - replace w with (1 + (w - 1)) at 1 by lia. rewrite Z.pow_add_r by lia. reflexivity.
  - replace (w - 1) with (1 + (w - 2)) at 1 by lia. rewrite Z.pow_add_r by lia. reflexivity.
  - apply Z.pow_pos_nonneg; lia.
Qed.

Lemma odd_decompose k : Z.odd k = true -> exists q, k = 2 * q + 1.
Proof.
  intros H. exists (k / 2). pose proof (Zdiv2_odd_eqn k) as E.
  rewrite H in E. rewrite Z.div2_div in E. lia.
Qed.

Lemma centered_residue_spec w k :
  2 <= w -> Z.odd k = true ->
  let d := centered_residue w k in
  Z.odd d = true /\ - 2 ^ (w - 1) < d < 2 ^ (w - 1) /\ (k - d) mod 2 ^ w = 0.
Proof.
  intros Hw Hk. unfold centered_residue.
  destruct (pow2_split w Hw) as (E1 & E2 & Hpos).
  set (P := 2 ^ (w - 2)) in *.
  pose proof (Z.mod_pos_bound k (2 ^ w) ltac:(lia)) as Hr.
  pose proof (Z.div_mod k (2 ^ w) ltac:(lia)) as Hdm.
  set (r := k mod 2 ^ w) in *. set (q := k / 2 ^ w) in *.
  assert (Hrodd : Z.odd r = true).
  { replace r with (k + 2 * (- (2 * P * q))) by lia.
    rewrite Z.odd_add_mul_2. exact Hk. }
  destruct (odd_decompose r Hrodd) as [t Ht].
  destruct (2 ^ (w - 1) <=? r) eqn:E; cbn zeta.
  - apply Z.leb_le in E. repeat split.
    + replace (r - 2 ^ w) with (r + 2 * (- (2 * P))) by lia.
      now rewrite Z.odd_add_mul_2.
    + lia.
    + lia.
    + replace (k - (r - 2 ^ w)) with ((q + 1) * 2 ^ w) by lia.
      apply Z.mod_mul. lia.
  - apply Z.leb_gt in E. repeat split; try lia; try assumption.
    replace (k - r) with (q * 2 ^ w) by lia. apply Z.mod_mul. lia.
Qed.

Lemma naf_scan_digits w n k :
  2 <= w ->
  Forall (fun d => d = 0 \/ (Z.odd d = true /\ - 2 ^ (w - 1) < d < 2 ^ (w - 1)))
         (naf_scan w n k).
Proof.
  intros Hw. revert k. induction n as [|n IH]; intros k; [constructor|].
  cbn [naf_scan]. destruct (Z.odd k) eqn:E.
  - constructor; [|apply IH]. right.
    destruct (centered_residue_spec w k Hw E) as (? & ? & _). split; assumption.
  - constructor; [now left|apply IH].
Qed.

Lemma naf_step_bound w (m : nat) k :
  2 <= w -> Z.odd k = true -> 0 <= k <= 2 ^ Z.of_nat (S m) ->
  let d := centered_residue w k in
  0 <= (k - d) / 2 <= 2 ^ Z.of_nat m /\ k = d + 2 * ((k - d) / 2).
Proof.
  intros Hw Hk Hb.
  destruct (centered_residue_spec w k Hw Hk) as (Hd & Hrange & Hdiv).
  destruct (pow2_split w Hw) as (E1 & E2 & Hpos).
  cbn zeta. set (d := centered_residue w k) in *.
  apply Z.mod_divide in Hdiv; [|lia]. destruct Hdiv as [c Hc].
  assert (Hhalf : (k - d) / 2 = c * 2 ^ (w - 1)).
  { rewrite Hc, E1. replace (c * (2 * 2 ^ (w - 1))) with (c * 2 ^ (w - 1) * 2) by lia.
    apply Z.div_mul. lia. }
  rewrite Hhalf. split; [|lia].
  replace (Z.of_nat (S m)) with (1 + Z.of_nat m) in Hb by lia.
  rewrite Z.pow_add_r, Z.pow_1_r in Hb by lia.
  assert (Hm : 0 < 2 ^ Z.of_nat m) by (apply Z.pow_pos_nonneg; lia).
  destruct (Z_le_gt_dec (w - 1) (Z.of_nat m)) as [Hle|Hgt].
  - (* the window fits below the bound: 2^m is a multiple of 2^(w-1) *)
    assert (HQ : 2 ^ Z.of_nat m = 2 ^ (w - 1) * 2 ^ (Z.of_nat m - (w - 1))).
    { rewrite <- Z.pow_add_r by lia. f_equal. lia. }
    assert (0 < 2 ^ (Z.of_nat m - (w - 1))) by (apply Z.pow_pos_nonneg; lia).
    set (Q := 2 ^ (Z.of_nat m - (w - 1))) in *.
    set (P := 2 ^ (w - 1)) in *.
    assert (0 < P) by lia.
    assert (0 <= c) by nia.
    assert (c <= Q) by nia.
    nia.
  - (* the bound is below half a window: the residue is the value itself *)
    assert (Hlt : 2 * 2 ^ Z.of_nat m <= 2 ^ (w - 1)).
    { replace (2 * 2 ^ Z.of_nat m) with (2 ^ (1 + Z.of_nat m))
        by (rewrite Z.pow_add_r by lia; reflexivity).
      apply Z.pow_le_mono_r; lia. }
    set (P := 2 ^ (w - 1)) in *.
    assert (c = 0) by nia.
    subst c. lia.
Qed.

Lemma naf_scan_zero w n : eval_digits 2 (naf_scan w n 0) = 0.
Proof.
  induction n as [|n IH]; [reflexivity|].
  cbn [naf_scan]. change (Z.odd 0) with false. cbn iota.
  change (0 / 2) with 0. rewrite eval_digits_cons, IH. reflexivity.
Qed.

Lemma naf_scan_eval w (n m : nat) k :
  2 <= w -> 0 <= k <= 2 ^ Z.of_nat m -> (m + 1 <= n)%nat ->
  eval_digits 2 (naf_scan w n k) = k.
Proof.
  intros Hw. revert m k. induction n as [|n IH]; intros m k Hk Hn; [lia|].
  cbn [naf_scan]. destruct (Z.odd k) eqn:E.
  - rewrite eval_digits_cons.
    destruct m as [|m].
    + change (2 ^ Z.of_nat 0) with 1 in Hk.
      assert (k = 1) by (destruct (Z.eq_dec k 0); [subst; discriminate|lia]). subst k.
      assert (Hd : centered_residue w 1 = 1).
      { unfold centered_residue. destruct (pow2_split w Hw) as (E1 & E2 & Hpos).
        rewrite Z.mod_small by lia.
        destruct (2 ^ (w - 1) <=? 1) eqn:L; [apply Z.leb_le in L; lia|reflexivity]. }
      rewrite Hd. change ((1 - 1) / 2) with 0.
      rewrite naf_scan_zero. lia.
    + destruct (naf_step_bound w m k Hw E Hk) as [Hb He].
      rewrite (IH m) by (assumption || lia). cbn zeta in He. lia.
  - rewrite eval_digits_cons.
    assert (Hev : k = 2 * (k / 2)).
    { pose proof (Zdiv2_odd_eqn k) as Q. rewrite E, Z.div2_div in Q. lia. }
    destruct m as [|m].
    + change (2 ^ Z.of_nat 0) with 1 in Hk.
      assert (k = 0) by lia. subst k. change (0 / 2) with 0.
      rewrite naf_scan_zero. reflexivity.
    + rewrite (IH m); [lia| |lia].
      replace (Z.of_nat (S m)) with (1 + Z.of_nat m) in Hk by lia.
      rewrite Z.pow_add_r, Z.pow_1_r in Hk by lia. lia.
Qed.

Lemma nonAdjacentForm_length x w : length (nonAdjacentForm x w) = 256%nat.
Proof. apply naf_scan_length. Qed.

Lemma nonAdjacentForm_eval x w :
  2 <= w -> valid_scalar x -> eval_digits 2 (nonAdjacentForm x w) = x.
Proof.
  intros Hw [H0 Hl]. pose proof l_order_lt.
  apply (naf_scan_eval w 256 253); [assumption| |lia].
  change (2 ^ Z.of_nat 253) with (2 ^ 253). lia.
Qed.

Lemma nonAdjacentForm_digits x w :
  2 <= w ->
  Forall (fun d => d = 0 \/ (Z.odd d = true /\ - 2 ^ (w - 1) < d < 2 ^ (w - 1)))
         (nonAdjacentForm x w).
Proof. intros Hw. now apply naf_scan_digits. Qed.

(** * Multiples in an abelian group *)

Section GroupFacts.
Context {G : Type} `{AbelianGroup G}.

Lemma gadd_zero_r a : gadd a gzero = a.
Proof. rewrite gadd_comm. apply gadd_zero_l. Qed.

Lemma gadd_neg_r a : gadd a (gneg a) = gzero.
Proof. rewrite gadd_comm. apply gadd_neg_l. Qed.

Lemma gadd_cancel_l a b c : gadd a b = gadd a c -> b = c.
Proof.
  intros E. apply (f_equal (gadd (gneg a))) in E.
  now rewrite !gadd_assoc, gadd_neg_l, !gadd_zero_l in E.
Qed.

Lemma gneg_zero : gneg gzero = gzero.
Proof. apply (gadd_cancel_l gzero). now rewrite gadd_neg_r, gadd_zero_l. Qed.

Lemma gneg_add a b : gneg (gadd a b) = gadd (gneg a) (gneg b).
Proof.
  apply (gadd_cancel_l (gadd a b)). rewrite gadd_neg_r.
  rewrite (gadd_comm (gneg a)), gadd_assoc, <- (gadd_assoc a b), gadd_neg_r.
  now rewrite gadd_zero_r, gadd_neg_r.
Qed.

Lemma gneg_involutive a : gneg (gneg a) = a.
Proof. apply (gadd_cancel_l (gneg a)). now rewrite gadd_neg_r, gadd_neg_l. Qed.

Lemma zmul_of_nat n g : zmul (Z.of_nat n) g = nmul n g.
Proof.
  destruct n as [|n]; [reflexivity|].
  change (zmul (Z.of_nat (S n)) g) with (nmul (Pos.to_nat (Pos.of_succ_nat n)) g).
  now rewrite SuccNat2Pos.id_succ.
Qed.

Lemma zmul_opp z g : zmul (- z) g = gneg (zmul z g).
Proof.
  destruct z; cbn [Z.opp zmul].
  - now rewrite gneg_zero.
  - reflexivity.
  - now rewrite gneg_involutive.
Qed.

Lemma zmul_0 g : zmul 0 g = gzero.
Proof. reflexivity. Qed.

Lemma zmul_1 g : zmul 1 g = g.
Proof. cbn. apply gadd_zero_r. Qed.

Lemma zmul_succ z g : zmul (z + 1) g = gadd g (zmul z g).
Proof.
  destruct (Z_le_gt_dec 0 z) as [Hz|Hz].
  - rewrite <- (Z2Nat.id z Hz).
    replace (Z.of_nat (Z.to_nat z) + 1) with (Z.of_nat (S (Z.to_nat z))) by lia.
    now rewrite !zmul_of_nat.
  - replace z with (- Z.of_nat (S (Z.to_nat (- z - 1)))) at 2 by lia.
    replace (z + 1) with (- Z.of_nat (Z.to_nat (- z - 1))) by lia.
    rewrite !zmul_opp, !zmul_of_nat. cbn [nmul].
    rewrite gneg_add, gadd_assoc, gadd_neg_r. now rewrite gadd_zero_l.
Qed.

Lemma zmul_pred z g : zmul (z - 1) g = gadd (gneg g) (zmul z g).
Proof.
  replace z with ((z - 1) + 1) at 2 by lia.
  rewrite zmul_succ, gadd_assoc, gadd_neg_l. now rewrite gadd_zero_l.
Qed.

Lemma zmul_add a b g : zmul (a + b) g = gadd (zmul a g) (zmul b g).
Proof.
  induction a as [|a IH|a IH] using Z.peano_ind.
  - now rewrite Z.add_0_l, zmul_0, gadd_zero_l.
  - replace (Z.succ a + b) with ((a + b) + 1) by lia.
    replace (Z.succ a) with (a + 1) by lia.
    now rewrite !zmul_succ, IH, gadd_assoc.
  - replace (Z.pred a + b) with ((a + b) - 1) by lia.
    replace (Z.pred a) with (a - 1) by lia.
    now rewrite !zmul_pred, IH, gadd_assoc.
Qed.

Lemma zmul_zero z : zmul z gzero = gzero.
Proof.
  induction z as [|z IH|z IH] using Z.peano_ind.
  - reflexivity.
  - replace (Z.succ z) with (z + 1) by lia. now rewrite zmul_succ, IH, gadd_zero_l.
  - replace (Z.pred z) with (z - 1) by lia.
    now rewrite zmul_pred, IH, gadd_zero_r, gneg_zero.
Qed.

Lemma zmul_gadd z a b : zmul z (gadd a b) = gadd (zmul z a) (zmul z b).
Proof.
  induction z as [|z IH|z IH] using Z.peano_ind.
  - cbn. now rewrite gadd_zero_l.
  - replace (Z.succ z) with (z + 1) by lia. rewrite !zmul_succ, IH.
    rewrite !gadd_assoc. f_equal.
    rewrite <- !gadd_assoc. f_equal. apply gadd_comm.
  - replace (Z.pred z) with (z - 1) by lia. rewrite !zmul_pred, IH, gneg_add.
    rewrite !gadd_assoc. f_equal.
    rewrite <- !gadd_assoc. f_equal. apply gadd_comm.
Qed.

Lemma zmul_mul a b g : zmul (a * b) g = zmul a (zmul b g).
Proof.
  induction a as [|a IH|a IH] using Z.peano_ind.
  - reflexivity.
  - replace (Z.succ a * b) with (b + a * b) by lia.
    replace (Z.succ a) with (a + 1) by lia.
    now rewrite zmul_add, zmul_succ, IH.
  - replace (Z.pred a * b) with (- b + a * b) by lia.
    replace (Z.pred a) with (a - 1) by lia.
    now rewrite zmul_add, zmul_pred, IH, zmul_opp.
Qed.

Lemma zmul_double z g : gadd (zmul z g) (zmul z g) = zmul (2 * z) g.
Proof. replace (2 * z) with (z + z) by lia. now rewrite zmul_add. Qed.

Lemma zmul_2 g : zmul 2 g = gadd g g.
Proof. change 2 with (2 * 1). now rewrite <- zmul_double, zmul_1. Qed.

Lemma gadd_cancel_r a b : gadd a b = b -> a = gzero.
Proof.
  intros E. apply (f_equal (fun x => gadd x (gneg b))) in E.
  now rewrite <- gadd_assoc, gadd_neg_r, gadd_zero_r in E.
Qed.

(** [16^63] is a unit modulo the group order: a point of the prime-order
    subgroup that [16^63] annihilates is the identity. *)
Lemma multiple_of_prime_order_point g :
  zmul l_order g = gzero -> zmul (16 ^ 63) g = gzero -> g = gzero.
Proof.
  intros Hl H16.
  assert (E :
    6203006279241440900585036009640901810601043032594483651438405048650341048043
      * 16 ^ 63
    + - 6203006279241440900585036009640901810577264444954208928859195223611006025243
      * l_order = 1) by reflexivity.
  rewrite <- (zmul_1 g), <- E, zmul_add, !zmul_mul, Hl, H16, !zmul_zero.
  apply gadd_zero_l.
Qed.
End GroupFacts.

(** * Reasoning about programs *)

Section MonadFacts.
Context {ops : PointOps}.
Local Open Scope prog_scope.

Lemma wp_ret {A} (a : A) st (Q : A -> state -> Prop) :
  Q a st -> wp (ret a) st Q.
Proof. intros HQ. exact HQ. Qed.

Lemma wp_bind {A B} (m : M A) (k : A -> M B) st (Q : B -> state -> Prop) :
  wp m st (fun a st' => wp (k a) st' Q) -> wp (bind m k) st Q.
Proof.
  unfold wp, bind. destruct (m st) as [[a|e] st']; intros Hm; exact Hm.
Qed.

Lemma wp_mono {A} (m : M A) st (Q Q' : A -> state -> Prop) :
  wp m st Q -> (forall a st', Q a st' -> Q' a st') -> wp m st Q'.
Proof.
  unfold wp. destruct (m st) as [[a|e] st']; intros Hm HQ; [auto|contradiction].
Qed.

Lemma wp_of_run {A} (m : M A) st a st' (Q : A -> state -> Prop) :
  m st = (Ok a, st') -> Q a st' -> wp m st Q.
Proof. unfold wp. intros ->. auto. Qed.

Lemma bind_run {A B} (m : M A) (k : A -> M B) st a st' :
  m st = (Ok a, st') -> bind m k st = k a st'.
Proof. unfold bind. intros ->. reflexivity. Qed.

Lemma bind_panic {A B} (m : M A) (k : A -> M B) st e st' :
  m st = (Panic e, st') -> bind m k st = (Panic e, st').
Proof. unfold bind. intros ->. reflexivity. Qed.

Lemma downfrom_below i : downfrom i = below (S i).
Proof. induction i as [|i IH]; [reflexivity|]. cbn [downfrom below] in *. now rewrite IH. Qed.

Lemma range_by_odd : range_by 1 64 2 = map (fun k => 2 * k + 1)%nat (seq 0 32).
Proof. reflexivity. Qed.

Lemma range_by_even : range_by 0 64 2 = map (fun k => 2 * k)%nat (seq 0 32).
Proof. reflexivity. Qed.

(** *** The initial checks *)

Lemma checkInitialized_ok points st :
  Forall (fun p => p3_uninitialized (st_points st p) = false) points ->
  checkInitialized points st = (Ok tt, st).
Proof.
  induction 1 as [|p rest Hp _ IH]; [reflexivity|].
  cbn [checkInitialized]. unfold bind, loadPoint. now rewrite Hp.
Qed.

Lemma checkInitialized_panic points st :
  Exists (fun p => p3_uninitialized (st_points st p) = true) points ->
  checkInitialized points st = (Panic UninitializedPoint, st).
Proof.
  induction points as [|p rest IH]; intros Hex; [inversion Hex|].
  cbn [checkInitialized]. unfold bind, loadPoint.
  destruct (p3_uninitialized (st_points st p)) eqn:Hp; [reflexivity|].
  apply IH. inversion Hex as [? ? Hq|? ? Hq]; subst; [congruence|assumption].
Qed.

Lemma checkLengths_ok scalars points st :
  length scalars = length points -> checkLengths scalars points st = (Ok tt, st).
Proof.
  intros E. unfold checkLengths. rewrite E, Nat.eqb_refl. reflexivity.
Qed.

Lemma checkLengths_panic scalars points st :
  length scalars <> length points ->
  checkLengths scalars points st = (Panic LengthMismatch, st).
Proof.
  intros E. unfold checkLengths. apply Nat.eqb_neq in E. now rewrite E.
Qed.
End MonadFacts.

(** * Correctness of the schedules *)

Section DigitAccess.
Lemma digit_drop ds i :
  (i < length ds)%nat -> drop i ds = digit ds i :: drop (S i) ds.
Proof.
  revert i. induction ds as [|d ds IH]; intros i Hi; cbn [length] in Hi; [lia|].
  destruct i as [|i]; [reflexivity|]. cbn [drop]. rewrite IH by lia. reflexivity.
Qed.

Lemma digit_Forall (P : Z -> Prop) ds i :
  Forall P ds -> P 0 -> P (digit ds i).
Proof.
  intros Hds H0. unfold digit. revert i.
  induction Hds as [|d ds Hd _ IH]; intros [|i]; cbn [nth]; auto.
Qed.

Lemma eval_digits_drop base ds i :
  (i < length ds)%nat ->
  eval_digits base (drop i ds) = digit ds i + base * eval_digits base (drop (S i) ds).
Proof. intros Hi. now rewrite (digit_drop ds i Hi). Qed.

Lemma eval_digits_drop_all base (ds : list Z) i :
  (length ds <= i)%nat -> eval_digits base (drop i ds) = 0.
Proof. intros Hi. now rewrite drop_ge. Qed.
End DigitAccess.

Section Values.
Context {ops : PointOps} {spec : PointSpec ops}.

Lemma value_eq {A} (x : option A) (g t : A) : x = Some g -> g = t -> x = Some t.
Proof. intros -> ->. reflexivity. Qed.

Lemma computes_wp (m : M loc) st v (g : G) :
  wp m st (fun v' st' => v' = v /\ holds st' v g) -> computes (m st) v g.
Proof. unfold wp, computes. destruct (m st) as [[a|e] st']; auto. Qed.

Lemma computes_unique (r : outcome loc * state) v (g g' : G) :
  computes r v g -> computes r v g' -> g = g'.
Proof.
  unfold computes, holds. destruct r as [[a|e] st']; [|contradiction].
  intros [_ H1] [_ H2]. congruence.
Qed.

(** Four doublings multiply by 16. *)
Lemma quadruple_value (a : G) :
  let d1 := gadd a a in
  let d2 := gadd d1 d1 in
  let d3 := gadd d2 d2 in
  gadd d3 d3 = zmul 16 a.
Proof.
  cbn zeta. rewrite <- (zmul_1 a) at 1 2 3 4 5 6 7 8 9 10 11 12 13 14 15 16.
  rewrite !zmul_double. reflexivity.
Qed.
End Values.

(** Derives the group element a layer expression denotes from the laws of
    the layer, leaving the side conditions on digits. *)
Ltac layer_value :=
  repeat first
    [ eassumption
    | rewrite fn_lookup_insert
    | eapply p1xp1_add_value
    | eapply p1xp1_sub_value
    | eapply p1xp1_add_affine_value
    | eapply p1xp1_sub_affine_value
    | eapply p1xp1_double_value
    | eapply p2_of_p1xp1_value
    | eapply p2_of_p3_value
    | eapply p3_of_p1xp1_value
    | eapply p3_of_p2_value
    | eapply identity_value
    | eapply p2_zero_value ].

(** Runs the next call into the layer. *)
Ltac run_layer :=
  cbn [bind ret tick throw loadPoint storePoint loadScalar
       Scalar_signedRadix16 Scalar_nonAdjacentForm NewIdentityPoint
       Point_Set Point_fromP1xP1 Point_fromP2
       projP2_Zero projP2_FromP3 projP2_FromP1xP1
       projP1xP1_Add projP1xP1_Sub projP1xP1_AddAffine projP1xP1_SubAffine
       projP1xP1_Double
       projLookupTable_FromP3 projLookupTable_SelectInto
       affineLookupTable_SelectInto
       nafLookupTable5_FromP3 nafLookupTable5_SelectInto
       nafLookupTable8_SelectInto
       st_points st_scalars st_trace].

Ltac wp_step := apply wp_bind; unfold wp at 1; run_layer.
Ltac wp_block := unfold wp at 1; run_layer.

Section ScalarMultCorrect.
Context {ops : PointOps} {spec : PointSpec ops}.
Local Open Scope prog_scope.
Local Opaque nonAdjacentForm signedRadix16.

Lemma ScalarMult_loop_value v (p : Point) (g : G) ds :
  P3_value p = Some g ->
  Forall (fun d => -8 <= d <= 8) ds ->
  forall n tmp1 st,
    (n <= length ds)%nat ->
    P1xP1_value tmp1 = Some (zmul (eval_digits 16 (drop n ds)) g) ->
    wp (foldM (ScalarMult_step v (proj_table_of_p3 p) ds) (below n) tmp1) st
       (fun tmp1' _ => P1xP1_value tmp1' = Some (zmul (eval_digits 16 ds) g)).
Proof.
  intros Hp Hds. induction n as [|n IH]; intros tmp1 st Hn Htmp1.
  - exact Htmp1.
  - cbn [below foldM]. apply wp_bind. unfold wp at 1. cbn.
    apply IH; [lia|].
    eapply value_eq.
    + layer_value. eapply proj_table_value; [eassumption|].
      apply digit_Forall; [exact Hds|lia].
    + rewrite quadruple_value, <- zmul_mul, <- zmul_add. f_equal.
      rewrite (eval_digits_drop 16 ds n) by lia. lia.
Qed.

Lemma ScalarMult_computes v x q st (g : G) :
  holds st q g -> valid_scalar (st_scalars st x) ->
  computes (ScalarMult v x q st) v (zmul (st_scalars st x) g).
Proof.
  intros Hq Hx. unfold holds in Hq.
  pose proof (signedRadix16_range _ Hx) as Hrange.
  pose proof (signedRadix16_length (st_scalars st x)) as Hlen.
  pose proof (signedRadix16_eval _ Hx) as Heval.
  apply computes_wp.
  unfold ScalarMult. apply wp_bind. eapply wp_of_run.
  { apply checkInitialized_ok. repeat constructor.
    eapply valid_is_initialized; eassumption. }
  do 5 wp_step. apply wp_bind. rewrite downfrom_below.
  eapply wp_mono.
  - apply (ScalarMult_loop_value v (st_points st q) g _ Hq Hrange 63); [lia|].
    eapply value_eq.
    + layer_value. eapply proj_table_value; [eassumption|].
      apply digit_Forall; [exact Hrange|lia].
    + rewrite gadd_zero_l. f_equal.
      rewrite (eval_digits_drop 16 _ 63) by lia.
      rewrite eval_digits_drop_all by lia. lia.
  - intros tmp1 st' Hval. wp_step. apply wp_ret. split; [reflexivity|].
    unfold holds. cbn [st_points]. rewrite <- Heval. layer_value.
Qed.
End ScalarMultCorrect.

Section ScalarBaseMultCorrect.
Context {ops : PointOps} {spec : PointSpec ops}.
Local Open Scope prog_scope.
Local Opaque nonAdjacentForm signedRadix16.

Lemma sum_over_cons (f : nat -> Z) a n :
  sum_over f a (S n) = f a + sum_over f (S a) n.
Proof. reflexivity. Qed.

Lemma sum_over_shift (f : nat -> Z) a n :
  sum_over f (S a) n = sum_over (fun k => f (S k)) a n.
Proof.
  revert a. induction n as [|n IH]; intros a; [reflexivity|].
  rewrite !sum_over_cons, IH. reflexivity.
Qed.

Lemma sum_over_scale (f : nat -> Z) c a n :
  sum_over (fun k => c * f k) a n = c * sum_over f a n.
Proof.
  revert a. induction n as [|n IH]; intros a.
  - cbn. lia.
  - rewrite !sum_over_cons, IH. lia.
Qed.

Lemma sum_over_ext (f g : nat -> Z) a n :
  (forall k, f k = g k) -> sum_over f a n = sum_over g a n.
Proof.
  intros E. revert a. induction n as [|n IH]; intros a; [reflexivity|].
  rewrite !sum_over_cons, IH, E. reflexivity.
Qed.

(** The odd/even grouping of lines 16-19. *)
Lemma eval_digits_grouped n : forall ds,
  length ds = (2 * n)%nat ->
  eval_digits 16 ds
  = sum_over (fun k => digit ds (2 * k) * 16 ^ (2 * Z.of_nat k)) 0 n
    + 16 * sum_over (fun k => digit ds (2 * k + 1) * 16 ^ (2 * Z.of_nat k)) 0 n.
Proof.
  induction n as [|n IH]; intros ds Hlen.
  - destruct ds; [reflexivity|discriminate].
  - destruct ds as [|d0 [|d1 rest]]; cbn [length] in Hlen; try lia.
    rewrite !sum_over_cons, !sum_over_shift.
    rewrite !eval_digits_cons, (IH rest) by lia.
    rewrite (sum_over_ext
               (fun k => digit (d0 :: d1 :: rest) (2 * S k) * 16 ^ (2 * Z.of_nat (S k)))
               (fun k => 256 * (digit rest (2 * k) * 16 ^ (2 * Z.of_nat k)))).
    2:{ intros k. replace (2 * S k)%nat with (S (S (2 * k))) by lia.
        unfold digit. cbn [nth].
        replace (2 * Z.of_nat (S k)) with (2 + 2 * Z.of_nat k) by lia.
        rewrite Z.pow_add_r by lia. lia. }
    rewrite (sum_over_ext
               (fun k => digit (d0 :: d1 :: rest) (2 * S k + 1) * 16 ^ (2 * Z.of_nat (S k)))
               (fun k => 256 * (digit rest (2 * k + 1) * 16 ^ (2 * Z.of_nat k)))).
    2:{ intros k. replace (2 * S k + 1)%nat with (S (S (2 * k + 1))) by lia.
        unfold digit. cbn [nth].
        replace (2 * Z.of_nat (S k)) with (2 + 2 * Z.of_nat k) by lia.
        rewrite Z.pow_add_r by lia. lia. }
    rewrite !sum_over_scale.
    unfold digit. cbn [nth Nat.mul Nat.add Z.of_nat].
    change (16 ^ (2 * 0)) with 1. lia.
Qed.

Lemma half_of_position k r : (r < 2)%nat -> ((2 * k + r) / 2 = k)%nat.
Proof.
  intros Hr. rewrite Nat.mul_comm, Nat.div_add_l by lia.
  rewrite Nat.div_small by lia. lia.
Qed.

Lemma ScalarBaseMult_loop_value v ds r :
  (r < 2)%nat ->
  Forall (fun d => -8 <= d <= 8) ds ->
  forall n a st acc,
    (a + n <= 32)%nat ->
    holds st v (zmul acc generator) ->
    wp (for_each (map (fun k => 2 * k + r)%nat (seq a n)) (ScalarBaseMult_step v ds)) st
       (fun _ st' =>
          holds st' v
            (zmul (acc + sum_over (fun k => digit ds (2 * k + r) * 16 ^ (2 * Z.of_nat k)) a n)
                  generator)).
Proof.
  intros Hr Hds. unfold for_each.
  induction n as [|n IH]; intros a st acc Ha Hv.
  - cbn. unfold holds in *. rewrite Hv. f_equal. f_equal. cbn. lia.
  - cbn [seq map foldM]. apply wp_bind. unfold ScalarBaseMult_step. wp_block.
    eapply wp_mono; [apply (IH (S a) _ (acc + digit ds (2 * a + r) * 16 ^ (2 * Z.of_nat a))); [lia|]|].
    + unfold holds in *. cbn [st_points]. eapply value_eq.
      * layer_value. rewrite (half_of_position a r Hr).
        eapply basepoint_table_value; [lia|].
        apply digit_Forall; [exact Hds|lia].
      * now rewrite <- zmul_add.
    + intros [] st' Hst'. cbv beta in *. rewrite sum_over_cons.
      unfold holds in *. rewrite Hst'. f_equal. f_equal. lia.
Qed.

Lemma ScalarBaseMult_computes v x st :
  valid_scalar (st_scalars st x) ->
  computes (ScalarBaseMult v x st) v (zmul (st_scalars st x) generator).
Proof.
  intros Hx.
  pose proof (signedRadix16_range _ Hx) as Hrange.
  pose proof (signedRadix16_length (st_scalars st x)) as Hlen.
  pose proof (signedRadix16_eval _ Hx) as Heval.
  apply computes_wp.
  unfold ScalarBaseMult. rewrite range_by_odd, range_by_even.
  do 2 wp_step. apply wp_bind.
  eapply wp_mono.
  { apply (ScalarBaseMult_loop_value v _ 1 ltac:(lia) Hrange 32 0 _ 0); [lia|].
    unfold holds. cbn [st_points]. layer_value. }
  intros [] st1 Hodd. cbv beta in Hodd.
  do 9 wp_step. apply wp_bind.
  eapply wp_mono.
  { eapply (ScalarBaseMult_loop_value v _ 0 ltac:(lia) Hrange 32 0 _ (16 * _)).
    - lia.
    - unfold holds in *. cbn [st_points]. eapply value_eq.
      + layer_value.
      + rewrite quadruple_value, <- zmul_mul. reflexivity. }
  intros [] st2 Heven. cbv beta in Heven. apply wp_ret. split; [reflexivity|].
  unfold holds in *. rewrite Heven. f_equal. f_equal.
  etransitivity; [|exact Heval].
  rewrite (eval_digits_grouped 32) by exact Hlen.
  rewrite (sum_over_ext (fun k => digit _ (2 * k + 0) * _)
                        (fun k => digit (signedRadix16 (st_scalars st x)) (2 * k) * 16 ^ (2 * Z.of_nat k))).
  2:{ intros k. now rewrite Nat.add_0_r. }
  lia.
Qed.
End ScalarBaseMultCorrect.

Section ReadingLoops.
Context {ops : PointOps}.
Local Open Scope prog_scope.

(** A [for i := range ...] loop that fills a slice from the store: it
    reads, emits one event per element and writes nothing. *)
Lemma mapM_reads {A B} (f : A -> M B)
    (F : (loc -> Point) -> (loc -> Z) -> A -> B)
    (E : (loc -> Point) -> (loc -> Z) -> A -> event) :
  (forall a st,
      f a st = (Ok (F (st_points st) (st_scalars st) a),
                State (st_points st) (st_scalars st)
                      (st_trace st ++ [E (st_points st) (st_scalars st) a]))) ->
  forall l st,
    mapM f l st
    = (Ok (map (F (st_points st) (st_scalars st)) l),
       State (st_points st) (st_scalars st)
             (st_trace st ++ map (E (st_points st) (st_scalars st)) l)).
Proof.
  intros Hf. induction l as [|a l IH]; intros st.
  - cbn. rewrite app_nil_r. now destruct st.
  - cbn [mapM map]. unfold bind at 1. rewrite Hf.
    unfold bind at 1. rewrite IH. cbn [st_points st_scalars st_trace ret].
    now rewrite <- app_assoc.
Qed.

Lemma tables_run points st :
  mapM projLookupTable_FromP3 points st
  = (Ok (map (fun p => proj_table_of_p3 (st_points st p)) points),
     State (st_points st) (st_scalars st)
           (st_trace st ++ map (fun _ => EvTableFromP3) points)).
Proof.
  apply (mapM_reads _ (fun pts _ p => proj_table_of_p3 (pts p)) (fun _ _ _ => EvTableFromP3)).
  reflexivity.
Qed.

Lemma digits_run scalars st :
  mapM Scalar_signedRadix16 scalars st
  = (Ok (map (fun x => signedRadix16 (st_scalars st x)) scalars),
     State (st_points st) (st_scalars st)
           (st_trace st ++ map (fun _ => EvSignedRadix16) scalars)).
Proof.
  apply (mapM_reads _ (fun _ scs x => signedRadix16 (scs x)) (fun _ _ _ => EvSignedRadix16)).
  reflexivity.
Qed.

Lemma nafTables_run points st :
  mapM nafLookupTable5_FromP3 points st
  = (Ok (map (fun p => naf5_table_of_p3 (st_points st p)) points),
     State (st_points st) (st_scalars st)
           (st_trace st ++ map (fun _ => EvNafTableFromP3) points)).
Proof.
  apply (mapM_reads _ (fun pts _ p => naf5_table_of_p3 (pts p)) (fun _ _ _ => EvNafTableFromP3)).
  reflexivity.
Qed.

Lemma nafs_run scalars st :
  mapM (fun s => Scalar_nonAdjacentForm s 5) scalars st
  = (Ok (map (fun x => nonAdjacentForm (st_scalars st x) 5) scalars),
     State (st_points st) (st_scalars st)
           (st_trace st ++ map (fun x => EvNonAdjacentForm 5 (st_scalars st x)) scalars)).
Proof.
  apply (mapM_reads _ (fun _ scs x => nonAdjacentForm (scs x) 5)
                      (fun _ scs x => EvNonAdjacentForm 5 (scs x))).
  reflexivity.
Qed.
End ReadingLoops.

Section GroupSums.
Context {G : Type} `{AbelianGroup G}.

Lemma gsum_cons (g : G) l : gsum (g :: l) = gadd g (gsum l).
Proof. reflexivity. Qed.

Lemma gsum_map_add {A} (f h : A -> G) l :
  gsum (map (fun a => gadd (f a) (h a)) l) = gadd (gsum (map f l)) (gsum (map h l)).
Proof.
  induction l as [|a l IH]; cbn [map]; rewrite ?gsum_cons.
  - cbn. now rewrite gadd_zero_l.
  - rewrite IH, !gadd_assoc. f_equal.
    rewrite <- !gadd_assoc. f_equal. apply gadd_comm.
Qed.

Lemma gsum_map_zmul {A} k (f : A -> G) l :
  gsum (map (fun a => zmul k (f a)) l) = zmul k (gsum (map f l)).
Proof.
  induction l as [|a l IH]; cbn [map]; rewrite ?gsum_cons.
  - cbn. now rewrite zmul_zero.
  - now rewrite IH, zmul_gadd.
Qed.

Lemma gsum_map_ext {A} (f h : A -> G) l :
  (forall a, In a l -> f a = h a) -> gsum (map f l) = gsum (map h l).
Proof.
  induction l as [|a l IH]; intros E; [reflexivity|].
  cbn [map]. rewrite !gsum_cons, E, IH; [reflexivity| |now left].
  intros b Hb. apply E. now right.
Qed.
End GroupSums.

Section Terms.
Context {ops : PointOps} {spec : PointSpec ops}.

(** The terms of a multi-scalar call: the scalar, the point it
    multiplies and the group element the point stands for. *)
Lemma terms_exist st scalars points (gs : list G) :
  length scalars = length points ->
  Forall2 (holds st) points gs ->
  Forall (fun x => valid_scalar (st_scalars st x)) scalars ->
  exists terms : list (Z * (Point * G)),
    Forall (term_valid (spec := spec)) terms /\
    map (st_scalars st) scalars = map fst terms /\
    map (st_points st) points = map (fun t => fst (snd t)) terms /\
    gs = map (fun t => snd (snd t)) terms.
Proof.
  intros Hlen Hpts. revert scalars Hlen.
  induction Hpts as [|p g points gs Hp _ IH]; intros scalars Hlen Hval.
  - destruct scalars; [|discriminate]. exists []. repeat split; constructor.
  - destruct scalars as [|x scalars]; [discriminate|].
    inversion Hval as [|? ? Hx Hrest]; subst.
    destruct (IH scalars) as (terms & Hterms & E1 & E2 & E3); [cbn in Hlen; lia|assumption|].
    exists ((st_scalars st x, (st_points st p, g)) :: terms).
    repeat split; cbn [map fst snd]; try congruence.
    constructor; [split; assumption|assumption].
Qed.

Lemma zip_map {A B C} (f : A -> B) (h : A -> C) (l : list A) :
  zip (map f l) (map h l) = map (fun a => (f a, h a)) l.
Proof. induction l as [|a l IH]; [reflexivity|]. cbn. now rewrite <- IH. Qed.

Lemma linear_combination_terms (terms : list (Z * (Point * G))) :
  linear_combination (map fst terms) (map (fun t => snd (snd t)) terms)
  = gsum (map (fun t => zmul (fst t) (snd (snd t))) terms).
Proof.
  unfold linear_combination.
  induction terms as [|t terms IH]; [reflexivity|].
  cbn [map zip_with]. rewrite !gsum_cons, IH. reflexivity.
Qed.
End Terms.

Section MultiScalarMultCorrect.
Context {ops : PointOps} {spec : PointSpec ops}.
Local Open Scope prog_scope.
Local Opaque nonAdjacentForm signedRadix16.

Lemma MultiScalarMult_adds_value v i (terms : list (Z * (Point * G))) :
  Forall term_valid terms ->
  forall st acc,
    holds st v acc ->
    wp (for_each (map radix16_table terms) (MultiScalarMult_add v i)) st
       (fun _ st' =>
          holds st' v
            (gadd acc (gsum (map (fun t => zmul (digit (signedRadix16 (fst t)) i)
                                               (snd (snd t))) terms)))).
Proof.
  unfold for_each. induction 1 as [|t terms [Hx Hp] _ IH]; intros st acc Hv.
  - cbn. unfold holds in *. now rewrite gadd_zero_r.
  - cbn [map foldM]. apply wp_bind. unfold MultiScalarMult_add. wp_block.
    eapply wp_mono; [apply IH|].
    + unfold holds in *. cbn [st_points]. layer_value.
      unfold radix16_table. cbn [fst snd].
      eapply proj_table_value; [eassumption|].
      apply digit_Forall; [now apply signedRadix16_range|lia].
    + intros [] st' Hst'. cbv beta in *. unfold holds in *.
      rewrite Hst', gsum_cons, gadd_assoc. reflexivity.
Qed.

Lemma radix16_suffix_step (terms : list (Z * (Point * G))) n :
  Forall term_valid terms -> (n < 64)%nat ->
  gsum (map (fun t => zmul (eval_digits 16 (drop n (signedRadix16 (fst t))))
                           (snd (snd t))) terms)
  = gadd (zmul 16 (gsum (map (fun t => zmul (eval_digits 16 (drop (S n) (signedRadix16 (fst t))))
                                            (snd (snd t))) terms)))
         (gsum (map (fun t => zmul (digit (signedRadix16 (fst t)) n) (snd (snd t))) terms)).
Proof.
  intros Hterms Hn. rewrite <- gsum_map_zmul, <- gsum_map_add.
  apply gsum_map_ext. intros t _.
  rewrite eval_digits_drop by (rewrite signedRadix16_length; lia).
  rewrite <- zmul_mul, <- zmul_add. f_equal. lia.
Qed.

Lemma MultiScalarMult_loop_value v (g0 : G) (terms : list (Z * (Point * G)))
    tables digits :
  zip tables digits = map radix16_table terms ->
  Forall term_valid terms ->
  forall n tmp2 st c,
    (n <= 64)%nat ->
    let suffix k :=
      gsum (map (fun t => zmul (eval_digits 16 (drop k (signedRadix16 (fst t))))
                               (snd (snd t))) terms) in
    P2_value tmp2 = Some (gadd (zmul c g0) (suffix n)) ->
    holds st v (gadd (zmul c g0) (suffix n)) ->
    wp (foldM (MultiScalarMult_step v tables digits) (below n) tmp2) st
       (fun _ st' => holds st' v (gadd (zmul (16 ^ Z.of_nat n * c) g0) (suffix 0%nat))).
Proof.
  intros Hzip Hterms. induction n as [|n IH]; intros tmp2 st c Hn suffix Htmp2 Hv.
  - cbn [below foldM]. apply wp_ret. change (16 ^ Z.of_nat 0) with 1.
    now rewrite Z.mul_1_l.
  - cbn [below foldM]. apply wp_bind. unfold MultiScalarMult_step at 1.
    do 8 wp_step. apply wp_bind. rewrite Hzip.
    eapply wp_mono.
    { apply (MultiScalarMult_adds_value v n terms Hterms).
      unfold holds. cbn [st_points]. layer_value. }
    intros [] st1 Hst1. cbv beta in Hst1. wp_block.
    assert (Hnext :
      zmul 16 (gadd (zmul c g0) (suffix (S n)))
      = gadd (gadd (zmul (16 * c) g0) (zmul 16 (suffix (S n)))) (zmul 0 g0)).
    { now rewrite zmul_gadd, <- zmul_mul, zmul_0, gadd_zero_r. }
    assert (Hsuffix :
      gadd (zmul 16 (gadd (zmul c g0) (suffix (S n))))
           (gsum (map (fun t => zmul (digit (signedRadix16 (fst t)) n) (snd (snd t))) terms))
      = gadd (zmul (16 * c) g0) (suffix n)).
    { subst suffix. cbv beta.
      rewrite (radix16_suffix_step terms n Hterms) by lia.
      now rewrite zmul_gadd, <- zmul_mul, gadd_assoc. }
    eapply wp_mono.
    { apply (IH _ _ (16 * c)); [lia|eapply value_eq|].
      - layer_value.
      - rewrite quadruple_value. exact Hsuffix.
      - unfold holds in *. cbn [st_points]. eapply value_eq; [exact Hst1|].
        rewrite quadruple_value. exact Hsuffix. }
    intros tmp2' st2 Hst2. cbv beta in *. unfold holds in *. rewrite Hst2.
    f_equal. f_equal. f_equal.
    replace (Z.of_nat (S n)) with (1 + Z.of_nat n) by lia.
    rewrite Z.pow_add_r by lia. lia.
Qed.
End MultiScalarMultCorrect.

Section MultiScalarMultResult.
Context {ops : PointOps} {spec : PointSpec ops}.
Local Open Scope prog_scope.
Local Opaque nonAdjacentForm signedRadix16.

(** What [MultiScalarMult] leaves in its receiver: the sum of the
    multiples, on top of 16^63 times what the receiver held. *)
Lemma MultiScalarMult_computes v scalars points st (g0 : G) (gs : list G) :
  length scalars = length points ->
  holds st v g0 ->
  Forall2 (holds st) points gs ->
  Forall (fun x => valid_scalar (st_scalars st x)) scalars ->
  computes (MultiScalarMult v scalars points st) v
    (gadd (zmul (16 ^ 63) g0)
          (linear_combination (map (st_scalars st) scalars) gs)).
Proof.
  intros Hlen Hv Hpts Hxs.
  destruct (terms_exist st scalars points gs Hlen Hpts Hxs)
    as (terms & Hterms & Exs & Eps & Egs).
  apply computes_wp. unfold MultiScalarMult.
  apply wp_bind. eapply wp_of_run; [now apply checkLengths_ok|].
  apply wp_bind. eapply wp_of_run.
  { apply checkInitialized_ok. clear -Hpts.
    induction Hpts as [|p g ? ? Hp _ IH]; constructor; [|exact IH].
    eapply valid_is_initialized. exact Hp. }
  apply wp_bind. eapply wp_of_run; [apply tables_run|].
  apply wp_bind. eapply wp_of_run; [apply digits_run|].
  cbn [st_points st_scalars st_trace].
  assert (Hzip :
    zip (map (fun p => proj_table_of_p3 (st_points st p)) points)
        (map (fun x => signedRadix16 (st_scalars st x)) scalars)
    = map radix16_table terms).
  { rewrite <- (map_map (st_points st) proj_table_of_p3).
    rewrite <- (map_map (st_scalars st) signedRadix16).
    rewrite Exs, Eps, !map_map. apply zip_map. }
  apply wp_bind. rewrite Hzip at 1.
  eapply wp_mono.
  { apply (MultiScalarMult_adds_value v 63 terms Hterms _ g0). exact Hv. }
  intros [] st1 Hst1. cbv beta in Hst1. wp_step.
  apply wp_bind. rewrite downfrom_below.
  assert (Htop :
    gadd g0 (gsum (map (fun t => zmul (digit (signedRadix16 (fst t)) 63) (snd (snd t))) terms))
    = gadd (zmul 1 g0)
           (gsum (map (fun t => zmul (eval_digits 16 (drop 63 (signedRadix16 (fst t))))
                                     (snd (snd t))) terms))).
  { rewrite zmul_1. f_equal. apply gsum_map_ext. intros t _. f_equal.
    rewrite eval_digits_drop by (rewrite signedRadix16_length; lia).
    rewrite eval_digits_drop_all by (rewrite signedRadix16_length; lia). lia. }
  eapply wp_mono.
  { apply (MultiScalarMult_loop_value v g0 terms _ _ Hzip Hterms 63 _ _ 1); [lia| |].
    - eapply value_eq; [layer_value; exact Hst1|exact Htop].
    - unfold holds in *. cbn [st_points]. eapply value_eq; [exact Hst1|exact Htop]. }
  intros tmp2 st2 Hst2. cbv beta in Hst2. apply wp_ret. split; [reflexivity|].
  unfold holds in *. rewrite Hst2. f_equal.
  rewrite Z.mul_1_r. change (Z.of_nat 63) with 63. f_equal.
  rewrite Exs, Egs, linear_combination_terms.
  apply gsum_map_ext. intros t Ht. f_equal.
  rewrite drop_0. apply signedRadix16_eval.
  rewrite List.Forall_forall in Hterms. now apply Hterms.
Qed.
End MultiScalarMultResult.

Section VarTimeCorrect.
Context {ops : PointOps} {spec : PointSpec ops}.
Local Open Scope prog_scope.
Local Opaque nonAdjacentForm signedRadix16.

Lemma int8_neg_small d : -128 < d < 128 -> int8_neg d = - d.
Proof.
  intros Hd. unfold int8_neg, int8_wrap.
  rewrite Z.mod_small by lia. lia.
Qed.

Lemma odd_opp d : Z.odd (- d) = Z.odd d.
Proof. apply Z.odd_opp. Qed.

(** A signed digit of a non-adjacent form of width [w]. *)
Lemma naf_digit_cases w x i :
  2 <= w ->
  let d := digit (nonAdjacentForm x w) i in
  d = 0 \/ (Z.odd d = true /\ - 2 ^ (w - 1) < d < 2 ^ (w - 1)).
Proof.
  intros Hw. cbn zeta.
  apply (digit_Forall (fun d => d = 0 \/ (Z.odd d = true /\ - 2 ^ (w - 1) < d < 2 ^ (w - 1)))).
  - now apply nonAdjacentForm_digits.
  - now left.
Qed.

Lemma VarTime_update_value v (p : Point) (g a : G) d tmp1 st :
  P3_value p = Some g ->
  P1xP1_value tmp1 = Some a ->
  d = 0 \/ (Z.odd d = true /\ -16 < d < 16) ->
  wp (VarTime_update v (naf5_table_of_p3 p) d tmp1) st
     (fun tmp1' _ => P1xP1_value tmp1' = Some (gadd a (zmul d g))).
Proof.
  intros Hp Ha Hd. unfold VarTime_update.
  destruct (0 <? d) eqn:Epos; [|destruct (d <? 0) eqn:Eneg].
  - apply Z.ltb_lt in Epos. destruct Hd as [->|[Hodd Hr]]; [lia|].
    wp_block. layer_value. eapply naf5_table_value; [eassumption|assumption|lia].
  - apply Z.ltb_lt in Eneg. destruct Hd as [->|[Hodd Hr]]; [lia|].
    wp_block. rewrite int8_neg_small by lia.
    eapply value_eq.
    + layer_value. eapply naf5_table_value; [eassumption| |lia].
      now rewrite odd_opp.
    + unfold gsub. now rewrite <- zmul_opp, Z.opp_involutive.
  - apply Z.ltb_ge in Epos. apply Z.ltb_ge in Eneg.
    assert (d = 0) as -> by lia.
    apply wp_ret. now rewrite zmul_0, gadd_zero_r.
Qed.

Lemma VarTime_updateBase_value v (a : G) d tmp1 st :
  P1xP1_value tmp1 = Some a ->
  d = 0 \/ (Z.odd d = true /\ -128 < d < 128) ->
  wp (VarTime_updateBase v d tmp1) st
     (fun tmp1' _ => P1xP1_value tmp1' = Some (gadd a (zmul d generator))).
Proof.
  intros Ha Hd. unfold VarTime_updateBase.
  destruct (0 <? d) eqn:Epos; [|destruct (d <? 0) eqn:Eneg].
  - apply Z.ltb_lt in Epos. destruct Hd as [->|[Hodd Hr]]; [lia|].
    wp_block. layer_value. eapply naf8_table_value; [assumption|lia].
  - apply Z.ltb_lt in Eneg. destruct Hd as [->|[Hodd Hr]]; [lia|].
    wp_block. rewrite int8_neg_small by lia.
    eapply value_eq.
    + layer_value. eapply naf8_table_value; [|lia].
      now rewrite odd_opp.
    + unfold gsub. now rewrite <- zmul_opp, Z.opp_involutive.
  - apply Z.ltb_ge in Epos. apply Z.ltb_ge in Eneg.
    assert (d = 0) as -> by lia.
    apply wp_ret. now rewrite zmul_0, gadd_zero_r.
Qed.

Lemma gadd_swap (a b c : G) : gadd a (gadd b c) = gadd b (gadd a c).
Proof. now rewrite !gadd_assoc, (gadd_comm a b). Qed.

Lemma double_and_add (s t da db : G) :
  gadd (gadd (gadd (gadd s t) (gadd s t)) da) db
  = gadd (gadd da (gadd s s)) (gadd db (gadd t t)).
Proof.
  rewrite <- !gadd_assoc.
  rewrite (gadd_swap da s). f_equal.
  rewrite (gadd_swap t s), (gadd_swap da s). f_equal.
  rewrite (gadd_assoc da db), (gadd_comm (gadd da db)).
  now rewrite <- !gadd_assoc.
Qed.

Lemma VarTimeDoubleScalarBaseMult_loop_value v (p : Point) (gA : G) a b :
  P3_value p = Some gA ->
  forall n tmp2 st,
    (n <= 256)%nat ->
    P2_value tmp2
    = Some (gadd (zmul (eval_digits 2 (drop n (nonAdjacentForm a 5))) gA)
                 (zmul (eval_digits 2 (drop n (nonAdjacentForm b 8))) generator)) ->
    wp (foldM (VarTimeDoubleScalarBaseMult_step v (naf5_table_of_p3 p)
                 (nonAdjacentForm a 5) (nonAdjacentForm b 8))
              (below n) tmp2) st
       (fun tmp2' _ =>
          P2_value tmp2'
          = Some (gadd (zmul (eval_digits 2 (nonAdjacentForm a 5)) gA)
                       (zmul (eval_digits 2 (nonAdjacentForm b 8)) generator))).
Proof.
  intros Hp. induction n as [|n IH]; intros tmp2 st Hn Htmp2.
  - exact Htmp2.
  - cbn [below foldM]. apply wp_bind.
    unfold VarTimeDoubleScalarBaseMult_step at 1. wp_step.
    apply wp_bind. eapply wp_mono.
    { eapply (VarTime_update_value v p gA); [exact Hp|layer_value|].
      exact (naf_digit_cases 5 a n ltac:(lia)). }
    intros tmp1 st1 Htmp1. cbv beta in Htmp1.
    apply wp_bind. eapply wp_mono.
    { eapply VarTime_updateBase_value; [exact Htmp1|].
      exact (naf_digit_cases 8 b n ltac:(lia)). }
    intros tmp1' st2 Htmp1'. cbv beta in Htmp1'. wp_block.
    apply IH; [lia|]. eapply value_eq; [layer_value|].
    rewrite (eval_digits_drop 2 (nonAdjacentForm a 5) n)
      by (rewrite nonAdjacentForm_length; lia).
    rewrite (eval_digits_drop 2 (nonAdjacentForm b 8) n)
      by (rewrite nonAdjacentForm_length; lia).
    rewrite !zmul_add, <- !zmul_double. apply double_and_add.
Qed.
Lemma VarTimeDoubleScalarBaseMult_computes v a A b st (gA : G) :
  holds st A gA ->
  valid_scalar (st_scalars st a) -> valid_scalar (st_scalars st b) ->
  computes (VarTimeDoubleScalarBaseMult v a A b st) v
    (gadd (zmul (st_scalars st a) gA) (zmul (st_scalars st b) generator)).
Proof.
  intros HA Ha Hb. unfold holds in HA.
  apply computes_wp. unfold VarTimeDoubleScalarBaseMult.
  apply wp_bind. eapply wp_of_run.
  { apply checkInitialized_ok. repeat constructor.
    eapply valid_is_initialized; eassumption. }
  do 3 wp_step. cbv zeta. wp_step.
  apply wp_bind. rewrite downfrom_below.
  eapply wp_mono.
  { apply (VarTimeDoubleScalarBaseMult_loop_value v (st_points st A) gA
             (st_scalars st a) (st_scalars st b) HA 256); [lia|].
    rewrite !eval_digits_drop_all by (rewrite nonAdjacentForm_length; lia).
    eapply value_eq; [layer_value|]. now rewrite !zmul_0, gadd_zero_l. }
  intros tmp2 st' Htmp2. cbv beta in Htmp2. wp_step. apply wp_ret.
  split; [reflexivity|]. unfold holds. cbn [st_points].
  rewrite !nonAdjacentForm_eval in Htmp2 by (assumption || lia).
  layer_value.
Qed.

(** *** VarTimeMultiScalarMult *)

Lemma VarTimeMultiScalarMult_adds_value v i (terms : list (Z * (Point * G))) :
  Forall term_valid terms ->
  forall tmp1 st (acc : G),
    P1xP1_value tmp1 = Some acc ->
    wp (foldM (VarTimeMultiScalarMult_add v i) (map naf_table terms) tmp1) st
       (fun tmp1' _ =>
          P1xP1_value tmp1'
          = Some (gadd acc (gsum (map (fun t => zmul (digit (nonAdjacentForm (fst t) 5) i)
                                                     (snd (snd t))) terms)))).
Proof.
  induction 1 as [|t terms [Hx Hp] _ IH]; intros tmp1 st acc Htmp1.
  - cbn. now rewrite gadd_zero_r.
  - cbn [map foldM]. apply wp_bind.
    unfold VarTimeMultiScalarMult_add at 1, naf_table at 1. cbn [fst snd].
    eapply wp_mono.
    { eapply VarTime_update_value; [exact Hp|exact Htmp1|].
      exact (naf_digit_cases 5 (fst t) i ltac:(lia)). }
    intros tmp1' st1 Htmp1'. cbv beta in Htmp1'.
    eapply wp_mono; [apply IH; exact Htmp1'|].
    intros tmp1'' st2 H2. cbv beta in *. rewrite H2, gsum_cons, gadd_assoc.
    reflexivity.
Qed.

Lemma naf_suffix_step (terms : list (Z * (Point * G))) n :
  (n < 256)%nat ->
  gsum (map (fun t => zmul (eval_digits 2 (drop n (nonAdjacentForm (fst t) 5)))
                           (snd (snd t))) terms)
  = gadd (zmul 2 (gsum (map (fun t => zmul (eval_digits 2 (drop (S n) (nonAdjacentForm (fst t) 5)))
                                           (snd (snd t))) terms)))
         (gsum (map (fun t => zmul (digit (nonAdjacentForm (fst t) 5) n) (snd (snd t))) terms)).
Proof.
  intros Hn. rewrite <- gsum_map_zmul, <- gsum_map_add.
  apply gsum_map_ext. intros t _.
  rewrite eval_digits_drop by (rewrite nonAdjacentForm_length; lia).
  rewrite <- zmul_mul, <- zmul_add. f_equal. lia.
Qed.

Lemma VarTimeMultiScalarMult_loop_value v (terms : list (Z * (Point * G)))
    tables nafs :
  zip nafs tables = map naf_table terms ->
  Forall term_valid terms ->
  forall n tmp2 st,
    (n <= 256)%nat ->
    let suffix k :=
      gsum (map (fun t => zmul (eval_digits 2 (drop k (nonAdjacentForm (fst t) 5)))
                               (snd (snd t))) terms) in
    P2_value tmp2 = Some (suffix n) ->
    wp (foldM (VarTimeMultiScalarMult_step v tables nafs) (below n) tmp2) st
       (fun tmp2' _ => P2_value tmp2' = Some (suffix 0%nat)).
Proof.
  intros Hzip Hterms. induction n as [|n IH]; intros tmp2 st Hn suffix Htmp2.
  - exact Htmp2.
  - cbn [below foldM]. apply wp_bind.
    unfold VarTimeMultiScalarMult_step at 1. wp_step.
    apply wp_bind. rewrite Hzip. eapply wp_mono.
    { apply (VarTimeMultiScalarMult_adds_value v n terms Hterms). layer_value. }
    intros tmp1 st1 Htmp1. cbv beta in Htmp1. wp_block.
    apply IH; [lia|]. eapply value_eq; [layer_value|].
    subst suffix. cbv beta. rewrite (naf_suffix_step terms n) by lia.
    f_equal. now rewrite zmul_2.
Qed.

Lemma VarTimeMultiScalarMult_computes v scalars points st (gs : list G) :
  length scalars = length points ->
  Forall2 (holds st) points gs ->
  Forall (fun x => valid_scalar (st_scalars st x)) scalars ->
  computes (VarTimeMultiScalarMult v scalars points st) v
    (linear_combination (map (st_scalars st) scalars) gs).
Proof.
  intros Hlen Hpts Hxs.
  destruct (terms_exist st scalars points gs Hlen Hpts Hxs)
    as (terms & Hterms & Exs & Eps & Egs).
  apply computes_wp. unfold VarTimeMultiScalarMult.
  apply wp_bind. eapply wp_of_run; [now apply checkLengths_ok|].
  apply wp_bind. eapply wp_of_run.
  { apply checkInitialized_ok. clear -Hpts.
    induction Hpts as [|p g ? ? Hp _ IH]; constructor; [|exact IH].
    eapply valid_is_initialized. exact Hp. }
  apply wp_bind. eapply wp_of_run; [apply nafTables_run|].
  apply wp_bind. eapply wp_of_run; [apply nafs_run|].
  cbn [st_points st_scalars st_trace].
  assert (Hzip :
    zip (map (fun x => nonAdjacentForm (st_scalars st x) 5) scalars)
        (map (fun p => naf5_table_of_p3 (st_points st p)) points)
    = map naf_table terms).
  { rewrite <- (map_map (st_points st) naf5_table_of_p3).
    rewrite <- (map_map (st_scalars st) (fun x => nonAdjacentForm x 5)).
    rewrite Exs, Eps, !map_map. apply zip_map. }
  wp_step. apply wp_bind. rewrite downfrom_below.
  eapply wp_mono.
  { apply (VarTimeMultiScalarMult_loop_value v terms _ _ Hzip Hterms 256); [lia|].
    eapply value_eq; [layer_value|].
    clear. induction terms as [|t terms IH]; [reflexivity|].
    cbn [map]. rewrite gsum_cons, <- IH, gadd_zero_r.
    rewrite eval_digits_drop_all by (rewrite nonAdjacentForm_length; lia).
    reflexivity. }
  intros tmp2 st2 Hst2. cbv beta in Hst2. wp_step. apply wp_ret.
  split; [reflexivity|]. unfold holds. cbn [st_points].
  eapply value_eq; [layer_value|].
  rewrite Exs, Egs, linear_combination_terms.
  apply gsum_map_ext. intros t Ht. f_equal.
  rewrite drop_0. apply nonAdjacentForm_eval; [lia|].
  rewrite List.Forall_forall in Hterms. now apply Hterms.
Qed.
End VarTimeCorrect.

(** * What the schedules write *)

Section Frame.
Context {ops : PointOps}.
Local Open Scope prog_scope.

Lemma frame_refl v st : frame v st st.
Proof. split; auto. Qed.

Lemma frame_trans v st1 st2 st3 :
  frame v st1 st2 -> frame v st2 st3 -> frame v st1 st3.
Proof.
  intros [S1 P1] [S2 P2]. split; [congruence|].
  intros l Hl. rewrite P2, P1 by assumption. reflexivity.
Qed.

Lemma writes_only_ret {A} v (a : A) : writes_only v (ret a).
Proof. intros st. apply frame_refl. Qed.

Lemma writes_only_throw {A} v e : writes_only v (@throw _ A e).
Proof. intros st. apply frame_refl. Qed.

Lemma writes_only_tick v e : writes_only v (tick e).
Proof. intros st. split; auto. Qed.

Lemma writes_only_loadPoint v l : writes_only v (loadPoint l).
Proof. intros st. apply frame_refl. Qed.

Lemma writes_only_loadScalar v l : writes_only v (loadScalar l).
Proof. intros st. apply frame_refl. Qed.

Lemma writes_only_storePoint v p : writes_only v (storePoint v p).
Proof.
  intros st. split; [reflexivity|]. intros l Hl. cbn.
  apply fn_lookup_insert_ne. congruence.
Qed.

Lemma writes_only_bind {A B} v (m : M A) (k : A -> M B) :
  writes_only v m -> (forall a, writes_only v (k a)) -> writes_only v (bind m k).
Proof.
  intros Hm Hk st. specialize (Hm st). unfold bind.
  destruct (m st) as [[a|e] st1]; cbn [snd] in *; [|exact Hm].
  eapply frame_trans; [exact Hm|apply Hk].
Qed.

Lemma writes_only_foldM {A S} v (body : A -> S -> M S) l :
  (forall a s, writes_only v (body a s)) -> forall s, writes_only v (foldM body l s).
Proof.
  intros Hbody. induction l as [|a l IH]; intros s; cbn [foldM].
  - apply writes_only_ret.
  - apply writes_only_bind; [apply Hbody|exact IH].
Qed.

Lemma writes_only_for_each {A} v (body : A -> M unit) l :
  (forall a, writes_only v (body a)) -> writes_only v (for_each l body).
Proof. intros Hbody. apply writes_only_foldM. intros a _. apply Hbody. Qed.

Lemma writes_only_mapM {A B} v (f : A -> M B) l :
  (forall a, writes_only v (f a)) -> writes_only v (mapM f l).
Proof.
  intros Hf. induction l as [|a l IH]; cbn [mapM].
  - apply writes_only_ret.
  - apply writes_only_bind; [apply Hf|]. intros b.
    apply writes_only_bind; [exact IH|]. intros bs. apply writes_only_ret.
Qed.

Lemma writes_only_checkInitialized v points :
  writes_only v (checkInitialized points).
Proof.
  induction points as [|p rest IH]; cbn [checkInitialized].
  - apply writes_only_ret.
  - apply writes_only_bind; [apply writes_only_loadPoint|]. intros pv.
    destruct (p3_uninitialized pv); [apply writes_only_throw|exact IH].
Qed.

Lemma writes_only_checkLengths v scalars points :
  writes_only v (checkLengths scalars points).
Proof.
  unfold checkLengths.
  destruct (negb _); [apply writes_only_throw|apply writes_only_ret].
Qed.
End Frame.

(** Decomposes a schedule into the store accesses it is made of. *)
Ltac layer_calls :=
  unfold Scalar_signedRadix16, Scalar_nonAdjacentForm, NewIdentityPoint,
    Point_Set, Point_fromP1xP1, Point_fromP2,
    projP2_Zero, projP2_FromP3, projP2_FromP1xP1,
    projP1xP1_Add, projP1xP1_Sub, projP1xP1_AddAffine, projP1xP1_SubAffine,
    projP1xP1_Double,
    projLookupTable_FromP3, projLookupTable_SelectInto,
    affineLookupTable_SelectInto,
    nafLookupTable5_FromP3, nafLookupTable5_SelectInto,
    nafLookupTable8_SelectInto.

Ltac schedule_steps :=
  unfold ScalarBaseMult_step, ScalarMult_step,
    MultiScalarMult_step, MultiScalarMult_add,
    VarTimeDoubleScalarBaseMult_step,
    VarTimeMultiScalarMult_step, VarTimeMultiScalarMult_add,
    VarTime_update, VarTime_updateBase.

Ltac writes_only_step :=
  lazymatch goal with
  | |- forall _, _ => intro
  | |- writes_only _ (ret _) => apply writes_only_ret
  | |- writes_only _ (throw _) => apply writes_only_throw
  | |- writes_only _ (tick _) => apply writes_only_tick
  | |- writes_only _ (loadPoint _) => apply writes_only_loadPoint
  | |- writes_only _ (loadScalar _) => apply writes_only_loadScalar
  | |- writes_only _ (storePoint _ _) => apply writes_only_storePoint
  | |- writes_only _ (checkInitialized _) => apply writes_only_checkInitialized
  | |- writes_only _ (checkLengths _ _) => apply writes_only_checkLengths
  | |- writes_only _ (bind _ _) => apply writes_only_bind
  | |- writes_only _ (foldM _ _ _) => apply writes_only_foldM
  | |- writes_only _ (for_each _ _) => apply writes_only_for_each
  | |- writes_only _ (mapM _ _) => apply writes_only_mapM
  | |- writes_only _ (if ?c then _ else _) => destruct c
  | |- writes_only _ (let _ := _ in _) => cbv zeta
  end.

Ltac writes_only_tac := schedule_steps; layer_calls; repeat writes_only_step.

Section ScheduleFrames.
Context {ops : PointOps}.

Lemma ScalarBaseMult_writes_only v x : writes_only v (ScalarBaseMult v x).
Proof. unfold ScalarBaseMult. writes_only_tac. Qed.

Lemma ScalarMult_writes_only v x q : writes_only v (ScalarMult v x q).
Proof. unfold ScalarMult. writes_only_tac. Qed.

Lemma MultiScalarMult_writes_only v scalars points :
  writes_only v (MultiScalarMult v scalars points).
Proof. unfold MultiScalarMult. writes_only_tac. Qed.

Lemma VarTimeDoubleScalarBaseMult_writes_only v a A b :
  writes_only v (VarTimeDoubleScalarBaseMult v a A b).
Proof. unfold VarTimeDoubleScalarBaseMult. writes_only_tac. Qed.

Lemma VarTimeMultiScalarMult_writes_only v scalars points :
  writes_only v (VarTimeMultiScalarMult v scalars points).
Proof. unfold VarTimeMultiScalarMult. writes_only_tac. Qed.
End ScheduleFrames.

(** * What the results depend on *)

Section SameRun.
Context {ops : PointOps}.
Local Open Scope prog_scope.

Lemma similar_weaken v X S b b' st1 st2 :
  (b' = true -> b = true) -> similar v X S b st1 st2 -> similar v X S b' st1 st2.
Proof. intros Hb (HS & HX & Hv). repeat split; auto. Qed.

Lemma same_run_ret {A} v X S b (a : A) : same_run v X S b b (ret a).
Proof. intros st1 st2 Hsim. cbn. auto. Qed.

Lemma same_run_throw {A} v X S b b' e : same_run v X S b b' (@throw _ A e).
Proof. intros st1 st2 Hsim. reflexivity. Qed.

Lemma same_run_tick v X S b e : same_run v X S b b (tick e).
Proof. intros st1 st2 Hsim. cbn. auto. Qed.

Lemma same_run_loadScalar v X S b l :
  In l S -> same_run v X S b b (loadScalar l).
Proof. intros Hl st1 st2 Hsim. cbn. split; [|exact Hsim]. now apply Hsim. Qed.

Lemma same_run_loadPoint v X S b l :
  In l X \/ (l = v /\ b = true) -> same_run v X S b b (loadPoint l).
Proof.
  intros Hl st1 st2 Hsim. cbn. split; [|exact Hsim].
  destruct Hsim as (_ & HX & Hv). destruct Hl as [Hl|[-> Hb]]; auto.
Qed.

Lemma same_run_storePoint v X S b p : same_run v X S b true (storePoint v p).
Proof.
  intros st1 st2 (HS & HX & Hv). cbn. split; [reflexivity|].
  repeat split; cbn [st_scalars st_points]; auto.
  - intros l Hl. destruct (decide (v = l)) as [->|Hne].
    + now rewrite !fn_lookup_insert.
    + rewrite !fn_lookup_insert_ne by assumption. now apply HX.
  - intros _. now rewrite !fn_lookup_insert.
Qed.

Lemma same_run_bind {A B} v X S b b1 b2 (m : M A) (k : A -> M B) :
  same_run v X S b b1 m -> (forall a, same_run v X S b1 b2 (k a)) ->
  same_run v X S b b2 (bind m k).
Proof.
  intros Hm Hk st1 st2 Hsim. specialize (Hm st1 st2 Hsim). unfold bind.
  destruct (m st1) as [[a1|e1] st1'], (m st2) as [[a2|e2] st2']; try contradiction.
  - destruct Hm as [-> Hsim']. apply Hk. exact Hsim'.
  - exact Hm.
Qed.

Lemma same_run_weaken {A} v X S b b1 b' (m : M A) :
  same_run v X S b b1 m -> (b' = true -> b1 = true) -> same_run v X S b b' m.
Proof.
  intros Hm Hb st1 st2 Hsim. specialize (Hm st1 st2 Hsim).
  destruct (m st1) as [[a1|e1] st1'], (m st2) as [[a2|e2] st2']; try contradiction.
  - destruct Hm as [-> Hsim']. split; [reflexivity|].
    eapply similar_weaken; eassumption.
  - exact Hm.
Qed.

Lemma same_run_if {A} v X S b b1 b2 (c : bool) (m1 m2 : M A) :
  same_run v X S b b1 m1 -> same_run v X S b b2 m2 ->
  same_run v X S b (b1 && b2) (if c then m1 else m2).
Proof.
  intros H1 H2. destruct c.
  - eapply same_run_weaken; [exact H1|]. now intros [? _]%andb_prop.
  - eapply same_run_weaken; [exact H2|]. now intros [_ ?]%andb_prop.
Qed.

Lemma same_run_foldM {A T} v X S b b1 (body : A -> T -> M T) l :
  (forall a s, same_run v X S b b1 (body a s)) -> (b = true -> b1 = true) ->
  forall s, same_run v X S b b (foldM body l s).
Proof.
  intros Hbody Hb. induction l as [|a l IH]; intros s; cbn [foldM].
  - apply same_run_ret.
  - eapply same_run_bind; [|exact IH].
    eapply same_run_weaken; [apply Hbody|exact Hb].
Qed.

Lemma same_run_for_each {A} v X S b b1 (body : A -> M unit) l :
  (forall a, same_run v X S b b1 (body a)) -> (b = true -> b1 = true) ->
  same_run v X S b b (for_each l body).
Proof. intros Hbody Hb. eapply same_run_foldM; [|exact Hb]. intros a _. apply Hbody. Qed.

Lemma same_run_mapM {A B} v X S b (f : A -> M B) l :
  (forall a, In a l -> same_run v X S b b (f a)) -> same_run v X S b b (mapM f l).
Proof.
  induction l as [|a l IH]; intros Hf; cbn [mapM].
  - apply same_run_ret.
  - eapply same_run_bind; [apply Hf; now left|]. intros y.
    eapply same_run_bind; [apply IH; intros; apply Hf; now right|].
    intros ys. apply same_run_ret.
Qed.

Lemma same_run_checkInitialized v X S b points :
  (forall p, In p points -> In p X) ->
  same_run v X S b b (checkInitialized points).
Proof.
  induction points as [|p rest IH]; intros HX; cbn [checkInitialized].
  - apply same_run_ret.
  - eapply same_run_bind; [apply same_run_loadPoint; left; apply HX; now left|].
    intros pv. destruct (p3_uninitialized pv); [apply same_run_throw|].
    apply IH. intros; apply HX; now right.
Qed.

Lemma same_run_checkLengths v X S b scalars points :
  same_run v X S b b (checkLengths scalars points).
Proof.
  unfold checkLengths. destruct (negb _); [apply same_run_throw|apply same_run_ret].
Qed.

(** The results of two runs from stores that agree on the arguments. *)
Lemma same_run_result v X S (m : M loc) st1 st2 :
  same_run v X S false true m ->
  similar v X S false st1 st2 ->
  same_result v (m st1) (m st2).
Proof.
  intros Hm Hsim. specialize (Hm st1 st2 Hsim). unfold same_result.
  destruct (m st1) as [[a1|e1] st1'], (m st2) as [[a2|e2] st2']; try contradiction.
  - destruct Hm as [-> (_ & _ & Hpt)]. split; [reflexivity|]. now apply Hpt.
  - exact Hm.
Qed.
End SameRun.

Ltac same_run_flags :=
  intros;
  first [ reflexivity
        | match goal with H : false = true |- _ => discriminate H end ].

Ltac same_run_step :=
  lazymatch goal with
  | |- _ = true -> _ = true => fail
  | |- forall _, _ => intro
  | |- same_run _ _ _ _ _ (ret _) => apply same_run_ret
  | |- same_run _ _ _ _ _ (throw _) => apply same_run_throw
  | |- same_run _ _ _ _ _ (tick _) => apply same_run_tick
  | |- same_run _ _ _ _ _ (loadPoint _) =>
      apply same_run_loadPoint;
      first [ right; split; reflexivity | left; assumption | left; cbn; now auto 8 ]
  | |- same_run _ _ _ _ _ (loadScalar _) =>
      apply same_run_loadScalar; first [ assumption | cbn; now auto 8 ]
  | |- same_run _ _ _ _ _ (checkInitialized _) =>
      apply same_run_checkInitialized; cbn; now auto 8
  | |- same_run _ _ _ _ _ (mapM _ _) => apply same_run_mapM
  | |- same_run _ _ _ _ _ (storePoint _ _) => apply same_run_storePoint
  | |- same_run _ _ _ _ _ (checkLengths _ _) => apply same_run_checkLengths
  | |- same_run _ _ _ _ _ (bind _ _) => eapply same_run_bind
  | |- same_run _ _ _ _ _ (if _ then _ else _) => eapply same_run_if
  | |- same_run _ _ _ _ _ (let _ := _ in _) => cbv zeta
  | |- same_run _ _ _ _ _ (foldM _ _ _) =>
      eapply same_run_foldM
  | |- same_run _ _ _ _ _ (for_each _ _) =>
      eapply same_run_for_each
  end.

Ltac same_run_tac :=
  schedule_steps; layer_calls; repeat same_run_step; same_run_flags.

Section ScheduleDependencies.
Context {ops : PointOps}.

Lemma ScalarBaseMult_same_run v x :
  same_run v [] [x] false true (ScalarBaseMult v x).
Proof. unfold ScalarBaseMult. same_run_tac. Qed.

Lemma ScalarMult_same_run v x q :
  same_run v [q] [x] false true (ScalarMult v x q).
Proof. unfold ScalarMult. same_run_tac. Qed.

Lemma VarTimeDoubleScalarBaseMult_same_run v a A b :
  same_run v [A] [a; b] false true (VarTimeDoubleScalarBaseMult v a A b).
Proof. unfold VarTimeDoubleScalarBaseMult. same_run_tac. Qed.

Lemma VarTimeMultiScalarMult_same_run v scalars points :
  same_run v points scalars false true (VarTimeMultiScalarMult v scalars points).
Proof. unfold VarTimeMultiScalarMult. same_run_tac. Qed.
End ScheduleDependencies.

(** * What the schedules emit *)

Section Emits.
Context {ops : PointOps}.
Local Open Scope prog_scope.

Lemma emits_ret {A} (a : A) : emits [] (ret a).
Proof. intros st. exists a, st. now rewrite app_nil_r. Qed.

Lemma emits_tick e : emits [e] (tick e).
Proof. intros st. eexists _, _. split; reflexivity. Qed.

Lemma emits_loadPoint l : emits [] (loadPoint l).
Proof. intros st. eexists _, _. split; [reflexivity|]. now rewrite app_nil_r. Qed.

Lemma emits_loadScalar l : emits [] (loadScalar l).
Proof. intros st. eexists _, _. split; [reflexivity|]. now rewrite app_nil_r. Qed.

Lemma emits_storePoint l p : emits [] (storePoint l p).
Proof. intros st. eexists _, _. split; [reflexivity|]. cbn. now rewrite app_nil_r. Qed.

Lemma emits_bind {A B} T1 T2 (m : M A) (k : A -> M B) :
  emits T1 m -> (forall a, emits T2 (k a)) -> emits (T1 ++ T2) (bind m k).
Proof.
  intros Hm Hk st. destruct (Hm st) as (a & st1 & Hrun & Htr).
  destruct (Hk a st1) as (b & st2 & Hrun2 & Htr2).
  exists b, st2. split.
  - unfold bind. now rewrite Hrun.
  - now rewrite Htr2, Htr, app_assoc.
Qed.

Lemma emits_eq {A} T T' (m : M A) : emits T m -> T = T' -> emits T' m.
Proof. now intros H <-. Qed.

Lemma emits_foldM {A S} T (body : A -> S -> M S) l :
  (forall a s, emits T (body a s)) ->
  forall s, emits (concat (replicate (length l) T)) (foldM body l s).
Proof.
  intros Hbody. induction l as [|a l IH]; intros s; cbn [foldM length replicate concat].
  - apply emits_ret.
  - apply emits_bind; [apply Hbody|exact IH].
Qed.

Lemma emits_for_each {A} T (body : A -> M unit) l :
  (forall a, emits T (body a)) ->
  emits (concat (replicate (length l) T)) (for_each l body).
Proof. intros Hbody. apply emits_foldM. intros a _. apply Hbody. Qed.

Lemma emits_trace {A} T (m : M A) st :
  emits T m -> st_trace (snd (m st)) = st_trace st ++ T.
Proof. intros Hm. destruct (Hm st) as (a & st' & -> & Htr). exact Htr. Qed.

Lemma emitted_app {A} st (r : outcome A * state) T :
  st_trace (snd r) = st_trace st ++ T -> emitted st r = T.
Proof. unfold emitted. intros ->. now rewrite drop_app_length. Qed.

(** *** Doublings *)

Lemma doublings_app t1 t2 : doublings (t1 ++ t2) = (doublings t1 + doublings t2)%nat.
Proof. unfold doublings. now rewrite List.filter_app, List.length_app. Qed.

Lemma doubles_of_emits {A} T (m : M A) : emits T m -> doubles (doublings T) m.
Proof.
  intros Hm st. destruct (Hm st) as (a & st' & Hrun & Htr).
  exists a, st', T. auto.
Qed.

Lemma doubles_tick e : is_double e = false -> doubles 0 (tick e).
Proof.
  intros He st. eexists _, _, [e]. repeat split.
  unfold doublings. cbn. now rewrite He.
Qed.

Lemma doubles_tick_double : doubles 1 (tick EvDouble).
Proof. intros st. eexists _, _, [EvDouble]. repeat split. Qed.

Lemma doubles_quiet {A} (m : M A) : emits [] m -> doubles 0 m.
Proof. apply (doubles_of_emits []). Qed.

Lemma doubles_bind {A B} n1 n2 (m : M A) (k : A -> M B) :
  doubles n1 m -> (forall a, doubles n2 (k a)) -> doubles (n1 + n2) (bind m k).
Proof.
  intros Hm Hk st. destruct (Hm st) as (a & st1 & T1 & Hrun & Htr & Hn1).
  destruct (Hk a st1) as (b & st2 & T2 & Hrun2 & Htr2 & Hn2).
  exists b, st2, (T1 ++ T2). split; [|split].
  - unfold bind. now rewrite Hrun.
  - now rewrite Htr2, Htr, app_assoc.
  - rewrite doublings_app. lia.
Qed.

Lemma doubles_if {A} n1 n2 (c : bool) (m1 m2 : M A) :
  doubles n1 m1 -> doubles n2 m2 -> n1 = n2 -> doubles n1 (if c then m1 else m2).
Proof. intros H1 H2 <-. now destruct c. Qed.

Lemma doubles_eq {A} n n' (m : M A) : doubles n m -> n = n' -> doubles n' m.
Proof. now intros H <-. Qed.

Lemma doubles_foldM {A S} n (body : A -> S -> M S) l :
  (forall a s, doubles n (body a s)) ->
  forall s, doubles (length l * n) (foldM body l s).
Proof.
  intros Hbody. induction l as [|a l IH]; intros s; cbn [foldM length Nat.mul].
  - apply doubles_quiet, emits_ret.
  - apply doubles_bind; [apply Hbody|exact IH].
Qed.
End Emits.

Ltac emits_step :=
  lazymatch goal with
  | |- forall _, _ => intro
  | |- emits _ (ret _) => apply emits_ret
  | |- emits _ (tick _) => apply emits_tick
  | |- emits _ (loadPoint _) => apply emits_loadPoint
  | |- emits _ (loadScalar _) => apply emits_loadScalar
  | |- emits _ (storePoint _ _) => apply emits_storePoint
  | |- emits _ (bind _ _) => eapply emits_bind
  | |- emits _ (let _ := _ in _) => cbv zeta
  | |- emits _ (foldM _ _ _) => eapply emits_foldM
  | |- emits _ (for_each _ _) => eapply emits_for_each
  end.

Ltac emits_tac := schedule_steps; layer_calls; repeat emits_step.

Ltac doubles_step :=
  lazymatch goal with
  | |- @eq nat _ _ => fail
  | |- forall _, _ => intro
  | |- doubles _ (ret _) => apply doubles_quiet, emits_ret
  | |- doubles _ (loadPoint _) => apply doubles_quiet, emits_loadPoint
  | |- doubles _ (loadScalar _) => apply doubles_quiet, emits_loadScalar
  | |- doubles _ (storePoint _ _) => apply doubles_quiet, emits_storePoint
  | |- doubles _ (tick EvDouble) => apply doubles_tick_double
  | |- doubles _ (tick _) => apply doubles_tick; reflexivity
  | |- doubles _ (bind _ _) => eapply doubles_bind
  | |- doubles _ (if _ then _ else _) => eapply doubles_if
  | |- doubles _ (let _ := _ in _) => cbv zeta
  | |- doubles _ (foldM _ _ _) => eapply doubles_foldM
  end.

Ltac doubles_tac :=
  schedule_steps; layer_calls; repeat doubles_step; try reflexivity.

Section ScheduleTraces.
Context {ops : PointOps}.
Local Open Scope prog_scope.

Lemma ScalarBaseMult_emits v x : emits ScalarBaseMult_schedule (ScalarBaseMult v x).
Proof.
  unfold ScalarBaseMult. eapply emits_eq; [emits_tac|reflexivity].
Qed.

Lemma ScalarMult_trace v x q st :
  p3_uninitialized (st_points st q) = false ->
  st_trace (snd (ScalarMult v x q st)) = st_trace st ++ ScalarMult_schedule.
Proof.
  intros Hq. unfold ScalarMult.
  rewrite (bind_run _ _ st tt st) by (apply checkInitialized_ok; now repeat constructor).
  apply emits_trace. eapply emits_eq; [emits_tac|reflexivity].
Qed.

Lemma MultiScalarMult_trace v scalars points st :
  length scalars = length points ->
  Forall (fun p => p3_uninitialized (st_points st p) = false) points ->
  st_trace (snd (MultiScalarMult v scalars points st))
  = st_trace st ++ MultiScalarMult_schedule (length points).
Proof.
  intros Hlen Hinit. unfold MultiScalarMult.
  rewrite (bind_run _ _ st tt st) by now apply checkLengths_ok.
  rewrite (bind_run _ _ st tt st) by now apply checkInitialized_ok.
  erewrite bind_run by apply tables_run.
  erewrite bind_run by apply digits_run.
  cbn [st_points st_scalars st_trace].
  set (tables := map _ points). set (digits := map _ scalars).
  assert (Hn : length (zip tables digits) = length points).
  { unfold tables, digits. rewrite length_zip_with_l_eq; rewrite !length_map; auto. }
  match goal with
  | |- st_trace (snd (?m ?st0)) = _ =>
      rewrite (emits_trace
                 (MultiScalarMult_adds (length points) ++ [EvP2FromP3]
                  ++ concat (replicate 63
                       (quadruple ++ [EvP3FromP1xP1]
                        ++ MultiScalarMult_adds (length points) ++ [EvP2FromP3])))
                 m st0)
  end.
  - cbn [st_trace]. unfold MultiScalarMult_schedule.
    rewrite <- !app_assoc. f_equal.
    replace (map (fun _ => EvTableFromP3) points) with (replicate (length points) EvTableFromP3).
    2:{ clear. induction points; cbn; congruence. }
    f_equal.
    replace (map (fun _ => EvSignedRadix16) scalars) with (replicate (length points) EvSignedRadix16).
    2:{ rewrite <- Hlen. clear. induction scalars; cbn; congruence. }
    reflexivity.
  - unfold MultiScalarMult_adds. rewrite <- Hn.
    eapply emits_eq; [emits_tac|].
    cbn [length downfrom]. rewrite ?app_nil_r, ?app_nil_l. reflexivity.
Qed.

Lemma VarTimeDoubleScalarBaseMult_doublings v a A b st :
  p3_uninitialized (st_points st A) = false ->
  doublings (emitted st (VarTimeDoubleScalarBaseMult v a A b st)) = 256%nat.
Proof.
  intros HA. unfold VarTimeDoubleScalarBaseMult.
  rewrite (bind_run _ _ st tt st) by (apply checkInitialized_ok; now repeat constructor).
  match goal with
  | |- doublings (emitted st (?m st)) = _ =>
      assert (Hd : doubles 256 m)
  end.
  { eapply doubles_eq; [doubles_tac|]. reflexivity. }
  destruct (Hd st) as (r & st' & T & -> & Htr & Hn).
  rewrite (emitted_app st (Ok r, st') T Htr). exact Hn.
Qed.
End ScheduleTraces.

(** * How the schedules fail *)

Section Panics.
Context {ops : PointOps}.
Local Open Scope prog_scope.

Lemma panics_only_ret {A} P (a : A) : panics_only P (ret a).
Proof. intros st e st' H. discriminate H. Qed.

Lemma panics_only_throw {A} (P : panic -> Prop) e :
  P e -> panics_only P (@throw _ A e).
Proof. intros He st e' st' H. now inversion H; subst. Qed.

Lemma panics_only_tick P e : panics_only P (tick e).
Proof. intros st e' st' H. discriminate H. Qed.

Lemma panics_only_loadPoint P l : panics_only P (loadPoint l).
Proof. intros st e' st' H. discriminate H. Qed.

Lemma panics_only_loadScalar P l : panics_only P (loadScalar l).
Proof. intros st e' st' H. discriminate H. Qed.

Lemma panics_only_storePoint P l p : panics_only P (storePoint l p).
Proof. intros st e' st' H. discriminate H. Qed.

Lemma panics_only_bind {A B} P (m : M A) (k : A -> M B) :
  panics_only P m -> (forall a, panics_only P (k a)) -> panics_only P (bind m k).
Proof.
  intros Hm Hk st e st' H. unfold bind in H.
  destruct (m st) as [[a|e1] st1] eqn:E.
  - eapply Hk; eassumption.
  - inversion H; subst. eapply Hm; eassumption.
Qed.

Lemma panics_only_foldM {A S} P (body : A -> S -> M S) l :
  (forall a s, panics_only P (body a s)) -> forall s, panics_only P (foldM body l s).
Proof.
  intros Hbody. induction l as [|a l IH]; intros s; cbn [foldM].
  - apply panics_only_ret.
  - apply panics_only_bind; [apply Hbody|exact IH].
Qed.

Lemma panics_only_for_each {A} P (body : A -> M unit) l :
  (forall a, panics_only P (body a)) -> panics_only P (for_each l body).
Proof. intros Hbody. apply panics_only_foldM. intros a _. apply Hbody. Qed.

Lemma panics_only_mapM {A B} P (f : A -> M B) l :
  (forall a, panics_only P (f a)) -> panics_only P (mapM f l).
Proof.
  intros Hf. induction l as [|a l IH]; cbn [mapM].
  - apply panics_only_ret.
  - apply panics_only_bind; [apply Hf|]. intros b.
    apply panics_only_bind; [exact IH|]. intros bs. apply panics_only_ret.
Qed.

Lemma panics_only_checkInitialized (P : panic -> Prop) points :
  P UninitializedPoint -> panics_only P (checkInitialized points).
Proof.
  intros HP. induction points as [|p rest IH]; cbn [checkInitialized].
  - apply panics_only_ret.
  - apply panics_only_bind; [apply panics_only_loadPoint|]. intros pv.
    destruct (p3_uninitialized pv); [now apply panics_only_throw|exact IH].
Qed.
End Panics.

Ltac panics_only_step :=
  lazymatch goal with
  | |- forall _, _ => intro
  | |- panics_only _ (ret _) => apply panics_only_ret
  | |- panics_only _ (tick _) => apply panics_only_tick
  | |- panics_only _ (loadPoint _) => apply panics_only_loadPoint
  | |- panics_only _ (loadScalar _) => apply panics_only_loadScalar
  | |- panics_only _ (storePoint _ _) => apply panics_only_storePoint
  | |- panics_only _ (checkInitialized _) =>
      apply panics_only_checkInitialized; reflexivity
  | |- panics_only _ (bind _ _) => apply panics_only_bind
  | |- panics_only _ (foldM _ _ _) => apply panics_only_foldM
  | |- panics_only _ (for_each _ _) => apply panics_only_for_each
  | |- panics_only _ (mapM _ _) => apply panics_only_mapM
  | |- panics_only _ (if ?c then _ else _) => destruct c
  | |- panics_only _ (let _ := _ in _) => cbv zeta
  end.

Ltac panics_only_tac := schedule_steps; layer_calls; repeat panics_only_step.

Section SchedulePanics.
Context {ops : PointOps}.
Local Open Scope prog_scope.

(** With sequences of different lengths the call stops at its first
    statement. *)
Lemma MultiScalarMult_mismatch v scalars points st :
  length scalars <> length points ->
  MultiScalarMult v scalars points st = (Panic LengthMismatch, st).
Proof.
  intros Hlen. unfold MultiScalarMult.
  apply bind_panic. now apply checkLengths_panic.
Qed.

Lemma VarTimeMultiScalarMult_mismatch v scalars points st :
  length scalars <> length points ->
  VarTimeMultiScalarMult v scalars points st = (Panic LengthMismatch, st).
Proof.
  intros Hlen. unfold VarTimeMultiScalarMult.
  apply bind_panic. now apply checkLengths_panic.
Qed.

(** With sequences of equal lengths the only panic left is the one of
    [checkInitialized]. *)
Lemma MultiScalarMult_matched v scalars points st :
  length scalars = length points ->
  fst (MultiScalarMult v scalars points st) <> Panic LengthMismatch.
Proof.
  intros Hlen. unfold MultiScalarMult.
  rewrite (bind_run _ _ st tt st) by now apply checkLengths_ok.
  match goal with
  | |- fst (?m st) <> _ =>
      assert (Hp : panics_only (eq UninitializedPoint) m) by panics_only_tac
  end.
  match goal with
  | |- fst (?m st) <> _ => destruct (m st) as [[r|e] st'] eqn:E
  end; cbn [fst]; [discriminate|].
  specialize (Hp st e st' E). subst e. discriminate.
Qed.

Lemma VarTimeMultiScalarMult_matched v scalars points st :
  length scalars = length points ->
  fst (VarTimeMultiScalarMult v scalars points st) <> Panic LengthMismatch.
Proof.
  intros Hlen. unfold VarTimeMultiScalarMult.
  rewrite (bind_run _ _ st tt st) by now apply checkLengths_ok.
  match goal with
  | |- fst (?m st) <> _ =>
      assert (Hp : panics_only (eq UninitializedPoint) m) by panics_only_tac
  end.
  match goal with
  | |- fst (?m st) <> _ => destruct (m st) as [[r|e] st'] eqn:E
  end; cbn [fst]; [discriminate|].
  specialize (Hp st e st' E). subst e. discriminate.
Qed.

(** An uninitialized point stops the call at [checkInitialized]. *)
Lemma ScalarMult_uninitialized v x q st :
  p3_uninitialized (st_points st q) = true ->
  ScalarMult v x q st = (Panic UninitializedPoint, st).
Proof.
  intros Hq. unfold ScalarMult. apply bind_panic.
  apply checkInitialized_panic. now constructor.
Qed.

Lemma VarTimeDoubleScalarBaseMult_uninitialized v a A b st :
  p3_uninitialized (st_points st A) = true ->
  VarTimeDoubleScalarBaseMult v a A b st = (Panic UninitializedPoint, st).
Proof.
  intros HA. unfold VarTimeDoubleScalarBaseMult. apply bind_panic.
  apply checkInitialized_panic. now constructor.
Qed.

Lemma MultiScalarMult_uninitialized v scalars points st :
  length scalars = length points ->
  Exists (fun p => p3_uninitialized (st_points st p) = true) points ->
  MultiScalarMult v scalars points st = (Panic UninitializedPoint, st).
Proof.
  intros Hlen Hex. unfold MultiScalarMult.
  rewrite (bind_run _ _ st tt st) by now apply checkLengths_ok.
  apply bind_panic. now apply checkInitialized_panic.
Qed.

Lemma VarTimeMultiScalarMult_uninitialized v scalars points st :
  length scalars = length points ->
  Exists (fun p => p3_uninitialized (st_points st p) = true) points ->
  VarTimeMultiScalarMult v scalars points st = (Panic UninitializedPoint, st).
Proof.
  intros Hlen Hex. unfold VarTimeMultiScalarMult.
  rewrite (bind_run _ _ st tt st) by now apply checkLengths_ok.
  apply bind_panic. now apply checkInitialized_panic.
Qed.
End SchedulePanics.

(** * Lemmas for the further properties *)

(** ** Calls that return *)

Section Returns.
Context {ops : PointOps}.
Local Open Scope prog_scope.

Lemma returns_ret {A} (Q : A -> Prop) (a : A) : Q a -> returns Q (ret a).
Proof. intros HQ st. now exists a, st. Qed.

Lemma returns_of_emits {A} T (m : M A) : emits T m -> returns (fun _ => True) m.
Proof. intros He st. destruct (He st) as (a & st' & E & _). now exists a, st'. Qed.

Lemma returns_bind {A B} (Q : B -> Prop) (m : M A) (k : A -> M B) :
  returns (fun _ => True) m -> (forall a, returns Q (k a)) -> returns Q (bind m k).
Proof.
  intros Hm Hk st. destruct (Hm st) as (a & st1 & E1 & _).
  destruct (Hk a st1) as (b & st2 & E2 & HQ).
  exists b, st2. split; [|exact HQ]. unfold bind. now rewrite E1.
Qed.

Lemma returns_foldM {A S} (body : A -> S -> M S) l :
  (forall a s, returns (fun _ => True) (body a s)) ->
  forall s, returns (fun _ => True) (foldM body l s).
Proof.
  intros Hb. induction l as [|a l IH]; intros s; cbn [foldM].
  - now apply returns_ret.
  - apply returns_bind; [apply Hb|exact IH].
Qed.

Lemma returns_for_each {A} (body : A -> M unit) l :
  (forall a, returns (fun _ => True) (body a)) ->
  returns (fun _ => True) (for_each l body).
Proof. intros Hb. unfold for_each. apply returns_foldM. intros a _. apply Hb. Qed.

Lemma returns_mapM {A B} (f : A -> M B) l :
  (forall a, returns (fun _ => True) (f a)) -> returns (fun _ => True) (mapM f l).
Proof.
  intros Hf. induction l as [|a l IH]; cbn [mapM].
  - now apply returns_ret.
  - apply returns_bind; [apply Hf|]. intros b.
    apply returns_bind; [exact IH|]. intros bs. now apply returns_ret.
Qed.

Lemma returns_run (v : loc) (m : M loc) st : returns (eq v) m -> fst (m st) = Ok v.
Proof. intros Hm. destruct (Hm st) as (a & st' & -> & <-). reflexivity. Qed.
End Returns.

Ltac returns_step :=
  lazymatch goal with
  | |- forall _, _ => intro
  | |- returns _ (ret _) => apply returns_ret; first [reflexivity | exact I]
  | |- returns _ (tick _) => eapply returns_of_emits, emits_tick
  | |- returns _ (loadPoint _) => eapply returns_of_emits, emits_loadPoint
  | |- returns _ (loadScalar _) => eapply returns_of_emits, emits_loadScalar
  | |- returns _ (storePoint _ _) => eapply returns_of_emits, emits_storePoint
  | |- returns _ (bind _ _) => apply returns_bind
  | |- returns _ (foldM _ _ _) => apply returns_foldM
  | |- returns _ (for_each _ _) => apply returns_for_each
  | |- returns _ (mapM _ _) => apply returns_mapM
  | |- returns _ (if ?c then _ else _) => destruct c
  | |- returns _ (let _ := _ in _) => cbv zeta
  end.

Ltac returns_tac := schedule_steps; layer_calls; repeat returns_step.

Section ScheduleReturns.
Context {ops : PointOps}.
Local Open Scope prog_scope.

Lemma ScalarBaseMult_returns v x st : fst (ScalarBaseMult v x st) = Ok v.
Proof. apply returns_run. unfold ScalarBaseMult. returns_tac. Qed.

Lemma ScalarMult_returns v x q st :
  p3_uninitialized (st_points st q) = false -> fst (ScalarMult v x q st) = Ok v.
Proof.
  intros Hq. unfold ScalarMult.
  rewrite (bind_run _ _ st tt st) by (apply checkInitialized_ok; now repeat constructor).
  apply returns_run. returns_tac.
Qed.

Lemma VarTimeDoubleScalarBaseMult_returns v a A b st :
  p3_uninitialized (st_points st A) = false ->
  fst (VarTimeDoubleScalarBaseMult v a A b st) = Ok v.
Proof.
  intros HA. unfold VarTimeDoubleScalarBaseMult.
  rewrite (bind_run _ _ st tt st) by (apply checkInitialized_ok; now repeat constructor).
  apply returns_run. returns_tac.
Qed.

Lemma MultiScalarMult_returns v scalars points st :
  length scalars = length points ->
  Forall (fun p => p3_uninitialized (st_points st p) = false) points ->
  fst (MultiScalarMult v scalars points st) = Ok v.
Proof.
  intros Hlen Hinit. unfold MultiScalarMult.
  rewrite (bind_run _ _ st tt st) by now apply checkLengths_ok.
  rewrite (bind_run _ _ st tt st) by now apply checkInitialized_ok.
  apply returns_run. returns_tac.
Qed.

Lemma VarTimeMultiScalarMult_returns v scalars points st :
  length scalars = length points ->
  Forall (fun p => p3_uninitialized (st_points st p) = false) points ->
  fst (VarTimeMultiScalarMult v scalars points st) = Ok v.
Proof.
  intros Hlen Hinit. unfold VarTimeMultiScalarMult.
  rewrite (bind_run _ _ st tt st) by now apply checkLengths_ok.
  rewrite (bind_run _ _ st tt st) by now apply checkInitialized_ok.
  apply returns_run. returns_tac.
Qed.

Lemma uninitialized_or_not (points : list loc) st :
  Forall (fun p => p3_uninitialized (st_points st p) = false) points \/
  Exists (fun p => p3_uninitialized (st_points st p) = true) points.
Proof.
  induction points as [|p points IH]; [left; constructor|].
  destruct (p3_uninitialized (st_points st p)) eqn:E.
  - right. now constructor.
  - destruct IH as [IH|IH]; [left|right]; now constructor.
Qed.
End ScheduleReturns.

(** ** The events of the variable-time operations *)

Section VarTimeTraces.
Context {ops : PointOps}.
Local Open Scope prog_scope.
Local Opaque nonAdjacentForm.

Lemma emits_foldM_map {A S} (T : A -> list event) (body : A -> S -> M S) l :
  (forall a s, emits (T a) (body a s)) ->
  forall s, emits (concat (map T l)) (foldM body l s).
Proof.
  intros Hb. induction l as [|a l IH]; intros s; cbn [foldM map concat].
  - apply emits_ret.
  - apply emits_bind; [apply Hb|exact IH].
Qed.

Lemma VarTime_update_emits v table d tmp1 :
  emits (VarTime_update_events d) (VarTime_update v table d tmp1).
Proof.
  unfold VarTime_update, VarTime_update_events.
  destruct (0 <? d); [|destruct (d <? 0)];
    (eapply emits_eq; [emits_tac|reflexivity]).
Qed.

Lemma VarTime_updateBase_emits v d tmp1 :
  emits (VarTime_updateBase_events d) (VarTime_updateBase v d tmp1).
Proof.
  unfold VarTime_updateBase, VarTime_updateBase_events.
  destruct (0 <? d); [|destruct (d <? 0)];
    (eapply emits_eq; [emits_tac|reflexivity]).
Qed.

Lemma VarTimeDoubleScalarBaseMult_step_emits v aTable aNaf bNaf i tmp2 :
  emits (VarTimeDoubleScalarBaseMult_step_events aNaf bNaf i)
        (VarTimeDoubleScalarBaseMult_step v aTable aNaf bNaf i tmp2).
Proof.
  unfold VarTimeDoubleScalarBaseMult_step, VarTimeDoubleScalarBaseMult_step_events.
  eapply emits_eq.
  - eapply emits_bind; [layer_calls; repeat emits_step|]. intros tmp1.
    eapply emits_bind; [apply VarTime_update_emits|]. intros tmp1'.
    eapply emits_bind; [apply VarTime_updateBase_emits|]. intros tmp1''.
    layer_calls; repeat emits_step.
  - cbn [app]. rewrite ?app_nil_r. reflexivity.
Qed.

Lemma VarTimeDoubleScalarBaseMult_trace v a A b st :
  p3_uninitialized (st_points st A) = false ->
  emitted st (VarTimeDoubleScalarBaseMult v a A b st)
  = VarTimeDoubleScalarBaseMult_schedule (st_scalars st a) (st_scalars st b).
Proof.
  intros HA. apply emitted_app. unfold VarTimeDoubleScalarBaseMult.
  rewrite (bind_run _ _ st tt st) by (apply checkInitialized_ok; now repeat constructor).
  unfold nafLookupTable5_FromP3 at 1, Scalar_nonAdjacentForm at 1 2.
  cbn [bind ret tick loadPoint loadScalar st_points st_scalars st_trace].
  match goal with
  | |- st_trace (snd (?m ?st0)) = _ =>
      rewrite (emits_trace
                 ([EvP2Zero]
                  ++ concat (map (VarTimeDoubleScalarBaseMult_step_events
                                    (nonAdjacentForm (st_scalars st a) 5)
                                    (nonAdjacentForm (st_scalars st b) 8))
                                 (downfrom 255))
                  ++ [EvP3FromP2]) m st0)
  end.
  - cbn [st_trace]. unfold VarTimeDoubleScalarBaseMult_schedule.
    rewrite <- !app_assoc. cbn [app]. reflexivity.
  - eapply emits_eq.
    + eapply emits_bind; [layer_calls; repeat emits_step|]. intros tmp2.
      eapply emits_bind.
      { apply emits_foldM_map. intros i s. apply VarTimeDoubleScalarBaseMult_step_emits. }
      intros tmp2'. layer_calls; repeat emits_step.
    + cbn [app]. rewrite ?app_nil_r. reflexivity.
Qed.

Lemma map_fst_zip {A B C} (f : A -> C) (l : list A) (k : list B) :
  length l = length k -> map (fun t => f (fst t)) (zip l k) = map f l.
Proof.
  revert k. induction l as [|a l IH]; intros [|b k] Hlen; try discriminate; cbn.
  - reflexivity.
  - f_equal. apply IH. now injection Hlen.
Qed.

Lemma VarTimeMultiScalarMult_step_emits v tables nafs i tmp2 :
  length nafs = length tables ->
  emits (VarTimeMultiScalarMult_step_events nafs i)
        (VarTimeMultiScalarMult_step v tables nafs i tmp2).
Proof.
  intros Hlen.
  unfold VarTimeMultiScalarMult_step, VarTimeMultiScalarMult_step_events.
  eapply emits_eq.
  - eapply emits_bind; [layer_calls; repeat emits_step|]. intros tmp1.
    eapply emits_bind.
    { apply (emits_foldM_map (fun term => VarTime_update_events (digit (fst term) i))).
      intros term s. apply VarTime_update_emits. }
    intros tmp1'. layer_calls; repeat emits_step.
  - rewrite (map_fst_zip (fun naf => VarTime_update_events (digit naf i))) by exact Hlen.
    cbn [app]. rewrite ?app_nil_r. reflexivity.
Qed.

Lemma VarTimeMultiScalarMult_trace v scalars points st :
  length scalars = length points ->
  Forall (fun p => p3_uninitialized (st_points st p) = false) points ->
  emitted st (VarTimeMultiScalarMult v scalars points st)
  = VarTimeMultiScalarMult_schedule (map (st_scalars st) scalars).
Proof.
  intros Hlen Hinit. apply emitted_app. unfold VarTimeMultiScalarMult.
  rewrite (bind_run _ _ st tt st) by now apply checkLengths_ok.
  rewrite (bind_run _ _ st tt st) by now apply checkInitialized_ok.
  erewrite bind_run by apply nafTables_run.
  erewrite bind_run by apply nafs_run.
  cbn [st_points st_scalars st_trace].
  set (tables := map _ points). set (nafs := map _ scalars).
  assert (Hn : length nafs = length tables).
  { unfold tables, nafs. now rewrite !length_map. }
  match goal with
  | |- st_trace (snd (?m ?st0)) = _ =>
      rewrite (emits_trace
                 ([EvP2Zero]
                  ++ concat (map (VarTimeMultiScalarMult_step_events nafs) (downfrom 255))
                  ++ [EvP3FromP2]) m st0)
  end.
  - cbn [st_trace]. unfold VarTimeMultiScalarMult_schedule.
    rewrite <- !app_assoc. rewrite length_map.
    replace (map (fun _ => EvNafTableFromP3) points)
      with (replicate (length scalars) EvNafTableFromP3).
    2:{ rewrite Hlen. clear. induction points; cbn; congruence. }
    unfold nafs. rewrite !List.map_map. reflexivity.
  - eapply emits_eq.
    + eapply emits_bind; [layer_calls; repeat emits_step|]. intros tmp2.
      eapply emits_bind.
      { apply emits_foldM_map. intros i s. now apply VarTimeMultiScalarMult_step_emits. }
      intros tmp2'. layer_calls; repeat emits_step.
    + cbn [app]. rewrite ?app_nil_r. reflexivity.
Qed.
End VarTimeTraces.

(** ** Counting additions and doublings *)

Section Counting.
Lemma additions_app t1 t2 : additions (t1 ++ t2) = (additions t1 + additions t2)%nat.
Proof. unfold additions. now rewrite List.filter_app, List.length_app. Qed.

Lemma nonzero_digits_cons d ds :
  nonzero_digits (d :: ds) = ((if (d =? 0)%Z then 0 else 1) + nonzero_digits ds)%nat.
Proof. unfold nonzero_digits. cbn [List.filter]. now destruct (d =? 0). Qed.

Lemma nonzero_digits_take_S ds : forall n,
  (n < length ds)%nat ->
  nonzero_digits (take (S n) ds)
  = (nonzero_digits (take n ds) + (if (digit ds n =? 0)%Z then 0 else 1))%nat.
Proof.
  induction ds as [|d ds IH]; intros n Hn; [cbn in Hn; lia|].
  destruct n as [|n].
  - cbn [take]. rewrite take_0, nonzero_digits_cons. unfold digit. cbn [nth].
    unfold nonzero_digits. cbn. lia.
  - change (take (S (S n)) (d :: ds)) with (d :: take (S n) ds).
    change (take (S n) (d :: ds)) with (d :: take n ds).
    rewrite !nonzero_digits_cons, IH by (cbn in Hn; lia).
    unfold digit. cbn [nth]. lia.
Qed.

Lemma VarTime_update_additions d :
  additions (VarTime_update_events d) = if d =? 0 then 0%nat else 1%nat.
Proof.
  unfold VarTime_update_events.
  destruct (0 <? d) eqn:E1; [|destruct (d <? 0) eqn:E2];
    destruct (d =? 0) eqn:E3; try reflexivity; lia.
Qed.

Lemma VarTime_updateBase_additions d :
  additions (VarTime_updateBase_events d) = if d =? 0 then 0%nat else 1%nat.
Proof.
  unfold VarTime_updateBase_events.
  destruct (0 <? d) eqn:E1; [|destruct (d <? 0) eqn:E2];
    destruct (d =? 0) eqn:E3; try reflexivity; lia.
Qed.

Lemma VarTime_update_doublings d : doublings (VarTime_update_events d) = 0%nat.
Proof.
  unfold VarTime_update_events.
  destruct (0 <? d); [|destruct (d <? 0)]; reflexivity.
Qed.

Lemma VarTimeDoubleScalarBaseMult_loop_additions aNaf bNaf n :
  (n <= length aNaf)%nat -> (n <= length bNaf)%nat ->
  additions (concat (map (VarTimeDoubleScalarBaseMult_step_events aNaf bNaf) (below n)))
  = (nonzero_digits (take n aNaf) + nonzero_digits (take n bNaf))%nat.
Proof.
  induction n as [|n IH]; intros Ha Hb.
  - now rewrite !take_0.
  - cbn [below map concat]. rewrite additions_app, IH by lia.
    rewrite !nonzero_digits_take_S by lia.
    unfold VarTimeDoubleScalarBaseMult_step_events.
    rewrite !additions_app, VarTime_update_additions, VarTime_updateBase_additions.
    change (additions [EvDouble]) with 0%nat.
    change (additions [EvP2FromP1xP1]) with 0%nat. lia.
Qed.

Lemma VarTimeMultiScalarMult_step_additions nafs n :
  Forall (fun naf => (n < length naf)%nat) nafs ->
  (additions (VarTimeMultiScalarMult_step_events nafs n)
   + list_sum (map (fun naf => nonzero_digits (take n naf)) nafs))%nat
  = list_sum (map (fun naf => nonzero_digits (take (S n) naf)) nafs).
Proof.
  unfold VarTimeMultiScalarMult_step_events.
  rewrite !additions_app.
  change (additions [EvDouble]) with 0%nat.
  change (additions [EvP2FromP1xP1]) with 0%nat.
  induction 1 as [|naf nafs Hnaf _ IH]; [reflexivity|].
  cbn [map concat list_sum].
  rewrite additions_app, VarTime_update_additions, nonzero_digits_take_S by exact Hnaf.
  unfold list_sum in *. cbn [fold_right]. lia.
Qed.

Lemma VarTimeMultiScalarMult_loop_additions nafs n :
  Forall (fun naf => (n <= length naf)%nat) nafs ->
  additions (concat (map (VarTimeMultiScalarMult_step_events nafs) (below n)))
  = list_sum (map (fun naf => nonzero_digits (take n naf)) nafs).
Proof.
  induction n as [|n IH]; intros Hlen.
  - cbn [below map concat]. clear. induction nafs as [|naf nafs IH]; [reflexivity|].
    cbn [map]. rewrite take_0. unfold list_sum in *. cbn [fold_right]. now rewrite <- IH.
  - cbn [below map concat]. rewrite additions_app, IH.
    + apply VarTimeMultiScalarMult_step_additions.
      eapply List.Forall_impl; [|exact Hlen]. cbn. intros; lia.
    + eapply List.Forall_impl; [|exact Hlen]. cbn. intros; lia.
Qed.

Lemma VarTimeMultiScalarMult_loop_doublings nafs l :
  doublings (concat (map (VarTimeMultiScalarMult_step_events nafs) l)) = length l.
Proof.
  induction l as [|i l IH]; [reflexivity|].
  cbn [map concat length]. rewrite doublings_app, IH.
  unfold VarTimeMultiScalarMult_step_events. rewrite !doublings_app.
  assert (H : doublings (concat (map (fun naf => VarTime_update_events (digit naf i)) nafs)) = 0%nat).
  { clear. induction nafs as [|naf nafs IH]; [reflexivity|].
    cbn [map concat]. now rewrite doublings_app, VarTime_update_doublings, IH. }
  rewrite H. reflexivity.
Qed.
End Counting.

(** ** The search loop, the lookups, the counts of the fixed schedules, composition *)

Section SearchLoop.
Lemma find_first_nonzero_highest aNaf bNaf i :
  match find_first_nonzero aNaf bNaf i with
  | Some j =>
      (j <= i)%nat /\ (digit aNaf j <> 0 \/ digit bNaf j <> 0) /\
      forall k, (j < k <= i)%nat -> digit aNaf k = 0 /\ digit bNaf k = 0
  | None => forall k, (k <= i)%nat -> digit aNaf k = 0 /\ digit bNaf k = 0
  end.
Proof.
  induction i as [|i IH]; cbn [find_first_nonzero].
  - destruct (digit aNaf 0 =? 0) eqn:Ea; destruct (digit bNaf 0 =? 0) eqn:Eb; cbn [negb orb].
    + intros k Hk. replace k with 0%nat by lia. lia.
    + split; [lia|]. split; [right; lia|]. intros k Hk. lia.
    + split; [lia|]. split; [left; lia|]. intros k Hk. lia.
    + split; [lia|]. split; [left; lia|]. intros k Hk. lia.
  - destruct (negb (digit aNaf (S i) =? 0) || negb (digit bNaf (S i) =? 0)) eqn:E.
    + split; [lia|]. split; [|intros k Hk; lia].
      apply orb_true_iff in E. destruct E as [E|E]; [left|right];
        apply negb_true_iff in E; lia.
    + apply orb_false_iff in E. destruct E as [Ea Eb].
      apply negb_false_iff in Ea, Eb.
      destruct (find_first_nonzero aNaf bNaf i) as [j|].
      * destruct IH as (Hj & Hnz & Hz). split; [lia|]. split; [exact Hnz|].
        intros k Hk. destruct (Nat.eq_dec k (S i)) as [->|Hne]; [lia|].
        apply Hz. lia.
      * intros k Hk. destruct (Nat.eq_dec k (S i)) as [->|Hne]; [lia|].
        apply IH. lia.
Qed.

Lemma idle_step_events aNaf bNaf k :
  digit aNaf k = 0 -> digit bNaf k = 0 ->
  VarTimeDoubleScalarBaseMult_step_events aNaf bNaf k = [EvDouble; EvP2FromP1xP1].
Proof.
  intros Ha Hb. unfold VarTimeDoubleScalarBaseMult_step_events. now rewrite Ha, Hb.
Qed.

(** The positions from [n + d - 1] down to [n] hold no digit: the loop
    over them only doubles. *)
Lemma idle_iterations aNaf bNaf n d :
  (forall k, (n <= k < n + d)%nat -> digit aNaf k = 0 /\ digit bNaf k = 0) ->
  concat (map (VarTimeDoubleScalarBaseMult_step_events aNaf bNaf) (below (d + n)))
  = concat (replicate d [EvDouble; EvP2FromP1xP1])
    ++ concat (map (VarTimeDoubleScalarBaseMult_step_events aNaf bNaf) (below n)).
Proof.
  induction d as [|d IH]; intros Hz; [reflexivity|].
  change (S d + n)%nat with (S (d + n)).
  cbn [below map concat replicate].
  destruct (Hz (d + n)%nat ltac:(lia)) as [Ha Hb].
  rewrite (idle_step_events _ _ _ Ha Hb), IH.
  - now rewrite <- app_assoc.
  - intros k Hk. apply Hz. lia.
Qed.
End SearchLoop.

Section Lookups.
Local Opaque nonAdjacentForm.

Lemma VarTime_update_lookups d :
  d = 0 \/ (Z.odd d = true /\ -16 < d < 16) ->
  Forall (lookup_in_range 16) (VarTime_update_events d).
Proof.
  intros Hd. unfold VarTime_update_events.
  destruct (0 <? d) eqn:E1; [|destruct (d <? 0) eqn:E2].
  - repeat constructor; cbn; destruct Hd as [->|[Ho Hr]]; try lia; assumption.
  - destruct Hd as [->|[Ho Hr]]; [discriminate|].
    rewrite int8_neg_small by lia.
    repeat constructor; cbn; [now rewrite odd_opp|lia|lia].
  - constructor.
Qed.

Lemma VarTimeMultiScalarMult_schedule_lookups xs :
  Forall (lookup_in_range 16) (VarTimeMultiScalarMult_schedule xs).
Proof.
  unfold VarTimeMultiScalarMult_schedule.
  rewrite !Forall_app. repeat split.
  - apply Forall_replicate. exact I.
  - apply List.Forall_forall. intros e He. apply in_map_iff in He.
    destruct He as (x & <- & _). exact I.
  - repeat constructor.
  - generalize (downfrom 255). intros l.
    induction l as [|i l IH]; [constructor|].
    cbn [map concat]. rewrite Forall_app. split; [|exact IH].
    unfold VarTimeMultiScalarMult_step_events.
    rewrite !Forall_app. repeat split; [repeat constructor| |repeat constructor].
    clear. induction xs as [|x xs IH]; [constructor|].
    cbn [map concat]. rewrite Forall_app. split; [|exact IH].
    apply VarTime_update_lookups. apply (naf_digit_cases 5 x i). lia.
  - repeat constructor.
Qed.
End Lookups.

Section ScheduleCounts.
Lemma doublings_concat_replicate n l :
  doublings (concat (replicate n l)) = (n * doublings l)%nat.
Proof.
  induction n as [|n IH]; [reflexivity|].
  cbn [replicate concat]. rewrite doublings_app, IH. lia.
Qed.

Lemma additions_concat_replicate n l :
  additions (concat (replicate n l)) = (n * additions l)%nat.
Proof.
  induction n as [|n IH]; [reflexivity|].
  cbn [replicate concat]. rewrite additions_app, IH. lia.
Qed.

Lemma doublings_replicate n e : is_double e = false -> doublings (replicate n e) = 0%nat.
Proof.
  intros He. induction n as [|n IH]; [reflexivity|].
  unfold doublings in *. cbn [replicate List.filter]. now rewrite He.
Qed.

Lemma additions_replicate n e : is_addition e = false -> additions (replicate n e) = 0%nat.
Proof.
  intros He. induction n as [|n IH]; [reflexivity|].
  unfold additions in *. cbn [replicate List.filter]. now rewrite He.
Qed.

Lemma MultiScalarMult_schedule_doublings n :
  doublings (MultiScalarMult_schedule n) = 252%nat.
Proof.
  unfold MultiScalarMult_schedule, MultiScalarMult_adds.
  rewrite !doublings_app, !doublings_concat_replicate, !doublings_app,
    !doublings_concat_replicate, !doublings_replicate by reflexivity.
  change (doublings [EvSelectConstantTime; EvAdd; EvP3FromP1xP1]) with 0%nat.
  change (doublings quadruple) with 4%nat.
  change (doublings [EvP3FromP1xP1]) with 0%nat.
  change (doublings [EvP2FromP3]) with 0%nat. lia.
Qed.

Lemma MultiScalarMult_schedule_additions n :
  additions (MultiScalarMult_schedule n) = (64 * n)%nat.
Proof.
  unfold MultiScalarMult_schedule, MultiScalarMult_adds.
  rewrite !additions_app, !additions_concat_replicate, !additions_app,
    !additions_concat_replicate, !additions_replicate by reflexivity.
  change (additions [EvSelectConstantTime; EvAdd; EvP3FromP1xP1]) with 1%nat.
  change (additions quadruple) with 0%nat.
  change (additions [EvP3FromP1xP1]) with 0%nat.
  change (additions [EvP2FromP3]) with 0%nat. lia.
Qed.
End ScheduleCounts.

Section Composition.
Context {ops : PointOps} {spec : PointSpec ops}.
Local Open Scope prog_scope.

(** A call that computes [g] into [v] without writing a scalar, followed
    by a call that reads [v]. *)
Lemma computes_then (m : M loc) (k : loc -> M loc) st v w (g h : G) :
  computes (m st) v g ->
  writes_only v m ->
  (forall st1,
      holds st1 v g -> frame v st st1 -> computes (k v st1) w h) ->
  computes (bind m k st) w h.
Proof.
  intros Hm Hw Hk. specialize (Hw st). unfold bind.
  destruct (m st) as [[r|e] st1]; cbn [computes snd] in *; [|contradiction].
  destruct Hm as [-> Hg]. now apply Hk.
Qed.

Lemma linear_combination_pair x y (g h : G) :
  linear_combination [x; y] [g; h] = gadd (zmul x g) (zmul y h).
Proof. unfold linear_combination. cbn. now rewrite gadd_zero_r. Qed.

Lemma linear_combination_single x (g : G) :
  linear_combination [x] [g] = zmul x g.
Proof. unfold linear_combination. cbn. now rewrite gadd_zero_r. Qed.
End Composition.

(** * The reference layer satisfies the specification's assumptions *)

Module ZLayerFacts.
Import ZLayer.

Lemma Z_add_assoc a b c : a + (b + c) = (a + b) + c.
Proof. lia. Qed.

Lemma Z_add_comm a b : a + b = b + a.
Proof. lia. Qed.

Lemma Z_add_zero_l a : 0 + a = a.
Proof. lia. Qed.

Lemma Z_add_neg_l a : - a + a = 0.
Proof. lia. Qed.

Definition Z_group : AbelianGroup Z := {|
  gadd := Z.add;
  gzero := 0;
  gneg := Z.opp;
  gadd_assoc := Z_add_assoc;
  gadd_comm := Z_add_comm;
  gadd_zero_l := Z_add_zero_l;
  gadd_neg_l := Z_add_neg_l
|}.

Lemma nmul_Z n g : @nmul Z Z_group n g = Z.of_nat n * g.
Proof.
  induction n as [|n IH]; [reflexivity|].
  cbn [nmul]. rewrite IH. cbn [gadd Z_group]. lia.
Qed.

Lemma zmul_Z z g : @zmul Z Z_group z g = z * g.
Proof.
  destruct z as [|p|p]; cbn [zmul]; rewrite ?nmul_Z, ?positive_nat_Z;
    cbn [gneg gzero Z_group]; lia.
Qed.

Lemma initialized p (g : Z) : p = Some g -> unassigned p = false.
Proof. now intros ->. Qed.

Lemma convert (c : option Z) (g : Z) : c = Some g -> c = Some g.
Proof. auto. Qed.

Lemma add_value (p q : option Z) (g h : Z) :
  p = Some g -> q = Some h -> lift2 Z.add p q = Some (g + h).
Proof. now intros -> ->. Qed.

Lemma sub_value (p q : option Z) (g h : Z) :
  p = Some g -> q = Some h -> lift2 Z.sub p q = Some (g + - h).
Proof. now intros -> ->. Qed.

Lemma double_value (p : option Z) (g : Z) :
  p = Some g -> lift2 Z.add p p = Some (g + g).
Proof. now intros ->. Qed.

Lemma table_value (p : option Z) (g d : Z) :
  p = Some g -> -8 <= d <= 8 -> scale p d = Some (@zmul Z Z_group d g).
Proof. intros -> _. now rewrite zmul_Z. Qed.

Lemma basepoint_value (i : nat) (d : Z) :
  (i < 32)%nat -> -8 <= d <= 8 ->
  scale (Some (16 ^ (2 * Z.of_nat i))) d
  = Some (@zmul Z Z_group (d * 16 ^ (2 * Z.of_nat i)) 1).
Proof. intros _ _. rewrite zmul_Z. cbn [scale]. f_equal. lia. Qed.

Lemma naf5_value (p : option Z) (g d : Z) :
  p = Some g -> Z.odd d = true -> 0 < d < 16 ->
  scale p d = Some (@zmul Z Z_group d g).
Proof. intros -> _ _. now rewrite zmul_Z. Qed.

Lemma naf8_value (d : Z) :
  Z.odd d = true -> 0 < d < 128 ->
  scale (Some 1) d = Some (@zmul Z Z_group d 1).
Proof. intros _ _. now rewrite zmul_Z. Qed.

Definition spec : PointSpec ops := {|
  G := Z;
  G_group := Z_group;
  generator := 1;
  P3_value := fun p : @Point ops => p;
  P1xP1_value := fun c : @projP1xP1 ops => c;
  P2_value := fun c : @projP2 ops => c;
  Cached_value := fun c : @projCached ops => c;
  Affine_value := fun c : @affineCached ops => c;
  valid_is_initialized := initialized;
  identity_value := eq_refl;
  p3_of_p1xp1_value := convert;
  p3_of_p2_value := convert;
  p2_zero_value := eq_refl;
  p2_of_p3_value := convert;
  p2_of_p1xp1_value := convert;
  p1xp1_add_value := add_value;
  p1xp1_sub_value := sub_value;
  p1xp1_add_affine_value := add_value;
  p1xp1_sub_affine_value := sub_value;
  p1xp1_double_value := double_value;
  proj_table_value := table_value;
  basepoint_table_value := basepoint_value;
  naf5_table_value := naf5_value;
  naf8_table_value := naf8_value
|}.
End ZLayerFacts.

(** * The claims of the specification *)

(** Each theorem with hypotheses is followed by an instance of it in the
    reference layer, on a store whose contents are given in full. *)
#[local] Existing Instance ZLayer.ops.
#[local] Existing Instance ZLayerFacts.Z_group.
#[local] Existing Instance ZLayerFacts.spec.

Section ScheduleEvents.
Lemma forallb_replicate {A} (f : A -> bool) n a :
  f a = true -> forallb f (replicate n a) = true.
Proof. intros Ha. induction n as [|n IH]; cbn; [reflexivity|]. now rewrite Ha, IH. Qed.

Lemma forallb_concat_replicate {A} (f : A -> bool) n l :
  forallb f l = true -> forallb f (concat (replicate n l)) = true.
Proof.
  intros Hl. induction n as [|n IH]; cbn; [reflexivity|].
  now rewrite forallb_app, Hl, IH.
Qed.

Lemma MultiScalarMult_schedule_independent n :
  forallb scalar_independent (MultiScalarMult_schedule n) = true.
Proof.
  unfold MultiScalarMult_schedule, MultiScalarMult_adds.
  rewrite !forallb_app, !forallb_replicate by reflexivity.
  rewrite !forallb_concat_replicate; [reflexivity| |reflexivity].
  rewrite !forallb_app, forallb_concat_replicate by reflexivity. reflexivity.
Qed.

Lemma count_occ_replicate_other n (a x : event) :
  a <> x -> count_occ event_eq_dec (replicate n a) x = 0%nat.
Proof.
  intros Hne. induction n as [|n IH]; cbn; [reflexivity|].
  destruct (event_eq_dec a x); [contradiction|exact IH].
Qed.

Lemma count_occ_concat_replicate n (l : list event) x :
  count_occ event_eq_dec (concat (replicate n l)) x
  = (n * count_occ event_eq_dec l x)%nat.
Proof.
  induction n as [|n IH]; cbn; [reflexivity|].
  now rewrite count_occ_app, IH.
Qed.

Lemma MultiScalarMult_schedule_selects n :
  count_occ event_eq_dec (MultiScalarMult_schedule n) EvSelectConstantTime
  = (64 * n)%nat.
Proof.
  unfold MultiScalarMult_schedule, MultiScalarMult_adds.
  rewrite !count_occ_app, !count_occ_concat_replicate, !count_occ_app.
  rewrite !count_occ_replicate_other by discriminate.
  rewrite !count_occ_concat_replicate.
  change (count_occ event_eq_dec quadruple EvSelectConstantTime) with 0%nat.
  change (count_occ event_eq_dec [EvP3FromP1xP1] EvSelectConstantTime) with 0%nat.
  change (count_occ event_eq_dec [EvP2FromP3] EvSelectConstantTime) with 0%nat.
  change (count_occ event_eq_dec [EvSelectConstantTime; EvAdd; EvP3FromP1xP1]
            EvSelectConstantTime) with 1%nat.
  lia.
Qed.
End ScheduleEvents.

(** C1: [MultiScalarMult] never resets its receiver.  Called with
    sequences of equal length of reduced scalars and valid points, on a
    receiver that holds the group element [g0], it returns the sum of the
    multiples [scalars[i] * points[i]] added to [16^63 * g0].  That is the
    sum alone only when [16^63 * g0] is the identity, which in the
    prime-order subgroup means that the receiver held the identity
    ([multiple_of_prime_order_point]); otherwise the call does not return
    the sum, and on the empty pair not the identity. *)
Theorem MultiScalarMult_adds_to_receiver
    (ops : PointOps) (spec : PointSpec ops)
    (v : loc) (scalars points : list loc) (st : state) (g0 : G) (gs : list G) :
  length scalars = length points ->
  holds st v g0 ->
  Forall2 (holds st) points gs ->
  Forall (fun x => valid_scalar (st_scalars st x)) scalars ->
  computes (MultiScalarMult v scalars points st) v
    (gadd (zmul (16 ^ 63) g0)
          (linear_combination (map (st_scalars st) scalars) gs)) /\
  (zmul (16 ^ 63) g0 <> gzero ->
   ~ computes (MultiScalarMult v scalars points st) v
       (linear_combination (map (st_scalars st) scalars) gs)).
Proof.
  intros Hlen Hv Hpts Hxs.
  pose proof (MultiScalarMult_computes v scalars points st g0 gs Hlen Hv Hpts Hxs) as Hc.
  split; [exact Hc|]. intros Hne Hsum.
  apply Hne. eapply gadd_cancel_r.
  exact (computes_unique _ _ _ _ Hc Hsum).
Qed.

(** The empty pair on a receiver that holds the generator: the receiver
    ends with [16^63] times the generator, which is not the identity. *)
Lemma MultiScalarMult_adds_to_receiver_witness :
  let st := ZLayer.store (Some 1) in
  (holds st 0%nat 1 /\ zmul (16 ^ 63) 1 <> gzero) /\
  (computes (MultiScalarMult 0%nat [] [] st) 0%nat
     (gadd (zmul (16 ^ 63) 1) (linear_combination [] [])) /\
   ~ computes (MultiScalarMult 0%nat [] [] st) 0%nat (linear_combination [] [])) /\
  st_points (snd (MultiScalarMult 0%nat [] [] st)) 0%nat = Some (16 ^ 63) /\
  Some (16 ^ 63) <> @p3_identity ZLayer.ops.
Proof.
  assert (Hv : holds (ZLayer.store (Some 1)) 0%nat 1) by reflexivity.
  assert (Hne : zmul (16 ^ 63) 1 <> gzero)
    by (rewrite ZLayerFacts.zmul_Z; discriminate).
  split; [exact (conj Hv Hne)|]. split; [|split].
  - destruct (MultiScalarMult_adds_to_receiver ZLayer.ops ZLayerFacts.spec
                0%nat [] [] (ZLayer.store (Some 1)) 1 []
                eq_refl Hv (Forall2_nil _) (Forall_nil _)) as [Hc Hn].
    exact (conj Hc (Hn Hne)).
  - vm_compute. reflexivity.
  - vm_compute. discriminate.
Defined.

(** C2: the search for the first nonzero coefficient of
    [VarTimeDoubleScalarBaseMult] moves its own variable [j] and leaves the
    loop's start [i] at 255.  Whatever the two non-adjacent forms are, the
    doubling loop runs over all 256 positions: the call performs exactly
    256 doublings, however low the highest nonzero digit is. *)
Theorem VarTimeDoubleScalarBaseMult_doubles_256_times
    (ops : PointOps) (v a A b : loc) (st : state) :
  p3_uninitialized (st_points st A) = false ->
  doublings (emitted st (VarTimeDoubleScalarBaseMult v a A b st)) = 256%nat.
Proof. apply VarTimeDoubleScalarBaseMult_doublings. Qed.

(** [a = 1] and [b = 0]: the search stops at position 0, and the loop
    still doubles 256 times. *)
Lemma VarTimeDoubleScalarBaseMult_doubles_256_times_witness :
  let st := ZLayer.store (Some 7) in
  p3_uninitialized (st_points st 2%nat) = false /\
  find_first_nonzero (nonAdjacentForm (st_scalars st 1%nat) 5)
                     (nonAdjacentForm (st_scalars st 0%nat) 8) 255 = Some 0%nat /\
  doublings (emitted st (VarTimeDoubleScalarBaseMult 3%nat 1%nat 2%nat 0%nat st)) = 256%nat.
Proof.
  split; [reflexivity|]. split; [vm_compute; reflexivity|].
  exact (VarTimeDoubleScalarBaseMult_doubles_256_times ZLayer.ops
           3%nat 1%nat 2%nat 0%nat (ZLayer.store (Some 7)) eq_refl).
Defined.

(** C3: on the same arguments [VarTimeMultiScalarMult] returns the sum of
    the multiples, and [MultiScalarMult] returns that sum added to
    [16^63 * g0], where [g0] is what its receiver held.  The two return
    the same group element only when [16^63 * g0] is the identity. *)
Theorem MultiScalarMult_and_VarTimeMultiScalarMult
    (ops : PointOps) (spec : PointSpec ops)
    (v : loc) (scalars points : list loc) (st : state) (g0 : G) (gs : list G) :
  length scalars = length points ->
  holds st v g0 ->
  Forall2 (holds st) points gs ->
  Forall (fun x => valid_scalar (st_scalars st x)) scalars ->
  computes (VarTimeMultiScalarMult v scalars points st) v
    (linear_combination (map (st_scalars st) scalars) gs) /\
  computes (MultiScalarMult v scalars points st) v
    (gadd (zmul (16 ^ 63) g0)
          (linear_combination (map (st_scalars st) scalars) gs)) /\
  (zmul (16 ^ 63) g0 <> gzero ->
   forall g : G,
     computes (VarTimeMultiScalarMult v scalars points st) v g ->
     ~ computes (MultiScalarMult v scalars points st) v g).
Proof.
  intros Hlen Hv Hpts Hxs.
  pose proof (VarTimeMultiScalarMult_computes v scalars points st gs Hlen Hpts Hxs) as Hvar.
  pose proof (MultiScalarMult_computes v scalars points st g0 gs Hlen Hv Hpts Hxs) as Hct.
  split; [exact Hvar|]. split; [exact Hct|].
  intros Hne g Hg Hg'. apply Hne. eapply gadd_cancel_r.
  rewrite (computes_unique _ _ _ _ Hct Hg').
  exact (computes_unique _ _ _ _ Hg Hvar).
Qed.

(** Scalars 5 and 3 on the generator, with a receiver that holds the
    generator: 8 for the one, [16^63 + 8] for the other. *)
Lemma MultiScalarMult_and_VarTimeMultiScalarMult_witness :
  let st := ZLayer.store (Some 1) in
  (holds st 0%nat 1 /\ Forall2 (holds st) [1%nat; 2%nat] [1; 1] /\
   Forall (fun x => valid_scalar (st_scalars st x)) [5%nat; 3%nat] /\
   zmul (16 ^ 63) 1 <> gzero) /\
  (computes (VarTimeMultiScalarMult 0%nat [5%nat; 3%nat] [1%nat; 2%nat] st) 0%nat
     (linear_combination [5; 3] [1; 1]) /\
   computes (MultiScalarMult 0%nat [5%nat; 3%nat] [1%nat; 2%nat] st) 0%nat
     (gadd (zmul (16 ^ 63) 1) (linear_combination [5; 3] [1; 1])) /\
   forall g : G,
     computes (VarTimeMultiScalarMult 0%nat [5%nat; 3%nat] [1%nat; 2%nat] st) 0%nat g ->
     ~ computes (MultiScalarMult 0%nat [5%nat; 3%nat] [1%nat; 2%nat] st) 0%nat g) /\
  st_points (snd (VarTimeMultiScalarMult 0%nat [5%nat; 3%nat] [1%nat; 2%nat] st)) 0%nat
  = Some 8 /\
  st_points (snd (MultiScalarMult 0%nat [5%nat; 3%nat] [1%nat; 2%nat] st)) 0%nat
  = Some (16 ^ 63 + 8).
Proof.
  assert (Hv : holds (ZLayer.store (Some 1)) 0%nat 1) by reflexivity.
  assert (Hpts : Forall2 (holds (ZLayer.store (Some 1))) [1%nat; 2%nat] [1; 1])
    by (repeat constructor).
  assert (Hxs : Forall (fun x => valid_scalar (st_scalars (ZLayer.store (Some 1)) x))
                       [5%nat; 3%nat])
    by (repeat constructor; vm_compute; intuition discriminate).
  assert (Hne : zmul (16 ^ 63) 1 <> gzero)
    by (rewrite ZLayerFacts.zmul_Z; discriminate).
  split; [exact (conj Hv (conj Hpts (conj Hxs Hne)))|]. split; [|split].
  - destruct (MultiScalarMult_and_VarTimeMultiScalarMult ZLayer.ops ZLayerFacts.spec
                0%nat [5%nat; 3%nat] [1%nat; 2%nat] (ZLayer.store (Some 1)) 1 [1; 1]
                eq_refl Hv Hpts Hxs) as (Hvar & Hct & Hdiff).
    exact (conj Hvar (conj Hct (Hdiff Hne))).
  - vm_compute. reflexivity.
  - vm_compute. reflexivity.
Defined.

(** C4: for a reduced scalar, [ScalarBaseMult] and [ScalarMult] on a valid
    representation of the generator return the same group element: the
    scalar multiple of the generator. *)
Theorem ScalarBaseMult_agrees_with_ScalarMult
    (ops : PointOps) (spec : PointSpec ops) (v v' x q : loc) (st : state) :
  valid_scalar (st_scalars st x) ->
  holds st q generator ->
  exists g : G,
    g = zmul (st_scalars st x) generator /\
    computes (ScalarBaseMult v x st) v g /\
    computes (ScalarMult v' x q st) v' g.
Proof.
  intros Hx Hq. eexists. split; [reflexivity|]. split.
  - now apply ScalarBaseMult_computes.
  - now apply ScalarMult_computes.
Qed.

(** The scalar 5. *)
Lemma ScalarBaseMult_agrees_with_ScalarMult_witness :
  let st := ZLayer.store (Some 1) in
  (valid_scalar (st_scalars st 5%nat) /\ holds st 1%nat generator) /\
  (exists g : G,
     g = zmul (st_scalars st 5%nat) generator /\
     computes (ScalarBaseMult 0%nat 5%nat st) 0%nat g /\
     computes (ScalarMult 2%nat 5%nat 1%nat st) 2%nat g).
Proof.
  assert (Hx : valid_scalar (st_scalars (ZLayer.store (Some 1)) 5%nat))
    by (vm_compute; intuition discriminate).
  assert (Hq : holds (ZLayer.store (Some 1)) 1%nat generator) by reflexivity.
  split; [exact (conj Hx Hq)|].
  exact (ScalarBaseMult_agrees_with_ScalarMult ZLayer.ops ZLayerFacts.spec
           0%nat 2%nat 5%nat 1%nat (ZLayer.store (Some 1)) Hx Hq).
Defined.

(** C5: for reduced scalars [a] and [b] and a valid point [A],
    [VarTimeDoubleScalarBaseMult] returns the group sum of what
    [ScalarMult] returns on [a] and [A] and what [ScalarBaseMult] returns
    on [b]. *)
Theorem VarTimeDoubleScalarBaseMult_is_sum
    (ops : PointOps) (spec : PointSpec ops)
    (v v1 v2 a A b : loc) (st : state) (gA : G) :
  holds st A gA ->
  valid_scalar (st_scalars st a) ->
  valid_scalar (st_scalars st b) ->
  exists g1 g2 : G,
    computes (ScalarMult v1 a A st) v1 g1 /\
    computes (ScalarBaseMult v2 b st) v2 g2 /\
    computes (VarTimeDoubleScalarBaseMult v a A b st) v (gadd g1 g2).
Proof.
  intros HA Ha Hb.
  exists (zmul (st_scalars st a) gA), (zmul (st_scalars st b) generator).
  split; [|split].
  - now apply ScalarMult_computes.
  - now apply ScalarBaseMult_computes.
  - now apply VarTimeDoubleScalarBaseMult_computes.
Qed.

(** [a = 5], [A = 7] and [b = 3]: the result is [5 * 7 + 3 * 1]. *)
Lemma VarTimeDoubleScalarBaseMult_is_sum_witness :
  let st := ZLayer.store (Some 7) in
  (holds st 1%nat 7 /\ valid_scalar (st_scalars st 5%nat) /\
   valid_scalar (st_scalars st 3%nat)) /\
  (exists g1 g2 : G,
     computes (ScalarMult 0%nat 5%nat 1%nat st) 0%nat g1 /\
     computes (ScalarBaseMult 0%nat 3%nat st) 0%nat g2 /\
     computes (VarTimeDoubleScalarBaseMult 0%nat 5%nat 1%nat 3%nat st) 0%nat (gadd g1 g2)) /\
  st_points (snd (VarTimeDoubleScalarBaseMult 0%nat 5%nat 1%nat 3%nat st)) 0%nat
  = Some (5 * 7 + 3 * 1).
Proof.
  assert (HA : holds (ZLayer.store (Some 7)) 1%nat 7) by reflexivity.
  assert (Ha : valid_scalar (st_scalars (ZLayer.store (Some 7)) 5%nat))
    by (vm_compute; intuition discriminate).
  assert (Hb : valid_scalar (st_scalars (ZLayer.store (Some 7)) 3%nat))
    by (vm_compute; intuition discriminate).
  split; [exact (conj HA (conj Ha Hb))|]. split.
  - exact (VarTimeDoubleScalarBaseMult_is_sum ZLayer.ops ZLayerFacts.spec
             0%nat 0%nat 0%nat 5%nat 1%nat 3%nat (ZLayer.store (Some 7)) 7 HA Ha Hb).
  - vm_compute. reflexivity.
Defined.

(** C6, as the specification states it: any uninitialized point makes the
    multi-term operations fail with [UninitializedPoint].  With sequences
    of different lengths the length check comes first and the failure is
    [LengthMismatch]. *)
Lemma uninitialized_point_after_length_check :
  let st := ZLayer.store None in
  Exists (fun p => p3_uninitialized (st_points st p) = true) [1%nat] /\
  MultiScalarMult 0%nat [] [1%nat] st = (Panic LengthMismatch, st) /\
  fst (MultiScalarMult 0%nat [] [1%nat] st) <> Panic UninitializedPoint.
Proof.
  split; [now constructor|]. split; [reflexivity|]. cbn. discriminate.
Qed.

(** C6, amended: [ScalarMult] and [VarTimeDoubleScalarBaseMult] fail with
    [UninitializedPoint] when their point is uninitialized;
    [MultiScalarMult] and [VarTimeMultiScalarMult] do when the two
    sequences have the same length and any of the points is uninitialized,
    whatever the others are.  The failure leaves the store and the trace
    as they were: the check comes before any table or digit is computed. *)
Theorem uninitialized_point_panics (ops : PointOps) :
  (forall v x q st,
      p3_uninitialized (st_points st q) = true ->
      ScalarMult v x q st = (Panic UninitializedPoint, st)) /\
  (forall v a A b st,
      p3_uninitialized (st_points st A) = true ->
      VarTimeDoubleScalarBaseMult v a A b st = (Panic UninitializedPoint, st)) /\
  (forall v scalars points st,
      length scalars = length points ->
      Exists (fun p => p3_uninitialized (st_points st p) = true) points ->
      MultiScalarMult v scalars points st = (Panic UninitializedPoint, st)) /\
  (forall v scalars points st,
      length scalars = length points ->
      Exists (fun p => p3_uninitialized (st_points st p) = true) points ->
      VarTimeMultiScalarMult v scalars points st = (Panic UninitializedPoint, st)).
Proof.
  split; [|split; [|split]].
  - apply ScalarMult_uninitialized.
  - apply VarTimeDoubleScalarBaseMult_uninitialized.
  - apply MultiScalarMult_uninitialized.
  - apply VarTimeMultiScalarMult_uninitialized.
Qed.

(** Three points of which the second was never assigned. *)
Lemma uninitialized_point_panics_witness :
  let st := ZLayer.store_with 2%nat None (Some 7) in
  Exists (fun p => p3_uninitialized (st_points st p) = true) [1%nat; 2%nat; 3%nat] /\
  ScalarMult 0%nat 5%nat 2%nat st = (Panic UninitializedPoint, st) /\
  VarTimeDoubleScalarBaseMult 0%nat 5%nat 2%nat 3%nat st = (Panic UninitializedPoint, st) /\
  MultiScalarMult 0%nat [4%nat; 5%nat; 6%nat] [1%nat; 2%nat; 3%nat] st
  = (Panic UninitializedPoint, st) /\
  VarTimeMultiScalarMult 0%nat [4%nat; 5%nat; 6%nat] [1%nat; 2%nat; 3%nat] st
  = (Panic UninitializedPoint, st).
Proof.
  assert (Hex : Exists (fun p => p3_uninitialized
                          (st_points (ZLayer.store_with 2%nat None (Some 7)) p) = true)
                       [1%nat; 2%nat; 3%nat])
    by (apply Exists_cons_tl, Exists_cons_hd; reflexivity).
  destruct (uninitialized_point_panics ZLayer.ops) as (H1 & H2 & H3 & H4).
  split; [exact Hex|]. split; [|split; [|split]].
  - apply H1. reflexivity.
  - apply H2. reflexivity.
  - apply H3; [reflexivity|exact Hex].
  - apply H4; [reflexivity|exact Hex].
Defined.

(** C7: [MultiScalarMult] and [VarTimeMultiScalarMult] fail with
    [LengthMismatch] exactly when the two sequences differ in length, and
    then before anything else: the store and the trace are as they were,
    whether or not a point is uninitialized. *)
Theorem length_mismatch_panics
    (ops : PointOps) (v : loc) (scalars points : list loc) (st : state) :
  (fst (MultiScalarMult v scalars points st) = Panic LengthMismatch
   <-> length scalars <> length points) /\
  (length scalars <> length points ->
   MultiScalarMult v scalars points st = (Panic LengthMismatch, st)) /\
  (fst (VarTimeMultiScalarMult v scalars points st) = Panic LengthMismatch
   <-> length scalars <> length points) /\
  (length scalars <> length points ->
   VarTimeMultiScalarMult v scalars points st = (Panic LengthMismatch, st)).
Proof.
  split; [|split; [|split]].
  - split.
    + intros Hp Hlen. now apply (MultiScalarMult_matched v scalars points st).
    + intros Hlen. now rewrite MultiScalarMult_mismatch.
  - apply MultiScalarMult_mismatch.
  - split.
    + intros Hp Hlen. now apply (VarTimeMultiScalarMult_matched v scalars points st).
    + intros Hlen. now rewrite VarTimeMultiScalarMult_mismatch.
  - apply VarTimeMultiScalarMult_mismatch.
Qed.

(** Three scalars and two points, one of them never assigned. *)
Lemma length_mismatch_panics_witness :
  let st := ZLayer.store_with 2%nat None (Some 7) in
  MultiScalarMult 0%nat [4%nat; 5%nat; 6%nat] [1%nat; 2%nat] st
  = (Panic LengthMismatch, st) /\
  VarTimeMultiScalarMult 0%nat [4%nat; 5%nat; 6%nat] [1%nat; 2%nat] st
  = (Panic LengthMismatch, st).
Proof.
  destruct (length_mismatch_panics ZLayer.ops 0%nat [4%nat; 5%nat; 6%nat] [1%nat; 2%nat]
              (ZLayer.store_with 2%nat None (Some 7))) as (_ & H1 & _ & H2).
  split; [apply H1|apply H2]; cbn; discriminate.
Defined.

(** C8: time is read off the trace of calls into the point layer.  Each of
    [ScalarBaseMult], [ScalarMult] and [MultiScalarMult] emits a fixed
    schedule of calls, which no scalar enters: the one of
    [MultiScalarMult] is a function of the common length of its two
    slices.  Every table lookup of these schedules is a constant-time
    selection, one for each of the 64 digits of each scalar. *)
Theorem constant_time_schedules (ops : PointOps) :
  (forall v x st,
      emitted st (ScalarBaseMult v x st) = ScalarBaseMult_schedule) /\
  (forall v x q st,
      p3_uninitialized (st_points st q) = false ->
      emitted st (ScalarMult v x q st) = ScalarMult_schedule) /\
  (forall v scalars points st,
      length scalars = length points ->
      Forall (fun p => p3_uninitialized (st_points st p) = false) points ->
      emitted st (MultiScalarMult v scalars points st)
      = MultiScalarMult_schedule (length points)) /\
  forallb scalar_independent ScalarBaseMult_schedule = true /\
  forallb scalar_independent ScalarMult_schedule = true /\
  (forall n, forallb scalar_independent (MultiScalarMult_schedule n) = true) /\
  count_occ event_eq_dec ScalarBaseMult_schedule EvSelectConstantTime = 64%nat /\
  count_occ event_eq_dec ScalarMult_schedule EvSelectConstantTime = 64%nat /\
  (forall n, count_occ event_eq_dec (MultiScalarMult_schedule n) EvSelectConstantTime
             = (64 * n)%nat).
Proof.
  split; [|split; [|split; [|split; [|split; [|split; [|split; [|split]]]]]]].
  - intros v x st. apply emitted_app, emits_trace, ScalarBaseMult_emits.
  - intros v x q st Hq. now apply emitted_app, ScalarMult_trace.
  - intros v scalars points st Hlen Hinit. now apply emitted_app, MultiScalarMult_trace.
  - reflexivity.
  - reflexivity.
  - apply MultiScalarMult_schedule_independent.
  - reflexivity.
  - reflexivity.
  - apply MultiScalarMult_schedule_selects.
Qed.

(** Two calls on different scalars, points and receivers emit the same
    events. *)
Lemma constant_time_schedules_witness :
  let st1 := ZLayer.store (Some 7) in
  let st2 := ZLayer.store_with 0%nat None (Some 3) in
  emitted st1 (ScalarBaseMult 0%nat 5%nat st1) = emitted st2 (ScalarBaseMult 0%nat 9%nat st2) /\
  emitted st1 (ScalarMult 0%nat 5%nat 1%nat st1) = emitted st2 (ScalarMult 0%nat 9%nat 1%nat st2) /\
  emitted st1 (MultiScalarMult 0%nat [5%nat; 3%nat] [1%nat; 2%nat] st1)
  = emitted st2 (MultiScalarMult 0%nat [8%nat; 9%nat] [2%nat; 1%nat] st2).
Proof.
  destruct (constant_time_schedules ZLayer.ops) as (H1 & H2 & H3 & _).
  split; [|split].
  - now rewrite !H1.
  - rewrite !H2 by reflexivity. reflexivity.
  - rewrite !H3 by (repeat constructor). reflexivity.
Defined.

(** C9: what [ScalarBaseMult], [ScalarMult], [VarTimeDoubleScalarBaseMult]
    and [VarTimeMultiScalarMult] leave in their receiver depends on their
    arguments only.  From two stores that hold the same scalars and points
    behind the arguments, whatever they hold behind the receiver, the two
    calls end the same way and leave the same point in the receiver. *)
Theorem result_independent_of_receiver (ops : PointOps) :
  (forall v x st1 st2,
      st_scalars st1 x = st_scalars st2 x ->
      same_result v (ScalarBaseMult v x st1) (ScalarBaseMult v x st2)) /\
  (forall v x q st1 st2,
      st_scalars st1 x = st_scalars st2 x ->
      st_points st1 q = st_points st2 q ->
      same_result v (ScalarMult v x q st1) (ScalarMult v x q st2)) /\
  (forall v a A b st1 st2,
      st_scalars st1 a = st_scalars st2 a ->
      st_scalars st1 b = st_scalars st2 b ->
      st_points st1 A = st_points st2 A ->
      same_result v (VarTimeDoubleScalarBaseMult v a A b st1)
                    (VarTimeDoubleScalarBaseMult v a A b st2)) /\
  (forall v scalars points st1 st2,
      Forall (fun x => st_scalars st1 x = st_scalars st2 x) scalars ->
      Forall (fun p => st_points st1 p = st_points st2 p) points ->
      same_result v (VarTimeMultiScalarMult v scalars points st1)
                    (VarTimeMultiScalarMult v scalars points st2)).
Proof.
  split; [|split; [|split]].
  - intros v x st1 st2 Hx.
    apply (same_run_result v [] [x]); [apply ScalarBaseMult_same_run|].
    repeat split; [|intros l []|discriminate].
    intros l [<-|[]]. exact Hx.
  - intros v x q st1 st2 Hx Hq.
    apply (same_run_result v [q] [x]); [apply ScalarMult_same_run|].
    repeat split; [| |discriminate].
    + intros l [<-|[]]. exact Hx.
    + intros l [<-|[]]. exact Hq.
  - intros v a A b st1 st2 Ha Hb HA.
    apply (same_run_result v [A] [a; b]); [apply VarTimeDoubleScalarBaseMult_same_run|].
    repeat split; [| |discriminate].
    + intros l [<-|[<-|[]]]; assumption.
    + intros l [<-|[]]. exact HA.
  - intros v scalars points st1 st2 Hxs Hps.
    apply (same_run_result v points scalars); [apply VarTimeMultiScalarMult_same_run|].
    rewrite List.Forall_forall in Hxs, Hps.
    repeat split; [| |discriminate]; auto.
Qed.

(** A receiver that holds a point and one that was never assigned. *)
Lemma result_independent_of_receiver_witness :
  let st1 := ZLayer.store (Some 7) in
  let st2 := ZLayer.store_with 0%nat None (Some 7) in
  st_points st1 0%nat <> st_points st2 0%nat /\
  same_result 0%nat (ScalarBaseMult 0%nat 5%nat st1) (ScalarBaseMult 0%nat 5%nat st2) /\
  same_result 0%nat (ScalarMult 0%nat 5%nat 1%nat st1) (ScalarMult 0%nat 5%nat 1%nat st2) /\
  same_result 0%nat (VarTimeDoubleScalarBaseMult 0%nat 5%nat 1%nat 3%nat st1)
                    (VarTimeDoubleScalarBaseMult 0%nat 5%nat 1%nat 3%nat st2) /\
  same_result 0%nat (VarTimeMultiScalarMult 0%nat [5%nat; 3%nat] [1%nat; 2%nat] st1)
                    (VarTimeMultiScalarMult 0%nat [5%nat; 3%nat] [1%nat; 2%nat] st2).
Proof.
  destruct (result_independent_of_receiver ZLayer.ops) as (H1 & H2 & H3 & H4).
  split; [cbn; discriminate|]. split; [|split; [|split]].
  - apply H1. reflexivity.
  - apply H2; reflexivity.
  - apply H3; reflexivity.
  - apply H4; repeat constructor.
Defined.

(** C10: a call writes its receiver and nothing else.  When the receiver
    is none of the point arguments, every scalar and every point passed in
    holds after the call, however it ended, what it held before. *)
Theorem arguments_unchanged (ops : PointOps) :
  (forall v x st,
      st_scalars (snd (ScalarBaseMult v x st)) x = st_scalars st x) /\
  (forall v x q st,
      v <> q ->
      st_scalars (snd (ScalarMult v x q st)) x = st_scalars st x /\
      st_points (snd (ScalarMult v x q st)) q = st_points st q) /\
  (forall v scalars points st,
      ~ In v points ->
      let st' := snd (MultiScalarMult v scalars points st) in
      Forall (fun x => st_scalars st' x = st_scalars st x) scalars /\
      Forall (fun p => st_points st' p = st_points st p) points) /\
  (forall v a A b st,
      v <> A ->
      let st' := snd (VarTimeDoubleScalarBaseMult v a A b st) in
      st_scalars st' a = st_scalars st a /\
      st_scalars st' b = st_scalars st b /\
      st_points st' A = st_points st A) /\
  (forall v scalars points st,
      ~ In v points ->
      let st' := snd (VarTimeMultiScalarMult v scalars points st) in
      Forall (fun x => st_scalars st' x = st_scalars st x) scalars /\
      Forall (fun p => st_points st' p = st_points st p) points).
Proof.
  split; [|split; [|split; [|split]]].
  - intros v x st. destruct (ScalarBaseMult_writes_only v x st) as [Hs _].
    now rewrite Hs.
  - intros v x q st Hne. destruct (ScalarMult_writes_only v x q st) as [Hs Hp].
    split; [now rewrite Hs|]. apply Hp. congruence.
  - intros v scalars points st Hnot st'.
    destruct (MultiScalarMult_writes_only v scalars points st) as [Hs Hp].
    fold st' in Hs, Hp. split; apply List.Forall_forall.
    + intros x _. now rewrite Hs.
    + intros p Hin. apply Hp. intros ->. contradiction.
  - intros v a A b st Hne st'.
    destruct (VarTimeDoubleScalarBaseMult_writes_only v a A b st) as [Hs Hp].
    fold st' in Hs, Hp. rewrite Hs. repeat split. apply Hp. congruence.
  - intros v scalars points st Hnot st'.
    destruct (VarTimeMultiScalarMult_writes_only v scalars points st) as [Hs Hp].
    fold st' in Hs, Hp. split; apply List.Forall_forall.
    + intros x _. now rewrite Hs.
    + intros p Hin. apply Hp. intros ->. contradiction.
Qed.

(** The receiver changes; the arguments do not. *)
Lemma arguments_unchanged_witness :
  let st := ZLayer.store (Some 7) in
  st_points (snd (ScalarMult 0%nat 5%nat 1%nat st)) 0%nat <> st_points st 0%nat /\
  (st_scalars (snd (ScalarMult 0%nat 5%nat 1%nat st)) 5%nat = st_scalars st 5%nat /\
   st_points (snd (ScalarMult 0%nat 5%nat 1%nat st)) 1%nat = st_points st 1%nat) /\
  (let st' := snd (MultiScalarMult 0%nat [5%nat; 3%nat] [1%nat; 2%nat] st) in
   Forall (fun x => st_scalars st' x = st_scalars st x) [5%nat; 3%nat] /\
   Forall (fun p => st_points st' p = st_points st p) [1%nat; 2%nat]).
Proof.
  destruct (arguments_unchanged ZLayer.ops) as (_ & H2 & H3 & _).
  split; [vm_compute; discriminate|]. split.
  - apply H2. discriminate.
  - apply H3. cbn. intuition discriminate.
Defined.

(** * Further properties *)

(** X1: [ScalarMult] on a reduced scalar [x] and a valid point [q] leaves
    the multiple [x * q] in its receiver and returns the receiver,
    whatever [q] stands for and whatever the receiver held. *)
Theorem ScalarMult_multiplies_the_point
    (ops : PointOps) (spec : PointSpec ops) (v x q : loc) (st : state) (g : G) :
  holds st q g ->
  valid_scalar (st_scalars st x) ->
  computes (ScalarMult v x q st) v (zmul (st_scalars st x) g).
Proof. apply ScalarMult_computes. Qed.

(** The scalar 5 and a point that stands for 7. *)
Lemma ScalarMult_multiplies_the_point_witness :
  let st := ZLayer.store (Some 7) in
  (holds st 1%nat 7 /\ valid_scalar (st_scalars st 5%nat)) /\
  computes (ScalarMult 0%nat 5%nat 1%nat st) 0%nat (zmul 5 7) /\
  st_points (snd (ScalarMult 0%nat 5%nat 1%nat st)) 0%nat = Some 35.
Proof.
  assert (Hq : holds (ZLayer.store (Some 7)) 1%nat 7) by reflexivity.
  assert (Hx : valid_scalar (st_scalars (ZLayer.store (Some 7)) 5%nat))
    by (vm_compute; intuition discriminate).
  split; [exact (conj Hq Hx)|]. split.
  - exact (ScalarMult_multiplies_the_point ZLayer.ops ZLayerFacts.spec
             0%nat 5%nat 1%nat (ZLayer.store (Some 7)) 7 Hq Hx).
  - vm_compute. reflexivity.
Defined.

(** X2: the receiver may be one of the point arguments.  [ScalarMult],
    [VarTimeDoubleScalarBaseMult] and [VarTimeMultiScalarMult] build
    their tables before they first write the receiver, so that a call in
    place replaces the point by the result computed from the value it
    had. *)
Theorem receiver_may_be_a_point_argument (ops : PointOps) (spec : PointSpec ops) :
  (forall (v x : loc) (st : state) (g : G),
      holds st v g ->
      valid_scalar (st_scalars st x) ->
      computes (ScalarMult v x v st) v (zmul (st_scalars st x) g)) /\
  (forall (v a b : loc) (st : state) (g : G),
      holds st v g ->
      valid_scalar (st_scalars st a) -> valid_scalar (st_scalars st b) ->
      computes (VarTimeDoubleScalarBaseMult v a v b st) v
        (gadd (zmul (st_scalars st a) g) (zmul (st_scalars st b) generator))) /\
  (forall (v : loc) (scalars points : list loc) (st : state) (gs : list G),
      In v points ->
      length scalars = length points ->
      Forall2 (holds st) points gs ->
      Forall (fun x => valid_scalar (st_scalars st x)) scalars ->
      computes (VarTimeMultiScalarMult v scalars points st) v
        (linear_combination (map (st_scalars st) scalars) gs)).
Proof.
  split; [|split].
  - intros v x st g. apply ScalarMult_computes.
  - intros v a b st g. apply VarTimeDoubleScalarBaseMult_computes.
  - intros v scalars points st gs _. apply VarTimeMultiScalarMult_computes.
Qed.

(** A point that stands for 7, multiplied in place. *)
Lemma receiver_may_be_a_point_argument_witness :
  let st := ZLayer.store (Some 7) in
  computes (ScalarMult 1%nat 5%nat 1%nat st) 1%nat (zmul 5 7) /\
  computes (VarTimeDoubleScalarBaseMult 1%nat 5%nat 1%nat 3%nat st) 1%nat
    (gadd (zmul 5 7) (zmul 3 1)) /\
  computes (VarTimeMultiScalarMult 1%nat [5%nat; 3%nat] [1%nat; 2%nat] st) 1%nat
    (linear_combination [5; 3] [7; 7]) /\
  st_points (snd (VarTimeMultiScalarMult 1%nat [5%nat; 3%nat] [1%nat; 2%nat] st)) 1%nat
  = Some 56.
Proof.
  assert (Hq : holds (ZLayer.store (Some 7)) 1%nat 7) by reflexivity.
  assert (H5 : valid_scalar (st_scalars (ZLayer.store (Some 7)) 5%nat))
    by (vm_compute; intuition discriminate).
  assert (H3 : valid_scalar (st_scalars (ZLayer.store (Some 7)) 3%nat))
    by (vm_compute; intuition discriminate).
  destruct (receiver_may_be_a_point_argument ZLayer.ops ZLayerFacts.spec)
    as (H1 & H2 & H4).
  split; [|split; [|split]].
  - exact (H1 1%nat 5%nat (ZLayer.store (Some 7)) 7 Hq H5).
  - exact (H2 1%nat 5%nat 3%nat (ZLayer.store (Some 7)) 7 Hq H5 H3).
  - apply (H4 1%nat [5%nat; 3%nat] [1%nat; 2%nat] (ZLayer.store (Some 7)) [7; 7]).
    + now left.
    + reflexivity.
    + repeat constructor.
    + constructor; [exact H5|]. constructor; [exact H3|]. constructor.
  - vm_compute. reflexivity.
Defined.

(** X3: a point computed by [ScalarBaseMult] can be given to [ScalarMult]:
    the second call leaves the multiple of the generator by the product
    of the two scalars, the same whichever of the two scalars comes
    first. *)
Theorem ScalarMult_after_ScalarBaseMult
    (ops : PointOps) (spec : PointSpec ops) (v w x y : loc) (st : state) :
  valid_scalar (st_scalars st x) ->
  valid_scalar (st_scalars st y) ->
  computes (bind (ScalarBaseMult v x) (fun p => ScalarMult w y p) st) w
    (zmul (st_scalars st y * st_scalars st x) generator) /\
  computes (bind (ScalarBaseMult v y) (fun p => ScalarMult w x p) st) w
    (zmul (st_scalars st y * st_scalars st x) generator).
Proof.
  intros Hx Hy. split.
  - eapply computes_then;
      [now apply ScalarBaseMult_computes|apply ScalarBaseMult_writes_only|].
    intros st1 Hv [Hs _]. rewrite zmul_mul, <- Hs in *.
    now apply ScalarMult_computes.
  - eapply computes_then;
      [now apply ScalarBaseMult_computes|apply ScalarBaseMult_writes_only|].
    intros st1 Hv [Hs _]. rewrite Z.mul_comm, zmul_mul, <- Hs in *.
    now apply ScalarMult_computes.
Qed.

(** The scalars 5 and 3: both orders give 15 times the generator. *)
Lemma ScalarMult_after_ScalarBaseMult_witness :
  let st := ZLayer.store (Some 7) in
  (valid_scalar (st_scalars st 5%nat) /\ valid_scalar (st_scalars st 3%nat)) /\
  (computes (bind (ScalarBaseMult 0%nat 5%nat) (fun p => ScalarMult 1%nat 3%nat p) st) 1%nat
     (zmul (3 * 5) generator) /\
   computes (bind (ScalarBaseMult 0%nat 3%nat) (fun p => ScalarMult 1%nat 5%nat p) st) 1%nat
     (zmul (3 * 5) generator)) /\
  st_points (snd (bind (ScalarBaseMult 0%nat 5%nat) (fun p => ScalarMult 1%nat 3%nat p) st))
            1%nat = Some 15.
Proof.
  assert (H5 : valid_scalar (st_scalars (ZLayer.store (Some 7)) 5%nat))
    by (vm_compute; intuition discriminate).
  assert (H3 : valid_scalar (st_scalars (ZLayer.store (Some 7)) 3%nat))
    by (vm_compute; intuition discriminate).
  split; [exact (conj H5 H3)|]. split.
  - exact (ScalarMult_after_ScalarBaseMult ZLayer.ops ZLayerFacts.spec
             0%nat 1%nat 5%nat 3%nat (ZLayer.store (Some 7)) H5 H3).
  - vm_compute. reflexivity.
Defined.

(** X4: [ScalarMult] applied to the result of [ScalarMult] multiplies by
    the product of the two scalars. *)
Theorem ScalarMult_after_ScalarMult
    (ops : PointOps) (spec : PointSpec ops) (v w x y q : loc) (st : state) (g : G) :
  holds st q g ->
  valid_scalar (st_scalars st x) ->
  valid_scalar (st_scalars st y) ->
  computes (bind (ScalarMult v x q) (fun p => ScalarMult w y p) st) w
    (zmul (st_scalars st y * st_scalars st x) g).
Proof.
  intros Hq Hx Hy.
  eapply computes_then;
    [apply ScalarMult_computes; eassumption|apply ScalarMult_writes_only|].
  intros st1 Hv [Hs _]. rewrite zmul_mul, <- Hs in *.
  now apply ScalarMult_computes.
Qed.

(** The scalars 5 and 3 on a point that stands for 7, the second call in
    place. *)
Lemma ScalarMult_after_ScalarMult_witness :
  let st := ZLayer.store (Some 7) in
  (holds st 1%nat 7 /\ valid_scalar (st_scalars st 5%nat) /\
   valid_scalar (st_scalars st 3%nat)) /\
  computes (bind (ScalarMult 0%nat 5%nat 1%nat) (fun p => ScalarMult 0%nat 3%nat p) st) 0%nat
    (zmul (3 * 5) 7) /\
  st_points (snd (bind (ScalarMult 0%nat 5%nat 1%nat) (fun p => ScalarMult 0%nat 3%nat p) st))
            0%nat = Some 105.
Proof.
  assert (Hq : holds (ZLayer.store (Some 7)) 1%nat 7) by reflexivity.
  assert (H5 : valid_scalar (st_scalars (ZLayer.store (Some 7)) 5%nat))
    by (vm_compute; intuition discriminate).
  assert (H3 : valid_scalar (st_scalars (ZLayer.store (Some 7)) 3%nat))
    by (vm_compute; intuition discriminate).
  split; [exact (conj Hq (conj H5 H3))|]. split.
  - exact (ScalarMult_after_ScalarMult ZLayer.ops ZLayerFacts.spec
             0%nat 0%nat 5%nat 3%nat 1%nat (ZLayer.store (Some 7)) 7 Hq H5 H3).
  - vm_compute. reflexivity.
Defined.
(** X5: [MultiScalarMult] adds into its receiver; on a receiver that holds
    the identity, as after [v.Set(NewIdentityPoint())], it returns the sum
    of the multiples [scalars[i] * points[i]]. *)
Theorem MultiScalarMult_from_the_identity
    (ops : PointOps) (spec : PointSpec ops)
    (v : loc) (scalars points : list loc) (st : state) (gs : list G) :
  length scalars = length points ->
  Forall2 (holds st) points gs ->
  Forall (fun x => valid_scalar (st_scalars st x)) scalars ->
  (holds st v gzero ->
   computes (MultiScalarMult v scalars points st) v
     (linear_combination (map (st_scalars st) scalars) gs)) /\
  (~ In v points ->
   computes (bind (Point_Set v NewIdentityPoint)
                  (fun _ => MultiScalarMult v scalars points) st) v
     (linear_combination (map (st_scalars st) scalars) gs)).
Proof.
  intros Hlen Hpts Hxs.
  assert (Hid : forall st0 : state,
             st_scalars st0 = st_scalars st ->
             Forall2 (holds st0) points gs ->
             holds st0 v gzero ->
             computes (MultiScalarMult v scalars points st0) v
               (linear_combination (map (st_scalars st) scalars) gs)).
  { intros st0 Hs Hpts0 Hv.
    pose proof (MultiScalarMult_computes v scalars points st0 gzero gs Hlen Hv Hpts0) as Hc.
    rewrite Hs, zmul_zero, gadd_zero_l in Hc. now apply Hc. }
  split.
  - intros Hv. now apply Hid.
  - intros Hnot. unfold Point_Set, NewIdentityPoint.
    cbn [bind tick storePoint]. apply Hid; cbn [st_scalars st_points].
    + reflexivity.
    + unfold holds in *. cbn [st_points].
      clear -Hpts Hnot. induction Hpts as [|p g points gs Hp _ IH]; constructor.
      * rewrite fn_lookup_insert_ne; [exact Hp|]. intros ->. apply Hnot. now left.
      * apply IH. intros Hin. apply Hnot. now right.
    + unfold holds. cbn [st_points]. rewrite fn_lookup_insert. apply identity_value.
Qed.

(** Scalars 5 and 3 on the generator: on a receiver that holds a point the
    reset gives the sum 8. *)
Lemma MultiScalarMult_from_the_identity_witness :
  let st := ZLayer.store (Some 1) in
  let st0 := ZLayer.store_with 0%nat (Some 0) (Some 1) in
  (Forall2 (holds st) [1%nat; 2%nat] [1; 1] /\
   Forall (fun x => valid_scalar (st_scalars st x)) [5%nat; 3%nat] /\
   holds st0 0%nat gzero /\ ~ In 0%nat [1%nat; 2%nat]) /\
  computes (MultiScalarMult 0%nat [5%nat; 3%nat] [1%nat; 2%nat] st0) 0%nat
    (linear_combination [5; 3] [1; 1]) /\
  computes (bind (Point_Set 0%nat NewIdentityPoint)
                 (fun _ => MultiScalarMult 0%nat [5%nat; 3%nat] [1%nat; 2%nat]) st) 0%nat
    (linear_combination [5; 3] [1; 1]) /\
  st_points (snd (bind (Point_Set 0%nat NewIdentityPoint)
                       (fun _ => MultiScalarMult 0%nat [5%nat; 3%nat] [1%nat; 2%nat]) st))
            0%nat = Some 8.
Proof.
  assert (Hpts : Forall2 (holds (ZLayer.store (Some 1))) [1%nat; 2%nat] [1; 1])
    by (repeat constructor).
  assert (Hpts0 : Forall2 (holds (ZLayer.store_with 0%nat (Some 0) (Some 1)))
                          [1%nat; 2%nat] [1; 1])
    by (repeat constructor).
  assert (Hxs : Forall (fun x => valid_scalar (st_scalars (ZLayer.store (Some 1)) x))
                       [5%nat; 3%nat])
    by (repeat constructor; vm_compute; intuition discriminate).
  assert (Hv : holds (ZLayer.store_with 0%nat (Some 0) (Some 1)) 0%nat gzero)
    by reflexivity.
  assert (Hnot : ~ In 0%nat [1%nat; 2%nat]) by (cbn; intuition discriminate).
  split; [exact (conj Hpts (conj Hxs (conj Hv Hnot)))|]. split; [|split].
  - exact (proj1 (MultiScalarMult_from_the_identity ZLayer.ops ZLayerFacts.spec
                    0%nat [5%nat; 3%nat] [1%nat; 2%nat]
                    (ZLayer.store_with 0%nat (Some 0) (Some 1)) [1; 1]
                    eq_refl Hpts0 Hxs) Hv).
  - exact (proj2 (MultiScalarMult_from_the_identity ZLayer.ops ZLayerFacts.spec
                    0%nat [5%nat; 3%nat] [1%nat; 2%nat]
                    (ZLayer.store (Some 1)) [1; 1]
                    eq_refl Hpts Hxs) Hnot).
  - vm_compute. reflexivity.
Defined.

(** X6: on reduced scalars a call fails at its checks or not at all.
    [ScalarBaseMult] always returns its receiver, whatever the receiver
    held; [ScalarMult] and [VarTimeDoubleScalarBaseMult] return their
    receiver exactly when the point argument is initialized;
    [MultiScalarMult] and [VarTimeMultiScalarMult] exactly when the two
    sequences have the same length and every point is initialized.
    Nothing else is asked of the points. *)
Theorem calls_fail_at_the_checks_only (ops : PointOps) :
  (forall v x st,
      valid_scalar (st_scalars st x) ->
      fst (ScalarBaseMult v x st) = Ok v) /\
  (forall v x q st,
      valid_scalar (st_scalars st x) ->
      (fst (ScalarMult v x q st) = Ok v
       <-> p3_uninitialized (st_points st q) = false)) /\
  (forall v a A b st,
      valid_scalar (st_scalars st a) -> valid_scalar (st_scalars st b) ->
      (fst (VarTimeDoubleScalarBaseMult v a A b st) = Ok v
       <-> p3_uninitialized (st_points st A) = false)) /\
  (forall v scalars points st,
      Forall (fun x => valid_scalar (st_scalars st x)) scalars ->
      (fst (MultiScalarMult v scalars points st) = Ok v
       <-> length scalars = length points /\
           Forall (fun p => p3_uninitialized (st_points st p) = false) points)) /\
  (forall v scalars points st,
      Forall (fun x => valid_scalar (st_scalars st x)) scalars ->
      (fst (VarTimeMultiScalarMult v scalars points st) = Ok v
       <-> length scalars = length points /\
           Forall (fun p => p3_uninitialized (st_points st p) = false) points)).
Proof.
  split; [|split; [|split; [|split]]].
  - intros v x st _. apply ScalarBaseMult_returns.
  - intros v x q st _. split; [|apply ScalarMult_returns].
    intros Hr. destruct (p3_uninitialized (st_points st q)) eqn:E; [|reflexivity].
    rewrite (ScalarMult_uninitialized v x q st E) in Hr. discriminate.
  - intros v a A b st _ _. split; [|apply VarTimeDoubleScalarBaseMult_returns].
    intros Hr. destruct (p3_uninitialized (st_points st A)) eqn:E; [|reflexivity].
    rewrite (VarTimeDoubleScalarBaseMult_uninitialized v a A b st E) in Hr. discriminate.
  - intros v scalars points st _.
    split; [|intros [Hlen Hinit]; now apply MultiScalarMult_returns].
    intros Hr. destruct (Nat.eq_dec (length scalars) (length points)) as [Hlen|Hlen].
    + split; [exact Hlen|].
      destruct (uninitialized_or_not points st) as [Hinit|Hex]; [exact Hinit|].
      rewrite (MultiScalarMult_uninitialized v scalars points st Hlen Hex) in Hr.
      discriminate.
    + rewrite (MultiScalarMult_mismatch v scalars points st Hlen) in Hr. discriminate.
  - intros v scalars points st _.
    split; [|intros [Hlen Hinit]; now apply VarTimeMultiScalarMult_returns].
    intros Hr. destruct (Nat.eq_dec (length scalars) (length points)) as [Hlen|Hlen].
    + split; [exact Hlen|].
      destruct (uninitialized_or_not points st) as [Hinit|Hex]; [exact Hinit|].
      rewrite (VarTimeMultiScalarMult_uninitialized v scalars points st Hlen Hex) in Hr.
      discriminate.
    + rewrite (VarTimeMultiScalarMult_mismatch v scalars points st Hlen) in Hr.
      discriminate.
Qed.

(** A receiver that was never assigned, and points that are initialized. *)
Lemma calls_fail_at_the_checks_only_witness :
  let st := ZLayer.store_with 0%nat None (Some 7) in
  (p3_uninitialized (st_points st 0%nat) = true /\
   Forall (fun x => valid_scalar (st_scalars st x)) [5%nat; 3%nat]) /\
  fst (ScalarBaseMult 0%nat 5%nat st) = Ok 0%nat /\
  fst (ScalarMult 0%nat 5%nat 1%nat st) = Ok 0%nat /\
  fst (VarTimeDoubleScalarBaseMult 0%nat 5%nat 1%nat 3%nat st) = Ok 0%nat /\
  fst (MultiScalarMult 0%nat [5%nat; 3%nat] [1%nat; 2%nat] st) = Ok 0%nat /\
  fst (VarTimeMultiScalarMult 0%nat [5%nat; 3%nat] [1%nat; 2%nat] st) = Ok 0%nat.
Proof.
  assert (H5 : valid_scalar (st_scalars (ZLayer.store_with 0%nat None (Some 7)) 5%nat))
    by (vm_compute; intuition discriminate).
  assert (H3 : valid_scalar (st_scalars (ZLayer.store_with 0%nat None (Some 7)) 3%nat))
    by (vm_compute; intuition discriminate).
  assert (Hxs : Forall (fun x => valid_scalar
                          (st_scalars (ZLayer.store_with 0%nat None (Some 7)) x))
                       [5%nat; 3%nat])
    by (constructor; [exact H5|]; constructor; [exact H3|]; constructor).
  destruct (calls_fail_at_the_checks_only ZLayer.ops) as (H1 & H2 & H4 & H6 & H7).
  split; [exact (conj eq_refl Hxs)|]. split; [|split; [|split; [|split]]].
  - apply H1. exact H5.
  - apply H2; [exact H5|reflexivity].
  - apply H4; [exact H5|exact H3|reflexivity].
  - apply H6; [exact Hxs|]. split; [reflexivity|]. repeat constructor.
  - apply H7; [exact Hxs|]. split; [reflexivity|]. repeat constructor.
Defined.
(** X7: what a call of [VarTimeDoubleScalarBaseMult] on reduced scalars
    shows an observer is a function of the two scalars: the events it
    emits are those of [VarTimeDoubleScalarBaseMult_schedule], whatever
    the point [A] and the receiver hold, so that two calls on equal
    scalars emit the same events. *)
Theorem VarTimeDoubleScalarBaseMult_shows_its_scalars (ops : PointOps) :
  (forall v a A b st,
      p3_uninitialized (st_points st A) = false ->
      valid_scalar (st_scalars st a) -> valid_scalar (st_scalars st b) ->
      emitted st (VarTimeDoubleScalarBaseMult v a A b st)
      = VarTimeDoubleScalarBaseMult_schedule (st_scalars st a) (st_scalars st b)) /\
  (forall v v' a a' A A' b b' st st',
      p3_uninitialized (st_points st A) = false ->
      p3_uninitialized (st_points st' A') = false ->
      valid_scalar (st_scalars st a) -> valid_scalar (st_scalars st b) ->
      st_scalars st a = st_scalars st' a' ->
      st_scalars st b = st_scalars st' b' ->
      emitted st (VarTimeDoubleScalarBaseMult v a A b st)
      = emitted st' (VarTimeDoubleScalarBaseMult v' a' A' b' st')).
Proof.
  split.
  - intros v a A b st HA _ _. now apply VarTimeDoubleScalarBaseMult_trace.
  - intros v v' a a' A A' b b' st st' HA HA' _ _ Ha Hb.
    rewrite !VarTimeDoubleScalarBaseMult_trace by assumption.
    now rewrite Ha, Hb.
Qed.

(** The same scalars on different points and receivers, and what another
    scalar changes. *)
Lemma VarTimeDoubleScalarBaseMult_shows_its_scalars_witness :
  let st := ZLayer.store (Some 7) in
  let st' := ZLayer.store_with 0%nat None (Some 3) in
  (valid_scalar (st_scalars st 5%nat) /\ valid_scalar (st_scalars st 3%nat) /\
   valid_scalar (st_scalars st 4%nat)) /\
  emitted st (VarTimeDoubleScalarBaseMult 0%nat 5%nat 1%nat 3%nat st)
  = emitted st' (VarTimeDoubleScalarBaseMult 0%nat 5%nat 2%nat 3%nat st') /\
  emitted st (VarTimeDoubleScalarBaseMult 0%nat 5%nat 1%nat 3%nat st)
  <> emitted st (VarTimeDoubleScalarBaseMult 0%nat 4%nat 1%nat 3%nat st).
Proof.
  assert (H5 : valid_scalar (st_scalars (ZLayer.store (Some 7)) 5%nat))
    by (vm_compute; intuition discriminate).
  assert (H3 : valid_scalar (st_scalars (ZLayer.store (Some 7)) 3%nat))
    by (vm_compute; intuition discriminate).
  assert (H4 : valid_scalar (st_scalars (ZLayer.store (Some 7)) 4%nat))
    by (vm_compute; intuition discriminate).
  destruct (VarTimeDoubleScalarBaseMult_shows_its_scalars ZLayer.ops) as [H1 H2].
  split; [exact (conj H5 (conj H3 H4))|]. split.
  - apply H2; solve [reflexivity | assumption].
  - rewrite !H1 by solve [reflexivity | assumption]. vm_compute. discriminate.
Defined.

(** X8: on reduced scalars [VarTimeDoubleScalarBaseMult] performs one
    point addition or subtraction for each nonzero digit of the two
    non-adjacent forms, and none for a zero digit. *)
Theorem VarTimeDoubleScalarBaseMult_adds_per_nonzero_digit
    (ops : PointOps) (v a A b : loc) (st : state) :
  p3_uninitialized (st_points st A) = false ->
  valid_scalar (st_scalars st a) ->
  valid_scalar (st_scalars st b) ->
  additions (emitted st (VarTimeDoubleScalarBaseMult v a A b st))
  = (nonzero_digits (nonAdjacentForm (st_scalars st a) 5)
     + nonzero_digits (nonAdjacentForm (st_scalars st b) 8))%nat.
Proof.
  intros HA _ _. rewrite VarTimeDoubleScalarBaseMult_trace by exact HA.
  unfold VarTimeDoubleScalarBaseMult_schedule.
  rewrite !additions_app, downfrom_below.
  rewrite VarTimeDoubleScalarBaseMult_loop_additions
    by (rewrite nonAdjacentForm_length; lia).
  rewrite !take_ge by (rewrite nonAdjacentForm_length; lia).
  match goal with
  | |- (additions ?h + (_ + additions ?t))%nat = _ =>
      change (additions h) with 0%nat; change (additions t) with 0%nat
  end.
  lia.
Qed.

(** The scalars 255 and 0: the form of width 5 of 255 has two nonzero
    digits, [-1] at position 0 and [1] at position 8. *)
Lemma VarTimeDoubleScalarBaseMult_adds_per_nonzero_digit_witness :
  let st := ZLayer.store (Some 7) in
  (p3_uninitialized (st_points st 1%nat) = false /\
   valid_scalar (st_scalars st 255%nat) /\ valid_scalar (st_scalars st 0%nat)) /\
  additions (emitted st (VarTimeDoubleScalarBaseMult 2%nat 255%nat 1%nat 0%nat st))
  = (nonzero_digits (nonAdjacentForm 255 5) + nonzero_digits (nonAdjacentForm 0 8))%nat /\
  nonzero_digits (nonAdjacentForm 255 5) = 2%nat /\
  nonzero_digits (nonAdjacentForm 0 8) = 0%nat.
Proof.
  assert (Ha : valid_scalar (st_scalars (ZLayer.store (Some 7)) 255%nat))
    by (vm_compute; intuition discriminate).
  assert (Hb : valid_scalar (st_scalars (ZLayer.store (Some 7)) 0%nat))
    by (vm_compute; intuition discriminate).
  split; [exact (conj eq_refl (conj Ha Hb))|]. split; [|split].
  - exact (VarTimeDoubleScalarBaseMult_adds_per_nonzero_digit ZLayer.ops
             2%nat 255%nat 1%nat 0%nat (ZLayer.store (Some 7)) eq_refl Ha Hb).
  - vm_compute. reflexivity.
  - vm_compute. reflexivity.
Defined.

(** X9: what a call of [VarTimeMultiScalarMult] on reduced scalars shows
    an observer is a function of the scalars: the events it emits are
    those of [VarTimeMultiScalarMult_schedule], whatever the points and
    the receiver hold. *)
Theorem VarTimeMultiScalarMult_shows_its_scalars (ops : PointOps) :
  (forall v scalars points st,
      length scalars = length points ->
      Forall (fun p => p3_uninitialized (st_points st p) = false) points ->
      Forall (fun x => valid_scalar (st_scalars st x)) scalars ->
      emitted st (VarTimeMultiScalarMult v scalars points st)
      = VarTimeMultiScalarMult_schedule (map (st_scalars st) scalars)) /\
  (forall v v' scalars scalars' points points' st st',
      length scalars = length points ->
      length scalars' = length points' ->
      Forall (fun p => p3_uninitialized (st_points st p) = false) points ->
      Forall (fun p => p3_uninitialized (st_points st' p) = false) points' ->
      Forall (fun x => valid_scalar (st_scalars st x)) scalars ->
      map (st_scalars st) scalars = map (st_scalars st') scalars' ->
      emitted st (VarTimeMultiScalarMult v scalars points st)
      = emitted st' (VarTimeMultiScalarMult v' scalars' points' st')).
Proof.
  split.
  - intros v scalars points st Hlen Hinit _. now apply VarTimeMultiScalarMult_trace.
  - intros v v' scalars scalars' points points' st st' Hlen Hlen' Hinit Hinit' _ Hxs.
    rewrite !VarTimeMultiScalarMult_trace by assumption.
    now rewrite Hxs.
Qed.

(** The same scalars on different points and receivers. *)
Lemma VarTimeMultiScalarMult_shows_its_scalars_witness :
  let st := ZLayer.store (Some 7) in
  let st' := ZLayer.store_with 0%nat None (Some 3) in
  Forall (fun x => valid_scalar (st_scalars st x)) [5%nat; 3%nat] /\
  emitted st (VarTimeMultiScalarMult 0%nat [5%nat; 3%nat] [1%nat; 2%nat] st)
  = emitted st' (VarTimeMultiScalarMult 4%nat [5%nat; 3%nat] [2%nat; 1%nat] st').
Proof.
  assert (Hxs : Forall (fun x => valid_scalar (st_scalars (ZLayer.store (Some 7)) x))
                       [5%nat; 3%nat])
    by (repeat constructor; vm_compute; intuition discriminate).
  destruct (VarTimeMultiScalarMult_shows_its_scalars ZLayer.ops) as [_ H2].
  split; [exact Hxs|].
  apply H2; try reflexivity; try exact Hxs; repeat constructor.
Defined.

(** X10: on reduced scalars [VarTimeMultiScalarMult] doubles 256 times,
    whatever the scalars and however many terms there are, and performs
    one point addition or subtraction for each nonzero digit of the
    non-adjacent forms of its scalars. *)
Theorem VarTimeMultiScalarMult_operation_counts
    (ops : PointOps) (v : loc) (scalars points : list loc) (st : state) :
  length scalars = length points ->
  Forall (fun p => p3_uninitialized (st_points st p) = false) points ->
  Forall (fun x => valid_scalar (st_scalars st x)) scalars ->
  doublings (emitted st (VarTimeMultiScalarMult v scalars points st)) = 256%nat /\
  additions (emitted st (VarTimeMultiScalarMult v scalars points st))
  = list_sum (map (fun x => nonzero_digits (nonAdjacentForm (st_scalars st x) 5)) scalars).
Proof.
  intros Hlen Hinit _. rewrite VarTimeMultiScalarMult_trace by assumption.
  unfold VarTimeMultiScalarMult_schedule. split.
  - rewrite !doublings_app, VarTimeMultiScalarMult_loop_doublings.
    rewrite doublings_replicate by reflexivity.
    assert (H : forall xs, doublings (map (EvNonAdjacentForm 5) xs) = 0%nat).
    { induction xs as [|x xs IH]; [reflexivity|exact IH]. }
    rewrite H. reflexivity.
  - rewrite !additions_app, downfrom_below.
    rewrite VarTimeMultiScalarMult_loop_additions.
    + rewrite additions_replicate by reflexivity.
      assert (H : forall xs, additions (map (EvNonAdjacentForm 5) xs) = 0%nat).
      { induction xs as [|x xs IH]; [reflexivity|exact IH]. }
      rewrite H.
      change (additions [EvP2Zero]) with 0%nat.
      change (additions [EvP3FromP2]) with 0%nat.
      rewrite !List.map_map.
      rewrite (map_ext (fun x => nonzero_digits (take 256 (nonAdjacentForm (st_scalars st x) 5)))
                       (fun x => nonzero_digits (nonAdjacentForm (st_scalars st x) 5))).
      * lia.
      * intros x. now rewrite take_ge by (rewrite nonAdjacentForm_length; lia).
    + apply List.Forall_forall. intros naf Hin.
      apply in_map_iff in Hin. destruct Hin as (x & <- & _).
      rewrite nonAdjacentForm_length. lia.
Qed.

(** The scalars 255 and 16. *)
Lemma VarTimeMultiScalarMult_operation_counts_witness :
  let st := ZLayer.store (Some 7) in
  Forall (fun x => valid_scalar (st_scalars st x)) [255%nat; 16%nat] /\
  doublings (emitted st (VarTimeMultiScalarMult 0%nat [255%nat; 16%nat] [1%nat; 2%nat] st))
  = 256%nat /\
  additions (emitted st (VarTimeMultiScalarMult 0%nat [255%nat; 16%nat] [1%nat; 2%nat] st))
  = list_sum [nonzero_digits (nonAdjacentForm 255 5); nonzero_digits (nonAdjacentForm 16 5)] /\
  list_sum [nonzero_digits (nonAdjacentForm 255 5); nonzero_digits (nonAdjacentForm 16 5)]
  = 3%nat.
Proof.
  assert (Hinit : Forall (fun p => p3_uninitialized
                            (st_points (ZLayer.store (Some 7)) p) = false)
                         [1%nat; 2%nat])
    by (repeat constructor).
  assert (Hxs : Forall (fun x => valid_scalar (st_scalars (ZLayer.store (Some 7)) x))
                       [255%nat; 16%nat])
    by (repeat constructor; vm_compute; intuition discriminate).
  destruct (VarTimeMultiScalarMult_operation_counts ZLayer.ops
              0%nat [255%nat; 16%nat] [1%nat; 2%nat] (ZLayer.store (Some 7))
              eq_refl Hinit Hxs) as [Hd Ha].
  split; [exact Hxs|]. split; [exact Hd|]. split; [exact Ha|]. vm_compute. reflexivity.
Defined.
(** X11: the work of the constant-time operations on reduced scalars.
    [ScalarBaseMult] doubles 4 times and [ScalarMult] 252 times, each
    with 64 additions; [MultiScalarMult] shares the doublings between its
    terms: 252 doublings however many terms there are, and 64 additions
    for each term. *)
Theorem constant_time_operation_counts (ops : PointOps) :
  (forall v x st,
      valid_scalar (st_scalars st x) ->
      doublings (emitted st (ScalarBaseMult v x st)) = 4%nat /\
      additions (emitted st (ScalarBaseMult v x st)) = 64%nat) /\
  (forall v x q st,
      p3_uninitialized (st_points st q) = false ->
      valid_scalar (st_scalars st x) ->
      doublings (emitted st (ScalarMult v x q st)) = 252%nat /\
      additions (emitted st (ScalarMult v x q st)) = 64%nat) /\
  (forall v scalars points st,
      length scalars = length points ->
      Forall (fun p => p3_uninitialized (st_points st p) = false) points ->
      Forall (fun x => valid_scalar (st_scalars st x)) scalars ->
      doublings (emitted st (MultiScalarMult v scalars points st)) = 252%nat /\
      additions (emitted st (MultiScalarMult v scalars points st))
      = (64 * length points)%nat).
Proof.
  split; [|split].
  - intros v x st _.
    rewrite (emitted_app st _ ScalarBaseMult_schedule)
      by apply emits_trace, ScalarBaseMult_emits.
    split; reflexivity.
  - intros v x q st Hq _.
    rewrite (emitted_app st _ ScalarMult_schedule) by now apply ScalarMult_trace.
    split; reflexivity.
  - intros v scalars points st Hlen Hinit _.
    rewrite (emitted_app st _ (MultiScalarMult_schedule (length points)))
      by now apply MultiScalarMult_trace.
    split; [apply MultiScalarMult_schedule_doublings|apply MultiScalarMult_schedule_additions].
Qed.

(** One, two and three terms. *)
Lemma constant_time_operation_counts_witness :
  let st := ZLayer.store (Some 7) in
  Forall (fun x => valid_scalar (st_scalars st x)) [5%nat; 3%nat; 9%nat] /\
  doublings (emitted st (ScalarMult 0%nat 5%nat 1%nat st)) = 252%nat /\
  doublings (emitted st (MultiScalarMult 0%nat [5%nat; 3%nat] [1%nat; 2%nat] st)) = 252%nat /\
  doublings (emitted st (MultiScalarMult 0%nat [5%nat; 3%nat; 9%nat] [1%nat; 2%nat; 4%nat] st))
  = 252%nat /\
  additions (emitted st (MultiScalarMult 0%nat [5%nat; 3%nat; 9%nat] [1%nat; 2%nat; 4%nat] st))
  = (64 * 3)%nat.
Proof.
  assert (H5 : valid_scalar (st_scalars (ZLayer.store (Some 7)) 5%nat))
    by (vm_compute; intuition discriminate).
  assert (H3 : valid_scalar (st_scalars (ZLayer.store (Some 7)) 3%nat))
    by (vm_compute; intuition discriminate).
  assert (H9 : valid_scalar (st_scalars (ZLayer.store (Some 7)) 9%nat))
    by (vm_compute; intuition discriminate).
  assert (Hxs : Forall (fun x => valid_scalar (st_scalars (ZLayer.store (Some 7)) x))
                       [5%nat; 3%nat; 9%nat])
    by (constructor; [exact H5|]; constructor; [exact H3|];
        constructor; [exact H9|]; constructor).
  assert (Hxs2 : Forall (fun x => valid_scalar (st_scalars (ZLayer.store (Some 7)) x))
                        [5%nat; 3%nat])
    by (constructor; [exact H5|]; constructor; [exact H3|]; constructor).
  destruct (constant_time_operation_counts ZLayer.ops) as (_ & H2 & H4).
  split; [exact Hxs|]. split; [|split; [|split]].
  - apply H2; [reflexivity|exact H5].
  - apply H4; [reflexivity|repeat constructor|exact Hxs2].
  - apply H4; [reflexivity|repeat constructor|exact Hxs].
  - apply (H4 0%nat [5%nat; 3%nat; 9%nat] [1%nat; 2%nat; 4%nat]);
      [reflexivity|repeat constructor|exact Hxs].
Defined.

(** X12: [VarTimeMultiScalarMult] generalizes the other two variable-base
    operations.  On one term it returns what [ScalarMult] returns; on the
    two terms [(a, A)] and [(b, B)], where [B] holds the generator, what
    [VarTimeDoubleScalarBaseMult] returns on [a], [A] and [b]. *)
Theorem VarTimeMultiScalarMult_generalizes (ops : PointOps) (spec : PointSpec ops) :
  (forall (v v' x q : loc) (st : state) (g : G),
      holds st q g ->
      valid_scalar (st_scalars st x) ->
      exists h : G,
        computes (ScalarMult v x q st) v h /\
        computes (VarTimeMultiScalarMult v' [x] [q] st) v' h) /\
  (forall (v v' a A b B : loc) (st : state) (gA : G),
      holds st A gA ->
      holds st B generator ->
      valid_scalar (st_scalars st a) ->
      valid_scalar (st_scalars st b) ->
      exists h : G,
        computes (VarTimeDoubleScalarBaseMult v a A b st) v h /\
        computes (VarTimeMultiScalarMult v' [a; b] [A; B] st) v' h).
Proof.
  split.
  - intros v v' x q st g Hq Hx. exists (zmul (st_scalars st x) g). split.
    + now apply ScalarMult_computes.
    + rewrite <- linear_combination_single.
      apply (VarTimeMultiScalarMult_computes v' [x] [q] st [g]); [reflexivity| |].
      * constructor; [exact Hq|]. constructor.
      * constructor; [exact Hx|]. constructor.
  - intros v v' a A b B st gA HA HB Ha Hb.
    exists (gadd (zmul (st_scalars st a) gA) (zmul (st_scalars st b) generator)). split.
    + now apply VarTimeDoubleScalarBaseMult_computes.
    + rewrite <- linear_combination_pair.
      apply (VarTimeMultiScalarMult_computes v' [a; b] [A; B] st [gA; generator]);
        [reflexivity| |].
      * constructor; [exact HA|]. constructor; [exact HB|]. constructor.
      * constructor; [exact Ha|]. constructor; [exact Hb|]. constructor.
Qed.

(** The scalars 5 and 3, a point that stands for 7 and the generator. *)
Lemma VarTimeMultiScalarMult_generalizes_witness :
  let st := ZLayer.store_with 2%nat (Some 1) (Some 7) in
  (holds st 1%nat 7 /\ holds st 2%nat generator /\
   valid_scalar (st_scalars st 5%nat) /\ valid_scalar (st_scalars st 3%nat)) /\
  (exists h : G,
      computes (ScalarMult 0%nat 5%nat 1%nat st) 0%nat h /\
      computes (VarTimeMultiScalarMult 0%nat [5%nat] [1%nat] st) 0%nat h) /\
  (exists h : G,
      computes (VarTimeDoubleScalarBaseMult 0%nat 5%nat 1%nat 3%nat st) 0%nat h /\
      computes (VarTimeMultiScalarMult 0%nat [5%nat; 3%nat] [1%nat; 2%nat] st) 0%nat h) /\
  st_points (snd (VarTimeMultiScalarMult 0%nat [5%nat; 3%nat] [1%nat; 2%nat] st)) 0%nat
  = Some 38.
Proof.
  assert (HA : holds (ZLayer.store_with 2%nat (Some 1) (Some 7)) 1%nat 7) by reflexivity.
  assert (HB : holds (ZLayer.store_with 2%nat (Some 1) (Some 7)) 2%nat generator)
    by reflexivity.
  assert (H5 : valid_scalar (st_scalars (ZLayer.store_with 2%nat (Some 1) (Some 7)) 5%nat))
    by (vm_compute; intuition discriminate).
  assert (H3 : valid_scalar (st_scalars (ZLayer.store_with 2%nat (Some 1) (Some 7)) 3%nat))
    by (vm_compute; intuition discriminate).
  destruct (VarTimeMultiScalarMult_generalizes ZLayer.ops ZLayerFacts.spec) as [H1 H2].
  split; [exact (conj HA (conj HB (conj H5 H3)))|]. split; [|split].
  - exact (H1 0%nat 0%nat 5%nat 1%nat _ 7 HA H5).
  - exact (H2 0%nat 0%nat 5%nat 1%nat 3%nat 2%nat _ 7 HA HB H5 H3).
  - vm_compute. reflexivity.
Defined.

(** X13: on two empty sequences [VarTimeMultiScalarMult] does not fail and
    leaves the identity in its receiver, whatever the receiver held; it
    still doubles 256 times. *)
Theorem VarTimeMultiScalarMult_of_no_term
    (ops : PointOps) (spec : PointSpec ops) (v : loc) (st : state) :
  computes (VarTimeMultiScalarMult v [] [] st) v gzero /\
  doublings (emitted st (VarTimeMultiScalarMult v [] [] st)) = 256%nat /\
  additions (emitted st (VarTimeMultiScalarMult v [] [] st)) = 0%nat.
Proof.
  split; [|split].
  - apply (VarTimeMultiScalarMult_computes v [] [] st []);
      [reflexivity|constructor|constructor].
  - rewrite VarTimeMultiScalarMult_trace by (reflexivity || constructor).
    unfold VarTimeMultiScalarMult_schedule.
    rewrite !doublings_app, VarTimeMultiScalarMult_loop_doublings. reflexivity.
  - rewrite VarTimeMultiScalarMult_trace by (reflexivity || constructor).
    unfold VarTimeMultiScalarMult_schedule.
    rewrite !additions_app, downfrom_below, VarTimeMultiScalarMult_loop_additions
      by constructor.
    reflexivity.
Qed.

(** X14: the search loop of [VarTimeDoubleScalarBaseMult] (lines 185-189)
    does stop at the highest position up to its start where one of the
    two forms has a nonzero digit, and runs to the end when there is
    none. *)
Theorem search_stops_at_the_highest_nonzero_digit (aNaf bNaf : list Z) (i : nat) :
  match find_first_nonzero aNaf bNaf i with
  | Some j =>
      (j <= i)%nat /\ (digit aNaf j <> 0 \/ digit bNaf j <> 0) /\
      forall k, (j < k <= i)%nat -> digit aNaf k = 0 /\ digit bNaf k = 0
  | None => forall k, (k <= i)%nat -> digit aNaf k = 0 /\ digit bNaf k = 0
  end.
Proof. apply find_first_nonzero_highest. Qed.

(** X15: on reduced scalars the iterations of
    [VarTimeDoubleScalarBaseMult] above the position [j] where its search
    stops do nothing but double: the main loop starts with [255 - j]
    iterations that emit a doubling and a conversion, without a lookup,
    an addition or a write to the receiver. *)
Theorem VarTimeDoubleScalarBaseMult_idle_iterations
    (ops : PointOps) (v a A b : loc) (st : state) (j : nat) :
  p3_uninitialized (st_points st A) = false ->
  valid_scalar (st_scalars st a) ->
  valid_scalar (st_scalars st b) ->
  find_first_nonzero (nonAdjacentForm (st_scalars st a) 5)
                     (nonAdjacentForm (st_scalars st b) 8) 255 = Some j ->
  emitted st (VarTimeDoubleScalarBaseMult v a A b st)
  = [EvNafTableFromP3; EvNonAdjacentForm 5 (st_scalars st a);
     EvNonAdjacentForm 8 (st_scalars st b); EvP2Zero]
    ++ concat (replicate (255 - j) [EvDouble; EvP2FromP1xP1])
    ++ concat (map (VarTimeDoubleScalarBaseMult_step_events
                      (nonAdjacentForm (st_scalars st a) 5)
                      (nonAdjacentForm (st_scalars st b) 8))
                   (downfrom j))
    ++ [EvP3FromP2].
Proof.
  intros HA _ _ Hj. rewrite VarTimeDoubleScalarBaseMult_trace by exact HA.
  unfold VarTimeDoubleScalarBaseMult_schedule.
  pose proof (find_first_nonzero_highest (nonAdjacentForm (st_scalars st a) 5)
                (nonAdjacentForm (st_scalars st b) 8) 255) as Hs.
  rewrite Hj in Hs. destruct Hs as (Hle & _ & Hz).
  rewrite !downfrom_below.
  replace (S 255) with (255 - j + S j)%nat by lia.
  rewrite idle_iterations by (intros k Hk; apply Hz; lia).
  now rewrite <- !app_assoc.
Qed.

(** The scalars 255 and 0: the search stops at position 8, and the first
    247 iterations are idle. *)
Lemma VarTimeDoubleScalarBaseMult_idle_iterations_witness :
  let st := ZLayer.store (Some 7) in
  (p3_uninitialized (st_points st 1%nat) = false /\
   valid_scalar (st_scalars st 255%nat) /\ valid_scalar (st_scalars st 0%nat) /\
   find_first_nonzero (nonAdjacentForm (st_scalars st 255%nat) 5)
                      (nonAdjacentForm (st_scalars st 0%nat) 8) 255 = Some 8%nat) /\
  emitted st (VarTimeDoubleScalarBaseMult 2%nat 255%nat 1%nat 0%nat st)
  = [EvNafTableFromP3; EvNonAdjacentForm 5 255; EvNonAdjacentForm 8 0; EvP2Zero]
    ++ concat (replicate (255 - 8) [EvDouble; EvP2FromP1xP1])
    ++ concat (map (VarTimeDoubleScalarBaseMult_step_events
                      (nonAdjacentForm 255 5) (nonAdjacentForm 0 8))
                   (downfrom 8))
    ++ [EvP3FromP2].
Proof.
  assert (Hj : find_first_nonzero
                 (nonAdjacentForm (st_scalars (ZLayer.store (Some 7)) 255%nat) 5)
                 (nonAdjacentForm (st_scalars (ZLayer.store (Some 7)) 0%nat) 8) 255
               = Some 8%nat)
    by (vm_compute; reflexivity).
  assert (Ha : valid_scalar (st_scalars (ZLayer.store (Some 7)) 255%nat))
    by (vm_compute; intuition discriminate).
  assert (Hb : valid_scalar (st_scalars (ZLayer.store (Some 7)) 0%nat))
    by (vm_compute; intuition discriminate).
  split; [exact (conj eq_refl (conj Ha (conj Hb Hj)))|].
  exact (VarTimeDoubleScalarBaseMult_idle_iterations ZLayer.ops
           2%nat 255%nat 1%nat 0%nat (ZLayer.store (Some 7)) 8%nat eq_refl Ha Hb Hj).
Defined.

(** X16: every lookup of [VarTimeMultiScalarMult] is in the bounds of its
    table of the odd multiples 1, 3, ..., 15: the index given to
    [SelectInto] is odd and between 1 and 15, whatever the reduced
    scalars are. *)
Theorem VarTimeMultiScalarMult_lookups_in_bounds
    (ops : PointOps) (v : loc) (scalars points : list loc) (st : state) :
  length scalars = length points ->
  Forall (fun p => p3_uninitialized (st_points st p) = false) points ->
  Forall (fun x => valid_scalar (st_scalars st x)) scalars ->
  Forall (lookup_in_range 16) (emitted st (VarTimeMultiScalarMult v scalars points st)).
Proof.
  intros Hlen Hinit _. rewrite VarTimeMultiScalarMult_trace by assumption.
  apply VarTimeMultiScalarMult_schedule_lookups.
Qed.

(** The scalars 255 and 16: the lookups are at 1, 1 and 1. *)
Lemma VarTimeMultiScalarMult_lookups_in_bounds_witness :
  let st := ZLayer.store (Some 7) in
  Forall (fun x => valid_scalar (st_scalars st x)) [255%nat; 16%nat] /\
  Forall (lookup_in_range 16)
    (emitted st (VarTimeMultiScalarMult 0%nat [255%nat; 16%nat] [1%nat; 2%nat] st)) /\
  List.filter (fun e => negb (scalar_independent e))
    (emitted st (VarTimeMultiScalarMult 0%nat [255%nat; 16%nat] [1%nat; 2%nat] st))
  = [EvNonAdjacentForm 5 255; EvNonAdjacentForm 5 16;
     EvSelectVariableTime 1; EvSelectVariableTime 1; EvSelectVariableTime 1].
Proof.
  assert (Hxs : Forall (fun x => valid_scalar (st_scalars (ZLayer.store (Some 7)) x))
                       [255%nat; 16%nat])
    by (repeat constructor; vm_compute; intuition discriminate).
  split; [exact Hxs|]. split.
  - apply (VarTimeMultiScalarMult_lookups_in_bounds ZLayer.ops);
      [reflexivity|repeat constructor|exact Hxs].
  - vm_compute. reflexivity.
Defined.
